(** * CTFN-Studio: job admission, resource gate, cancellation and event bus

    A shallow embedding of [backend/app/services/music_service.py] and of the
    fields of [backend/app/models.py] it touches.

    The service runs on one asyncio event loop.  Code between two suspension
    points of a coroutine runs atomically with respect to the other
    coroutines, so [generate_task] is cut at its two suspension points (the
    wait inside [async with self.gpu_lock] and [await loop.run_in_executor])
    into three blocks, and the system is a transition function over a world
    holding the two singletons, the job store, the [threading.Event] objects
    and the suspended coroutines. *)

From Stdlib Require Import ZArith QArith Floats Strings.String Strings.Ascii.
From stdpp Require Import gmap strings list fin_maps pretty.

Local Open Scope string_scope.
Local Open Scope list_scope.
Local Open Scope Z_scope.

(** ** Python values the service passes around *)

Module Py.

(** An exception instance: its class and [str(e)]. *)
Record exn := Exn { exn_class : string; exn_str : string }.

(** The result of a statement that may raise. *)
Inductive res (A : Type) :=
| Ok (a : A)
| Raise (e : exn).
Arguments Ok {A} a.
Arguments Raise {A} e.

(** [l.index(x)]: the first position of [x], [None] for [ValueError]. *)
Fixpoint list_index `{EqDecision A} (x : A) (l : list A) : option nat :=
  match l with
  | [] => None
  | y :: r => if decide (y = x) then Some 0%nat else S <$> list_index x r
  end.

(** [l.remove(x)]: drops the first occurrence of [x].  The service only calls
    it under [if x in l], so the [ValueError] of an absent [x] is the
    identity here. *)
Fixpoint list_remove `{EqDecision A} (x : A) (l : list A) : list A :=
  match l with
  | [] => []
  | y :: r => if decide (y = x) then r else y :: list_remove x r
  end.

(** Builtin [min(a, b)] and [max(a, b)] on floats: the first argument is kept
    unless the second compares strictly below (above) it. *)
Definition min (a b : float) : float := if PrimFloat.ltb b a then b else a.
Definition max (a b : float) : float := if PrimFloat.ltb a b then b else a.

(** [max(d, key=f)] and [min(d, key=f)] over the keys of a dict in insertion
    order: the running best is replaced only by a strictly better key value,
    so the first of several equal candidates wins. *)
Fixpoint max_key_from {A} (key : A → Q) (best : A) (items : list A) : A :=
  match items with
  | [] => best
  | x :: r =>
      if Qle_bool (key x) (key best) then max_key_from key best r
      else max_key_from key x r
  end.

Fixpoint min_key_from {A} (key : A → Q) (best : A) (items : list A) : A :=
  match items with
  | [] => best
  | x :: r =>
      if Qle_bool (key best) (key x) then min_key_from key best r
      else min_key_from key x r
  end.

(** [None] stands for the [ValueError] of an empty iterable. *)
Definition max_key {A} (key : A → Q) (items : list A) : option A :=
  match items with
  | [] => None
  | x :: r => Some (max_key_from key x r)
  end.

Definition min_key {A} (key : A → Q) (items : list A) : option A :=
  match items with
  | [] => None
  | x :: r => Some (min_key_from key x r)
  end.

End Py.

(** ** Device placement: [MusicService._load_pipeline_multi_gpu] *)

Module Placement.

Inductive torch_device :=
| cpu
| cuda
| cuda_index (i : nat).

(** The keyword arguments of [HeartMuLaGenPipeline.from_pretrained];
    [lazy_load] is [None] where the call does not pass it. *)
Record from_pretrained_args := FromPretrained {
  model_path : string;
  device : torch_device;
  codec_device : torch_device;
  dtype : string;
  version : string;
  load_muq_mulan : bool;
  lazy_load : option bool
}.

(** [get_gpu_memory(device_id)]: [props.total_memory / (1024 ** 3)].  The
    argument [total_memory] lists [total_memory] in bytes of devices
    [0 .. device_count() - 1].  The quotient is kept exact; a binary64
    quotient by a power of two is exact for every byte count below 2^53. *)
Definition get_gpu_memory (total_memory : list Z) (device_id : nat) : Q :=
  (inject_Z (default 0%Z (total_memory !! device_id)) / inject_Z (1024 ^ 3)%Z)%Q.

(** The dict [gpu_memories], in insertion order. *)
Definition gpu_memories (total_memory : list Z) : list (nat * Q) :=
  (λ i, (i, get_gpu_memory total_memory i)) <$> seq 0 (length total_memory).

(** [gpu_memories.get]. *)
Definition dict_get (d : list (nat * Q)) (k : nat) : Q :=
  default 0%Q ((λ r, r.2.2) <$> list_find (λ kv, kv.1 = k) d).

(** Returns the new [self.gpu_mode] and the call made to [from_pretrained];
    [None] is the [ValueError] of [max] on an empty dict. *)
Definition _load_pipeline_multi_gpu (total_memory : list Z)
    (model_path version : string) (load_muq_mulan : bool)
    : option (string * from_pretrained_args) :=
  let num_gpus := length total_memory in
  if decide (num_gpus < 2)%nat then
    Some ("single",
          FromPretrained model_path cuda cpu "bfloat16" version
                         load_muq_mulan (Some true))
  else
    let d := gpu_memories total_memory in
    mula_gpu ← Py.max_key (dict_get d) d.*1;
    codec_gpu ← Py.min_key (dict_get d) d.*1;
    Some ("multi",
          FromPretrained model_path (cuda_index mula_gpu)
                         (cuda_index codec_gpu) "bfloat16" version
                         load_muq_mulan None).

End Placement.

(** ** Reference-audio conditioning window: [_run_pipeline], lines 256-282 *)

Module Conditioning.

Local Open Scope float_scope.

(** Lines 274-277, once [torchaudio.info] has given the duration. *)
Definition muq_segment_sec (style_influence audio_duration_sec : float)
    : float :=
  let max_segment_sec := 10.0 in
  let muq := (style_influence / 100.0) * max_segment_sec in
  let muq := Py.min muq audio_duration_sec in
  Py.max 1.0 muq.

(** [info.num_frames / info.sample_rate] on two ints; [None] is the
    [ZeroDivisionError].  Both are below 2^53 here, where the conversion is
    exact and the true division is the binary64 quotient. *)
Definition audio_duration_sec (num_frames sample_rate : Z) : option float :=
  if decide (sample_rate = 0)%Z then None
  else Some (PrimFloat.of_uint63 (Uint63.of_Z num_frames)
             / PrimFloat.of_uint63 (Uint63.of_Z sample_rate)).

(** The loop over the four extensions: [found] is the first candidate path
    that exists, [info] the frames and rate [torchaudio.info] reports for
    it ([None] when it raises).  Returns [ref_audio_path] and
    [muq_segment_sec]. *)
Definition resolve_ref_audio (ref_audio_id : option string)
    (found : option string) (info : option (Z * Z)) (style_influence : float)
    : option string * float :=
  match ref_audio_id with
  | None | Some "" => (None, 60.0)
  | Some _ =>
      match found with
      | None => (None, 60.0)
      | Some path =>
          match info ≫= λ fr, audio_duration_sec fr.1 fr.2 with
          | Some d => (Some path, muq_segment_sec style_influence d)
          | None => (Some path, 10.0)
          end
      end
  end.

End Conditioning.

(** ** Event payloads *)

(** The values the service puts into the dicts it publishes. *)
Inductive jvalue :=
| JStr (s : string)
| JInt (n : Z).

Global Instance jvalue_eq_dec : EqDecision jvalue.
Proof. solve_decision. Defined.

(** A dict literal, keys in the order written. *)
Definition payload := list (string * jvalue).

Definition payload_get (k : string) (d : payload) : option jvalue :=
  (λ r, r.2.2) <$> list_find (λ kv, kv.1 = k) d.

Definition nl : string := String "010"%char EmptyString.
Definition dquote : string := String "034"%char EmptyString.

(** An instance of [json.dumps] for the examples: it agrees with the
    library on payloads whose strings need no escaping. *)
Definition json_dumps_plain (d : payload) : string :=
  let value v :=
    match v with
    | JStr s => dquote +:+ s +:+ dquote
    | JInt n => pretty n
    end in
  let item kv := dquote +:+ kv.1 +:+ dquote +:+ ": " +:+ value kv.2 in
  "{" +:+ String.concat ", " (item <$> d) +:+ "}".

(** ** The event bus: [class EventManager] *)

Module EventManager.

(** An [asyncio.Queue]: [maxsize] and the items waiting in it.  A [maxsize]
    of zero or less means the queue never fills. *)
Record Queue := MkQueue { maxsize : Z; items : list string }.

(** [asyncio.Queue()]: the constructor's default is [maxsize=0]. *)
Definition Queue_new : Queue := MkQueue 0 [].

Definition qsize (q : Queue) : nat := length (items q).

Definition full (q : Queue) : bool :=
  if decide (maxsize q ≤ 0) then false
  else bool_decide (maxsize q ≤ Z.of_nat (qsize q)).

(** [None] is [asyncio.QueueFull]. *)
Definition put_nowait (q : Queue) (item : string) : option Queue :=
  if full q then None else Some (MkQueue (maxsize q) (items q ++ [item])).

(** The consumer's side: takes the oldest item, if any. *)
Definition get_nowait (q : Queue) : option (string * Queue) :=
  match items q with
  | [] => None
  | x :: r => Some (x, MkQueue (maxsize q) r)
  end.

(** The singleton.  [subscribers] holds references into [queues], the queue
    objects created so far; a consumer keeps its reference after
    [unsubscribe]. *)
Record t := Mk { subscribers : list nat; queues : list Queue }.

(** [__new__]. *)
Definition new : t := Mk [] [].

Definition subscribe (em : t) : nat * t :=
  let q := length (queues em) in
  (q, Mk (subscribers em ++ [q]) (queues em ++ [Queue_new])).

Definition unsubscribe (q : nat) (em : t) : t :=
  if bool_decide (q ∈ subscribers em)
  then Mk (Py.list_remove q (subscribers em)) (queues em)
  else em.

(** One turn of the loop body: [try: q.put_nowait(msg)] with
    [except asyncio.QueueFull: pass]. *)
Definition offer (msg : string) (qs : list Queue) (q : nat) : list Queue :=
  match qs !! q with
  | Some Q =>
      match put_nowait Q msg with
      | Some Q' => <[q := Q']> qs
      | None => qs
      end
  | None => qs
  end.

Definition broadcast (msg : string) (em : t) : t :=
  Mk (subscribers em) (foldl (offer msg) (queues em) (subscribers em)).

Section with_json.
Variable json_dumps : payload → string.

Definition format_msg (event_type : string) (data : payload) : string :=
  "event: " +:+ event_type +:+ nl +:+ "data: " +:+ json_dumps data +:+ nl +:+ nl.

Definition publish (event_type : string) (data : payload) (em : t) : t :=
  broadcast (format_msg event_type data) em.

End with_json.

Definition shutdown_msg : string :=
  "event: shutdown" +:+ nl +:+ "data: {}" +:+ nl +:+ nl.

Definition shutdown (em : t) : t := broadcast shutdown_msg em.

(** *** Vocabulary of the statements *)

(** What one turn of the loop of [publish] makes of a channel: the message
    is appended unless the channel is full. *)
Definition deposit (msg : string) (Q : Queue) : Queue :=
  default Q (put_nowait Q msg).

(** A channel with a capacity. *)
Definition bounded (Q : Queue) : Prop :=
  ∃ cap : nat, ∀ l, (cap ≤ length l)%nat → full (MkQueue (maxsize Q) l) = true.

(** A bus whose subscriber list has no repetition and refers to queues that
    exist, all of them made by [asyncio.Queue()]. *)
Record sound (em : t) : Prop := Sound {
  sound_nodup : NoDup (subscribers em);
  sound_refs : ∀ q, q ∈ subscribers em → (q < length (queues em))%nat;
  sound_unbounded : Forall (λ Q, maxsize Q = 0) (queues em)
}.

End EventManager.

(** ** The job store: [models.Job] *)

Inductive JobStatus := QUEUED | PROCESSING | COMPLETED | FAILED.

Global Instance JobStatus_eq_dec : EqDecision JobStatus.
Proof. solve_decision. Defined.

(** The columns of [Job] the service reads or writes. *)
Record Job := MkJob {
  status : JobStatus;
  title : option string;
  seed : option Z;
  audio_path : option string;
  error_msg : option string
}.

(** A row as the API creates it: [status] defaults to [QUEUED]. *)
Definition Job_new : Job := MkJob QUEUED None None None None.

(** ** The scheduler: [class MusicService] *)

Module MusicService.

(** An [asyncio.Lock]: [_locked] and the deque [_waiters] of futures, each
    with the coroutine suspended on it and whether its result is set.
    [acquire()] takes the lock at once when it is free and no waiter is
    queued, and otherwise appends a future and suspends on it; [release()]
    clears [_locked] and sets the result of the first future; the coroutine
    woken that way removes its future and sets [_locked].  The service never
    cancels a task, so no future is ever cancelled. *)
Record Lock := MkLock { _locked : bool; _waiters : list (nat * bool) }.

(** [_wake_up_first]: sets the result of the first waiter's future. *)
Definition _wake_up_first (ws : list (nat * bool)) : list (nat * bool) :=
  match ws with
  | [] => []
  | (t, _) :: r => (t, true) :: r
  end.

(** [release()], called by the holder at the end of [async with]. *)
Definition release (l : Lock) : Lock :=
  MkLock false (_wake_up_first (_waiters l)).

(** Where a [generate_task] coroutine stands: suspended in
    [gpu_lock.acquire()], suspended in [await loop.run_in_executor] with its
    locals, or finished by [return] or by an exception. *)
Inductive pc :=
| Waiting
| Generating (abort_event : nat) (auto_title : string) (seed_to_use : Z)
| Finished (r : Py.res unit).

(** A coroutine: [job_id], [request.seed] and the point it has reached. *)
Record task := Task {
  task_job : string;
  task_seed : option Z;
  task_pc : pc
}.

Record world := World {
  job_queue : list string;
  active_jobs : gmap string nat;
  gpu_lock : Lock;
  bus : EventManager.t;
  events : list bool;
  db : gmap string Job;
  tasks : list task;
  published : list (string * payload);
  arrivals : list nat;
  acquisitions : list nat
}.

(** [events] are the [threading.Event] objects created so far, each [true]
    once set; [published], [arrivals] and [acquisitions] are histories kept
    for the statements: the calls to [publish], the coroutines in the order
    they appended to [job_queue], and in the order they got the lock. *)

Definition set_job_queue (x : list string) (w : world) : world :=
  World x (active_jobs w) (gpu_lock w) (bus w) (events w) (db w) (tasks w)
        (published w) (arrivals w) (acquisitions w).
Definition set_active_jobs (x : gmap string nat) (w : world) : world :=
  World (job_queue w) x (gpu_lock w) (bus w) (events w) (db w) (tasks w)
        (published w) (arrivals w) (acquisitions w).
Definition set_gpu_lock (x : Lock) (w : world) : world :=
  World (job_queue w) (active_jobs w) x (bus w) (events w) (db w) (tasks w)
        (published w) (arrivals w) (acquisitions w).
Definition set_bus (x : EventManager.t) (w : world) : world :=
  World (job_queue w) (active_jobs w) (gpu_lock w) x (events w) (db w)
        (tasks w) (published w) (arrivals w) (acquisitions w).
Definition set_events (x : list bool) (w : world) : world :=
  World (job_queue w) (active_jobs w) (gpu_lock w) (bus w) x (db w) (tasks w)
        (published w) (arrivals w) (acquisitions w).
Definition set_db (x : gmap string Job) (w : world) : world :=
  World (job_queue w) (active_jobs w) (gpu_lock w) (bus w) (events w) x
        (tasks w) (published w) (arrivals w) (acquisitions w).
Definition set_tasks (x : list task) (w : world) : world :=
  World (job_queue w) (active_jobs w) (gpu_lock w) (bus w) (events w) (db w)
        x (published w) (arrivals w) (acquisitions w).
Definition set_published (x : list (string * payload)) (w : world) : world :=
  World (job_queue w) (active_jobs w) (gpu_lock w) (bus w) (events w) (db w)
        (tasks w) x (arrivals w) (acquisitions w).
Definition set_arrivals (x : list nat) (w : world) : world :=
  World (job_queue w) (active_jobs w) (gpu_lock w) (bus w) (events w) (db w)
        (tasks w) (published w) x (acquisitions w).
Definition set_acquisitions (x : list nat) (w : world) : world :=
  World (job_queue w) (active_jobs w) (gpu_lock w) (bus w) (events w) (db w)
        (tasks w) (published w) (arrivals w) x.

(** The two [__new__] over a store [db0]. *)
Definition initial (db0 : gmap string Job) : world :=
  World [] ∅ (MkLock false []) EventManager.new [] db0 [] [] [] [].

(** What the session of the [except] handler answers: a [Some e] makes its
    query or its commit raise [e]. *)
Record handler_env := HandlerEnv {
  failed_fetch_fault : option Py.exn;
  failed_commit_fault : option Py.exn
}.

(** What the collaborators answer while a coroutine moves from the lock to
    the executor: a [Some e] makes the session's query or commit raise [e];
    [setup_fault] is an exception raised between the registration of the
    token and the first event, where line 163 imports [LLMService], and
    [setup_handler] is what the handler's session answers then;
    [title_reply] is the title [LLMService] gives ([None] when the attempt
    raises); [drawn_seed] is [random.randint(0, 2**32 - 1)]. *)
Record admission_env := AdmissionEnv {
  fetch_fault : option Py.exn;
  commit_fault : option Py.exn;
  setup_fault : option Py.exn;
  setup_handler : handler_env;
  title_reply : option string;
  drawn_seed : Z
}.

(** What they answer once the executor is done: [engine] is the outcome of
    [_run_pipeline]; the faults are those of the session at step 6;
    [handler] is what the session of the [except] handler answers. *)
Record finish_env := FinishEnv {
  engine : Py.res unit;
  done_fetch_fault : option Py.exn;
  done_commit_fault : option Py.exn;
  handler : handler_env
}.

(** [session.exec(select(Job).where(Job.id == job_id)).one_or_none()]. *)
Definition one_or_none (fault : option Py.exn) (d : gmap string Job)
    (job_id : string) : Py.res (option Job) :=
  match fault with
  | Some e => Py.Raise e
  | None => Py.Ok (d !! job_id)
  end.

Definition NoResultFound : Py.exn :=
  Py.Exn "NoResultFound" "No row was found when one was required".

(** [.one()]: an absent row raises. *)
Definition one (fault : option Py.exn) (d : gmap string Job)
    (job_id : string) : Py.res Job :=
  match fault with
  | Some e => Py.Raise e
  | None =>
      match d !! job_id with
      | Some job => Py.Ok job
      | None => Py.Raise NoResultFound
      end
  end.

(** [session.add(job); session.commit()]: a commit that raises leaves the
    store as it was. *)
Definition commit (fault : option Py.exn) (job_id : string) (job : Job)
    (d : gmap string Job) : Py.res (gmap string Job) :=
  match fault with
  | Some e => Py.Raise e
  | None => Py.Ok (<[job_id := job]> d)
  end.

(** The dict of one [job_queue] event: [i] is the index of [jid] in the
    queue, [total] the length of the queue. *)
Definition queue_update (i : nat) (jid : string) (total : nat) : payload :=
  [("job_id", JStr jid); ("position", JInt (Z.of_nat i + 1));
   ("total", JInt (Z.of_nat total))].

Section with_json.
Variable json_dumps : payload → string.

(** [event_manager.publish(event_type, data)]. *)
Definition publish (event_type : string) (data : payload) (w : world)
    : world :=
  set_published (published w ++ [(event_type, data)])
    (set_bus (EventManager.publish json_dumps event_type data (bus w)) w).

Definition get_queue_position (job_id : string) (w : world) : Z :=
  match Py.list_index job_id (job_queue w) with
  | Some i => Z.of_nat i + 1
  | None => 0
  end.

(** The loop of [_broadcast_queue_update] from index [i] on. *)
Fixpoint broadcast_from (i : nat) (rest : list string) (total : nat)
    (w : world) : world :=
  match rest with
  | [] => w
  | jid :: r =>
      broadcast_from (S i) r total
        (publish "job_queue" (queue_update i jid total) w)
  end.

Definition _broadcast_queue_update (w : world) : world :=
  broadcast_from 0 (job_queue w) (length (job_queue w)) w.

(** The coroutine [t] moves to [p]. *)
Definition to_pc (p : pc) (tk : task) : task :=
  Task (task_job tk) (task_seed tk) p.

Definition set_pc (t : nat) (p : pc) (w : world) : world :=
  set_tasks (alter (to_pc p) t (tasks w)) w.

(** The lock is taken: [self._locked = True]. *)
Definition acquired (t : nat) (w : world) : world :=
  set_acquisitions (acquisitions w ++ [t])
    (set_gpu_lock (MkLock true (_waiters (gpu_lock w))) w).

(** Leaving [async with self.gpu_lock] and the coroutine with outcome [r]. *)
Definition leave (t : nat) (r : Py.res unit) (w : world) : world :=
  set_pc t (Finished r) (set_gpu_lock (release (gpu_lock w)) w).

(** Lines 157-160: [abort_event = threading.Event()] and
    [self.active_jobs[job_id] = abort_event].  Returns the new event. *)
Definition register (job_id : string) (w : world) : nat * world :=
  let abort_event := length (events w) in
  let w := set_events (events w ++ [false]) w in
  (abort_event,
   set_active_jobs (<[job_id := abort_event]> (active_jobs w)) w).

(** Lines 338-358: step 6, after the engine returned. *)
Definition completed (job_id auto_title : string) (seed_to_use : Z)
    (env : finish_env) (w : world) : Py.res unit * world :=
  let output_filename := "song_" +:+ job_id +:+ ".mp3" in
  match one_or_none (done_fetch_fault env) (db w) job_id with
  | Py.Raise e => (Py.Raise e, w)
  | Py.Ok None => (Py.Ok (), w)
  | Py.Ok (Some job) =>
      let job :=
        MkJob COMPLETED (Some auto_title) (Some seed_to_use)
              (Some ("/audio/" +:+ output_filename)) (error_msg job) in
      match commit (done_commit_fault env) job_id job (db w) with
      | Py.Raise e => (Py.Raise e, w)
      | Py.Ok d =>
          let w := set_db d w in
          let w :=
            publish "job_update"
              [("job_id", JStr job_id); ("status", JStr "completed");
               ("audio_path", JStr ("/audio/" +:+ output_filename));
               ("title", JStr auto_title)] w in
          let w :=
            publish "job_progress"
              [("job_id", JStr job_id); ("progress", JInt 100);
               ("msg", JStr "Done!")] w in
          (Py.Ok (), w)
      end
  end.

(** Lines 360-368: the [except Exception as e] handler. *)
Definition failed (job_id : string) (e : Py.exn) (env : handler_env)
    (w : world) : Py.res unit * world :=
  match one (failed_fetch_fault env) (db w) job_id with
  | Py.Raise e' => (Py.Raise e', w)
  | Py.Ok job =>
      let job :=
        MkJob FAILED (title job) (seed job) (audio_path job)
              (Some (Py.exn_str e)) in
      match commit (failed_commit_fault env) job_id job (db w) with
      | Py.Raise e' => (Py.Raise e', w)
      | Py.Ok d =>
          let w := set_db d w in
          let w :=
            publish "job_update"
              [("job_id", JStr job_id); ("status", JStr "failed");
               ("error", JStr (Py.exn_str e))] w in
          (Py.Ok (), w)
      end
  end.

(** Lines 370-385 and the end of [async with]: the [finally] drops the
    token, the lock is released and the coroutine ends with the outcome of
    the [try] statement.  The memory cleanup of the [finally] touches
    nothing modelled here and swallows its own exceptions. *)
Definition ending (t : nat) (job_id : string) (rw : Py.res unit * world)
    : world :=
  let w := set_active_jobs (delete job_id (active_jobs rw.2)) rw.2 in
  leave t rw.1 w.

(** Lines 128-336: from the lock to [await loop.run_in_executor].  An
    exception raised before the engine starts goes through the handler and
    the [finally] like one raised by the engine. *)
Definition admission (t : nat) (job_id : string) (request_seed : option Z)
    (env : admission_env) (w : world) : world :=
  let w :=
    if bool_decide (job_id ∈ job_queue w)
    then _broadcast_queue_update
           (set_job_queue (Py.list_remove job_id (job_queue w)) w)
    else w in
  match one_or_none (fetch_fault env) (db w) job_id with
  | Py.Raise _ => leave t (Py.Ok ()) w
  | Py.Ok None => leave t (Py.Ok ()) w
  | Py.Ok (Some job) =>
      let job :=
        MkJob PROCESSING (title job) (seed job) (audio_path job)
              (error_msg job) in
      match commit (commit_fault env) job_id job (db w) with
      | Py.Raise _ => leave t (Py.Ok ()) w
      | Py.Ok d =>
          let w := set_db d w in
          let '(abort_event, w) := register job_id w in
          match setup_fault env with
          | Some e => ending t job_id (failed job_id e (setup_handler env) w)
          | None =>
              let auto_title := default "Untitled Track" (title_reply env) in
              let seed_to_use := default (drawn_seed env) request_seed in
              let w :=
                publish "job_update"
                  [("job_id", JStr job_id); ("status", JStr "processing")] w in
              let w :=
                publish "job_progress"
                  [("job_id", JStr job_id); ("progress", JInt 0);
                   ("msg", JStr "Starting generation pipeline...")] w in
              set_pc t (Generating abort_event auto_title seed_to_use) w
          end
      end
  end.

(** Lines 336-385: from the executor's answer to the end of the coroutine:
    the rest of the [try], its handler, the [finally] and the release of the
    lock. *)
Definition finish (t : nat) (job_id auto_title : string) (seed_to_use : Z)
    (env : finish_env) (w : world) : world :=
  ending t job_id
    match engine env with
    | Py.Ok _ =>
        match completed job_id auto_title seed_to_use env w with
        | (Py.Raise e, w) => failed job_id e (handler env) w
        | rw => rw
        end
    | Py.Raise e => failed job_id e (handler env) w
    end.

(** Lines 117-127: up to the lock.  [acquire()] takes a free lock with no
    waiter at once, and the coroutine runs on into [admission] without
    giving the loop back; otherwise it appends a future and suspends. *)
Definition generate_task (job_id : string) (request_seed : option Z)
    (env : admission_env) (w : world) : world :=
  let t := length (tasks w) in
  let w := set_tasks (tasks w ++ [Task job_id request_seed Waiting]) w in
  let w := set_arrivals (arrivals w ++ [t]) w in
  let w := set_job_queue (job_queue w ++ [job_id]) w in
  let queue_pos := get_queue_position job_id w in
  let w :=
    publish "job_queued"
      [("job_id", JStr job_id); ("position", JInt queue_pos);
       ("total", JInt (Z.of_nat (length (job_queue w))))] w in
  let w := _broadcast_queue_update w in
  match gpu_lock w with
  | MkLock false [] => admission t job_id request_seed env (acquired t w)
  | MkLock l ws => set_gpu_lock (MkLock l (ws ++ [(t, false)])) w
  end.

(** A waiter whose future has its result set runs again: the [finally] of
    [acquire()] removes the future, the lock is taken, [admission] follows. *)
Definition resume (t : nat) (env : admission_env) (w : world)
    : option world :=
  match tasks w !! t with
  | Some (Task job_id request_seed Waiting) =>
      if bool_decide ((t, true) ∈ _waiters (gpu_lock w)) then
        let l := gpu_lock w in
        let w :=
          set_gpu_lock (MkLock (_locked l) (Py.list_remove (t, true) (_waiters l))) w in
        Some (admission t job_id request_seed env (acquired t w))
      else None
  | _ => None
  end.

(** [_pipeline_callback], run on the loop by [call_soon_threadsafe]. *)
Definition _pipeline_callback (job_id : string) (progress : Z) (msg : string)
    (w : world) : world :=
  publish "job_progress"
    [("job_id", JStr job_id); ("progress", JInt progress); ("msg", JStr msg)]
    w.

Definition cancel_job (job_id : string) (w : world) : bool * world :=
  if bool_decide (job_id ∈ job_queue w) then
    (true,
     _broadcast_queue_update
       (set_job_queue (Py.list_remove job_id (job_queue w)) w))
  else
    match active_jobs w !! job_id with
    | Some ev => (true, set_events (<[ev := true]> (events w)) w)
    | None => (false, w)
    end.

Definition shutdown_all (w : world) : world :=
  set_events
    (map_fold (λ _ ev evs, <[ev := true]> evs) (events w) (active_jobs w)) w.

(** What can happen next on the loop or in the store. *)
Inductive action :=
| Submit (job_id : string) (request_seed : option Z) (env : admission_env)
| Resume (t : nat) (env : admission_env)
| Finish (t : nat) (env : finish_env)
| Progress (t : nat) (progress : Z) (msg : string)
| Cancel (job_id : string)
| ShutdownAll
| Subscribe
| Unsubscribe (q : nat)
| Consume (q : nat)
| ShutdownBus
| DbCreate (job_id : string)
| DbDelete (job_id : string).

(** [None]: the action cannot happen in [w]. *)
Definition step (a : action) (w : world) : option world :=
  match a with
  | Submit job_id request_seed env =>
      Some (generate_task job_id request_seed env w)
  | Resume t env => resume t env w
  | Finish t env =>
      match tasks w !! t with
      | Some (Task job_id _ (Generating _ auto_title seed_to_use)) =>
          Some (finish t job_id auto_title seed_to_use env w)
      | _ => None
      end
  | Progress t progress msg =>
      match tasks w !! t with
      | Some (Task job_id _ (Generating _ _ _)) =>
          Some (_pipeline_callback job_id progress msg w)
      | _ => None
      end
  | Cancel job_id => Some (cancel_job job_id w).2
  | ShutdownAll => Some (shutdown_all w)
  | Subscribe => Some (set_bus (EventManager.subscribe (bus w)).2 w)
  | Unsubscribe q => Some (set_bus (EventManager.unsubscribe q (bus w)) w)
  | Consume q =>
      Q ← EventManager.queues (bus w) !! q;
      r ← EventManager.get_nowait Q;
      Some (set_bus (EventManager.Mk (EventManager.subscribers (bus w))
                       (<[q := r.2]> (EventManager.queues (bus w)))) w)
  | ShutdownBus => Some (set_bus (EventManager.shutdown (bus w)) w)
  | DbCreate job_id =>
      match db w !! job_id with
      | Some _ => None
      | None => Some (set_db (<[job_id := Job_new]> (db w)) w)
      end
  | DbDelete job_id => Some (set_db (delete job_id (db w)) w)
  end.

Fixpoint run (acts : list action) (w : world) : option world :=
  match acts with
  | [] => Some w
  | a :: r => w' ← step a w; run r w'
  end.

(** The bus after the events [evs] were published in turn. *)
Definition deliver (evs : list (string * payload)) (em : EventManager.t)
    : EventManager.t :=
  foldl (λ b e, EventManager.publish json_dumps e.1 e.2 b) em evs.

(** [w] with the store [d] and with [evs] published: what a block that keeps
    the lock, the queue, the registry and the coroutines alone may change. *)
Definition wrote (w : world) (d : gmap string Job)
    (evs : list (string * payload)) : world :=
  World (job_queue w) (active_jobs w) (gpu_lock w) (deliver evs (bus w))
        (events w) d (tasks w) (published w ++ evs) (arrivals w)
        (acquisitions w).

End with_json.

(** *** Vocabulary of the statements *)

Definition is_generating (p : pc) : bool :=
  match p with
  | Generating _ _ _ => true
  | _ => false
  end.

Definition is_finished (p : pc) : bool :=
  match p with
  | Finished _ => true
  | _ => false
  end.

Definition generating_at (ts : list task) (t : nat) : Prop :=
  ∃ tk, ts !! t = Some tk ∧ is_generating (task_pc tk) = true.

(** Coroutine [t] is between its write of [PROCESSING] and its terminal
    write: suspended on the executor. *)
Definition in_flight (w : world) (t : nat) : Prop :=
  generating_at (tasks w) t.

Definition ended (w : world) (t : nat) : Prop :=
  ∃ tk, tasks w !! t = Some tk ∧ is_finished (task_pc tk) = true.

(** The stored row of [job_id] says [PROCESSING]. *)
Definition processing (w : world) (job_id : string) : Prop :=
  ∃ j, db w !! job_id = Some j ∧ status j = PROCESSING.

(** The job ids of the coroutines suspended on the lock, in the order the
    lock will serve them. *)
Definition jobs_of (ts : list task) (ws : list (nat * bool)) : list string :=
  omap (λ x, task_job <$> ts !! x.1) ws.

Definition waiting_jobs (w : world) : list string :=
  jobs_of (tasks w) (_waiters (gpu_lock w)).

(** [if job_id in q: q.remove(job_id)]. *)
Definition dequeued (job_id : string) (q : list string) : list string :=
  if bool_decide (job_id ∈ q) then Py.list_remove job_id q else q.

(** A [job_update] whose status is [completed] or [failed]. *)
Definition terminal_event (e : string * payload) : bool :=
  bool_decide (e.1 = "job_update") &&
  (bool_decide (payload_get "status" e.2 = Some (JStr "completed")) ||
   bool_decide (payload_get "status" e.2 = Some (JStr "failed"))).

(** The session of the [except] handler does not itself raise. *)
Definition persists (h : handler_env) : Prop :=
  failed_fetch_fault h = None ∧ failed_commit_fault h = None.


(** The events one run of [_broadcast_queue_update] publishes. *)
Fixpoint queue_events_from (i : nat) (rest : list string) (total : nat)
    : list (string * payload) :=
  match rest with
  | [] => []
  | jid :: r =>
      ("job_queue", queue_update i jid total) :: queue_events_from (S i) r total
  end.

Definition queue_events (q : list string) : list (string * payload) :=
  queue_events_from 0 q (length q).

(** The events published when [job_id] is taken off the displayed queue. *)
Definition dequeue_events (job_id : string) (q : list string)
    : list (string * payload) :=
  if bool_decide (job_id ∈ q) then queue_events (Py.list_remove job_id q)
  else [].


(** What every reachable world satisfies. *)
Record inv (w : world) : Prop := Inv {
  inv_idle :
    _locked (gpu_lock w) = false →
    (∀ t, ¬ in_flight w t) ∧ active_jobs w = ∅;
  inv_excl : ∀ t1 t2, in_flight w t1 → in_flight w t2 → t1 = t2;
  inv_token :
    ∀ id ev, active_jobs w !! id = Some ev →
      ∃ t sd ti s, tasks w !! t = Some (Task id sd (Generating ev ti s));
  inv_woken :
    ∀ i t, _waiters (gpu_lock w) !! i = Some (t, true) →
      i = 0%nat ∧ _locked (gpu_lock w) = false;
  inv_fifo : arrivals w = acquisitions w ++ (_waiters (gpu_lock w)).*1;
  inv_arrivals : arrivals w = seq 0 (length (tasks w));
  inv_display : job_queue w `sublist_of` waiting_jobs w
}.


End MusicService.

(** ** Concrete runs used by the examples *)

Module Scenario.
Import MusicService.

(** The store answers, the title service replies, the drawn seed is 7. *)
Definition answers : handler_env := HandlerEnv None None.

Definition env0 : admission_env :=
  AdmissionEnv None None None answers (Some "Rain") 7.

(** The engine returns; the sessions answer. *)
Definition returned : finish_env := FinishEnv (Py.Ok ()) None None answers.

(** The engine raises; the sessions answer. *)
Definition raised : finish_env :=
  FinishEnv (Py.Raise (Py.Exn "RuntimeError" "CUDA out of memory"))
            None None answers.

(** Rows for jobs a and b are created, then a and b are submitted: a gets
    the lock at once, b waits. *)
Definition two_jobs : list action :=
  [DbCreate "a"; DbCreate "b"; Submit "a" None env0; Submit "b" None env0].

(** An observer subscribes, then job a is created and submitted. *)
Definition observed : list action :=
  [Subscribe; DbCreate "a"; Submit "a" None env0].

(** Job a is submitted, its row is deleted while the engine runs, then the
    engine ends as [env] says. *)
Definition deleted_in_flight (env : finish_env) : list action :=
  [DbCreate "a"; Submit "a" None env0; DbDelete "a"; Finish 0 env].






(** [total_memory] of three accelerators: 8, 24 and 16 GiB. *)
Definition three_gpus : list Z := [8589934592; 25769803776; 17179869184].

(** The world a run from the empty store leads to. *)
Definition after (acts : list action) : world :=
  default (initial ∅) (run json_dumps_plain acts (initial ∅)).

End Scenario.

(** ** Further vocabulary *)

(** [class JobStatus(str, Enum)]: the value of each member. *)
Definition JobStatus_value (s : JobStatus) : string :=
  match s with
  | QUEUED => "queued"
  | PROCESSING => "processing"
  | COMPLETED => "completed"
  | FAILED => "failed"
  end.

Module Events.
Import MusicService.

(** The events of lines 332-333, 357-358 and 368. *)
Definition started (job_id : string) : list (string * payload) :=
  [("job_update", [("job_id", JStr job_id); ("status", JStr "processing")]);
   ("job_progress",
    [("job_id", JStr job_id); ("progress", JInt 0);
     ("msg", JStr "Starting generation pipeline...")])].

Definition done (job_id auto_title : string) : list (string * payload) :=
  [("job_update",
    [("job_id", JStr job_id); ("status", JStr "completed");
     ("audio_path", JStr ("/audio/song_" +:+ job_id +:+ ".mp3"));
     ("title", JStr auto_title)]);
   ("job_progress",
    [("job_id", JStr job_id); ("progress", JInt 100); ("msg", JStr "Done!")])].

Definition broke (job_id : string) (e : Py.exn) : list (string * payload) :=
  [("job_update",
    [("job_id", JStr job_id); ("status", JStr "failed");
     ("error", JStr (Py.exn_str e))])].

(** The event of line 123, published when [job_id] has been appended to the
    queue [q]. *)
Definition queued (job_id : string) (q : list string) : string * payload :=
  ("job_queued",
   [("job_id", JStr job_id);
    ("position",
     JInt match Py.list_index job_id q with
          | Some i => Z.of_nat i + 1
          | None => 0
          end);
    ("total", JInt (Z.of_nat (length q)))]).

(** A [job_update] event tells the status the store holds for its job. *)
Definition announces (d : gmap string Job) (e : string * payload) : Prop :=
  e.1 = "job_update" →
  ∃ id row,
    payload_get "job_id" e.2 = Some (JStr id) ∧ d !! id = Some row ∧
    payload_get "status" e.2 = Some (JStr (JobStatus_value (status row))).

(** The actions of the bus and of its consumers, and those of the API on
    the store. *)
Definition on_bus (a : action) : bool :=
  match a with
  | Subscribe | Unsubscribe _ | Consume _ | ShutdownBus => true
  | _ => false
  end.

Definition on_store (a : action) : bool :=
  match a with
  | DbCreate _ | DbDelete _ => true
  | _ => false
  end.

(** The job whose coroutine the action runs. *)
Definition job_of (a : action) (w : world) : option string :=
  match a with
  | Submit job_id _ _ => Some job_id
  | Resume t _ | Finish t _ => task_job <$> tasks w !! t
  | _ => None
  end.

(** The same ids have a row in [d] and in [d0]. *)
Definition same_rows (d d0 : gmap string Job) : Prop :=
  ∀ id, is_Some (d !! id) ↔ is_Some (d0 !! id).

Section with_json.
Variable json_dumps : payload → string.

(** The messages [publish] makes of the events [evs], in order. *)
Definition format_all (evs : list (string * payload)) : list string :=
  (λ e, EventManager.format_msg json_dumps e.1 e.2) <$> evs.

(** What a block records: the events [evs] it published went to the bus in
    order, every [job_update] among them tells what the store holds at the
    end of the block, and no row appeared or disappeared. *)
Definition records (w w' : world) (evs : list (string * payload)) : Prop :=
  published w' = published w ++ evs ∧
  bus w' = deliver json_dumps evs (bus w) ∧
  Forall (announces (db w')) evs ∧
  same_rows (db w') (db w).

End with_json.

End Events.

(** ** What every reachable world satisfies besides [inv] *)

Module Liveness.
Import MusicService.

(** The lock is held only for a coroutine in flight, whose token is the one
    registered under its id; the futures of the lock are those of the
    coroutines suspended on it; a free lock has woken its first waiter; a
    coroutine given a seed runs with it. *)
Record live (w : world) : Prop := Live {
  live_busy : _locked (gpu_lock w) = true → ∃ t, in_flight w t;
  live_registered :
    ∀ t id sd ev ti s,
      tasks w !! t = Some (Task id sd (Generating ev ti s)) →
      active_jobs w !! id = Some ev ∧ (ev < length (events w))%nat;
  live_waiting :
    ∀ t id sd, tasks w !! t = Some (Task id sd Waiting) →
      t ∈ (_waiters (gpu_lock w)).*1;
  live_waiters :
    ∀ t, t ∈ (_waiters (gpu_lock w)).*1 →
      ∃ id sd, tasks w !! t = Some (Task id sd Waiting);
  live_head :
    _locked (gpu_lock w) = false →
    ∀ t d r, _waiters (gpu_lock w) = (t, d) :: r → d = true;
  live_seed :
    ∀ t id k ev ti s,
      tasks w !! t = Some (Task id (Some k) (Generating ev ti s)) → s = k
}.

End Liveness.

(** ** Loading the pipeline: [MusicService.initialize] *)

Module Loader.
Import Placement.

(** The fields of the singleton [initialize] reads and writes.  [pipeline]
    is the call to [from_pretrained] that built it.  [pending] is a history
    kept for the statements: the arguments of the calls of [initialize]
    that are suspended in [await loop.run_in_executor]. *)
Record t := Mk {
  pipeline : option from_pretrained_args;
  is_loading : bool;
  gpu_mode : string;
  pending : list (string * string)
}.

(** [__new__]. *)
Definition new : t := Mk None false "single" [].

(** What the executor's thread meets: the memory of the accelerators, an
    exception raised by [torch.cuda] before the mode is chosen, an exception
    raised by [from_pretrained]. *)
Record load_env := LoadEnv {
  total_memory : list Z;
  probe_fault : option Py.exn;
  build_fault : option Py.exn
}.

Definition ValueError : Py.exn :=
  Py.Exn "ValueError" "max() arg is an empty sequence".

(** Lines 96-104: up to the [await].  Returns whether a load was handed to
    the executor. *)
Definition initialize_begin (model_path version : string) (s : t)
    : bool * t :=
  if bool_decide (is_Some (pipeline s)) || is_loading s then (false, s)
  else (true,
        Mk (pipeline s) true (gpu_mode s)
           (pending s ++ [(model_path, version)])).

(** The thread of the executor: [self._load_pipeline_multi_gpu(model_path,
    version)], which assigns [self.gpu_mode] before it calls
    [from_pretrained].  Its effect on [gpu_mode] is applied when the
    coroutine resumes; nothing modelled here reads the field in between. *)
Definition load (model_path version : string) (env : load_env) (s : t)
    : Py.res from_pretrained_args * t :=
  match probe_fault env with
  | Some e => (Py.Raise e, s)
  | None =>
      match _load_pipeline_multi_gpu (total_memory env) model_path version
              true with
      | None => (Py.Raise ValueError, s)
      | Some (mode, args) =>
          let s := Mk (pipeline s) (is_loading s) mode (pending s) in
          match build_fault env with
          | Some e => (Py.Raise e, s)
          | None => (Py.Ok args, s)
          end
      end
  end.

(** Lines 104-113: the executor has answered; [except Exception as e: raise
    e] and [finally: self.is_loading = False].  [None]: no call of
    [initialize] is suspended. *)
Definition initialize_end (env : load_env) (s : t)
    : option (Py.res unit * t) :=
  match pending s with
  | [] => None
  | (model_path, version) :: rest =>
      let '(r, s) := load model_path version env s in
      Some match r with
           | Py.Ok p => (Py.Ok (), Mk (Some p) false (gpu_mode s) rest)
           | Py.Raise e => (Py.Raise e, Mk (pipeline s) false (gpu_mode s) rest)
           end
  end.

Inductive call :=
| Begin (model_path version : string)
| End (env : load_env).

Definition step (c : call) (s : t) : option t :=
  match c with
  | Begin model_path version => Some (initialize_begin model_path version s).2
  | End env => snd <$> initialize_end env s
  end.

Fixpoint run (cs : list call) (s : t) : option t :=
  match cs with
  | [] => Some s
  | c :: r => s' ← step c s; run r s'
  end.

(** A load is in flight exactly while [is_loading] is set, there is never
    more than one, and none once the pipeline is there. *)
Definition consistent (s : t) : Prop :=
  length (pending s) = (if is_loading s then 1 else 0)%nat ∧
  (is_Some (pipeline s) → is_loading s = false).

End Loader.

(** ** What the engine is given: [_run_pipeline], lines 227 and 284-300 *)

Module Engine.

(** The values of the dict [pipeline_inputs]. *)
Inductive pvalue :=
| PNone
| PStr (s : string)
| PFloat (f : float).

(** Line 227: [request.tags if request.tags and request.tags.strip() else
    "pop music"]; [strip] is [str.strip]. *)
Definition sound_tags (strip : string → string) (tags : option string)
    : string :=
  match tags with
  | Some t =>
      if bool_decide (t ≠ "") && bool_decide (strip t ≠ "") then t
      else "pop music"
  | None => "pop music"
  end.

(** Lines 285-300: the dict literal and the keys added under
    [if ref_audio_path:] and [if request.ref_audio_start_sec is not None:],
    in insertion order. *)
Definition pipeline_inputs (lyrics : option string) (sound_tags : string)
    (ref_audio_path : option string) (muq_segment_sec : float)
    (ref_audio_start_sec : option float) : list (string * pvalue) :=
  [("lyrics", from_option PStr PNone lyrics); ("tags", PStr sound_tags)]
  ++ match ref_audio_path with
     | None | Some "" => []
     | Some path =>
         [("ref_audio", PStr path); ("muq_segment_sec", PFloat muq_segment_sec)]
         ++ match ref_audio_start_sec with
            | Some start => [("ref_audio_start_sec", PFloat start)]
            | None => []
            end
     end.

Definition get (k : string) (d : list (string * pvalue)) : option pvalue :=
  (λ r, r.2.2) <$> list_find (λ kv, kv.1 = k) d.

(** Lines 256-300 together: the reference audio is resolved, then the dict
    is built. *)
Definition engine_inputs (strip : string → string)
    (lyrics tags ref_audio_id : option string) (style_influence : float)
    (ref_audio_start_sec : option float)
    (found : option string) (info : option (Z * Z))
    : list (string * pvalue) :=
  let r := Conditioning.resolve_ref_audio ref_audio_id found info
             style_influence in
  pipeline_inputs lyrics (sound_tags strip tags) r.1 r.2 ref_audio_start_sec.

End Engine.

(** ** Further concrete runs used by the examples *)

Module Cases.
Import MusicService Scenario.

(** An observer subscribes and the row of job a is created. *)
Definition subscribed : list action := [Subscribe; DbCreate "a"].

(** Job a is created and submitted with seed 42. *)
Definition seeded : list action := [DbCreate "a"; Submit "a" (Some 42) env0].

(** Jobs a and b are submitted and a is cancelled while its engine runs. *)
Definition cancelled_in_flight : list action := two_jobs ++ [Cancel "a"].

(** [total_memory] of two accelerators of 24 GiB each. *)
Definition twin_gpus : list Z := [25769803776; 25769803776].

Definition ckpt : string := "/home/l1/Desktop/heartlib/ckpt".

(** The executor finds one accelerator and the pipeline is built. *)
Definition built : Loader.load_env := Loader.LoadEnv [25769803776] None None.

(** The executor finds three accelerators and [from_pretrained] raises. *)
Definition unbuilt : Loader.load_env :=
  Loader.LoadEnv three_gpus None
    (Some (Py.Exn "OSError" "checkpoint not found")).

(** The state a run of calls of [initialize] leads to. *)
Definition loaded_after (cs : list Loader.call) : Loader.t :=
  default Loader.new (Loader.run cs Loader.new).

(** [str.strip] on the tags of the examples, which hold no blank. *)
Definition strip_plain (s : string) : string := s.

End Cases.

(* ================================================================= *)
(** * Properties *)

(** ** Device placement *)

Section placement_facts.
Import Placement.

Lemma dict_get_gpu_memories (tm : list Z) (k : nat) :
  (k < length tm)%nat →
  dict_get (gpu_memories tm) k = get_gpu_memory tm k.
Proof.
  intros Hk. unfold dict_get, gpu_memories.
  destruct (list_find _ _) as [[i [k' q]]|] eqn:Hf; simpl.
  - apply list_find_Some in Hf as (Hi & Hk' & _). simpl in Hk'. subst k'.
    rewrite list_lookup_fmap in Hi.
    destruct (seq 0 (length tm) !! i) as [j|] eqn:Hj; simplify_eq/=.
    done.
  - exfalso. eapply list_find_None in Hf.
    rewrite Forall_forall in Hf. apply (Hf (k, get_gpu_memory tm k)); [|done].
    apply list_elem_of_In, in_map_iff. exists k. split; [done|].
    apply in_seq. lia.
Qed.

Lemma gpu_memories_keys (tm : list Z) :
  (gpu_memories tm).*1 = seq 0 (length tm).
Proof.
  unfold gpu_memories. rewrite <- list_fmap_compose.
  induction (seq 0 (length tm)) as [|i r IH]; [done|]. simpl. by f_equal.
Qed.

Lemma max_key_from_spec {A} (key : A → Q) (items : list A) (best : A) :
  let m := Py.max_key_from key best items in
  (m = best ∨ m ∈ items) ∧
  (key best <= key m)%Q ∧ ∀ x, x ∈ items → (key x <= key m)%Q.
Proof.
  revert best. induction items as [|x r IH]; intros best; simpl.
  - split; [by left|]. split; [apply Qle_refl|]. intros x Hx. inversion Hx.
  - destruct (Qle_bool (key x) (key best)) eqn:Hle.
    + apply Qle_bool_iff in Hle.
      destruct (IH best) as (Hin & Hb & Hall).
      split; [destruct Hin; [by left|right; by constructor]|].
      split; [done|]. intros y Hy. inversion Hy; subst; [|by apply Hall].
      by eapply Qle_trans.
    + assert (key best <= key x)%Q as Hbx.
      { apply Qlt_le_weak, Qnot_le_lt. intros H%Qle_bool_iff. congruence. }
      destruct (IH x) as (Hin & Hb & Hall).
      split; [right; destruct Hin as [->|]; by constructor|].
      split; [by eapply Qle_trans|].
      intros y Hy. inversion Hy; subst; [done|by apply Hall].
Qed.

Lemma min_key_from_spec {A} (key : A → Q) (items : list A) (best : A) :
  let m := Py.min_key_from key best items in
  (m = best ∨ m ∈ items) ∧
  (key m <= key best)%Q ∧ ∀ x, x ∈ items → (key m <= key x)%Q.
Proof.
  revert best. induction items as [|x r IH]; intros best; simpl.
  - split; [by left|]. split; [apply Qle_refl|]. intros x Hx. inversion Hx.
  - destruct (Qle_bool (key best) (key x)) eqn:Hle.
    + apply Qle_bool_iff in Hle.
      destruct (IH best) as (Hin & Hb & Hall).
      split; [destruct Hin; [by left|right; by constructor]|].
      split; [done|]. intros y Hy. inversion Hy; subst; [|by apply Hall].
      by eapply Qle_trans.
    + assert (key x <= key best)%Q as Hbx.
      { apply Qlt_le_weak, Qnot_le_lt. intros H%Qle_bool_iff. congruence. }
      destruct (IH x) as (Hin & Hb & Hall).
      split; [right; destruct Hin as [->|]; by constructor|].
      split; [by eapply Qle_trans|].
      intros y Hy. inversion Hy; subst; [done|by apply Hall].
Qed.

Lemma get_gpu_memory_le (tm : list Z) (i j : nat) (a b : Z) :
  tm !! i = Some a → tm !! j = Some b →
  (get_gpu_memory tm i <= get_gpu_memory tm j)%Q ↔ (a ≤ b)%Z.
Proof.
  intros Hi Hj. unfold get_gpu_memory. rewrite Hi, Hj. simpl.
  unfold Qle, Qdiv, Qmult, Qinv, inject_Z. simpl. lia.
Qed.

(** C9.  The placement is a function of the list of accelerators and their
    memory alone.  With fewer than two accelerators the pipeline is loaded in
    single mode on [cuda], with the codec on the CPU and lazy loading on.
    With two or more it is loaded in multi mode, the model on an accelerator
    whose memory is the greatest and the codec on one whose memory is the
    least.  The mode and the devices do not depend on the other arguments. *)
Theorem device_placement_policy (tm : list Z) (mp ver : string) (load : bool) :
  let n := length tm in
  ((n < 2)%nat →
     _load_pipeline_multi_gpu tm mp ver load
     = Some ("single",
             FromPretrained mp cuda cpu "bfloat16" ver load (Some true))) ∧
  ((2 ≤ n)%nat →
     ∃ mula codec bm bc,
       _load_pipeline_multi_gpu tm mp ver load
       = Some ("multi",
               FromPretrained mp (cuda_index mula) (cuda_index codec)
                              "bfloat16" ver load None) ∧
       tm !! mula = Some bm ∧ tm !! codec = Some bc ∧
       ∀ k b, tm !! k = Some b → (bc ≤ b ≤ bm)%Z) ∧
  (∀ mp' ver' load',
     let decision r :=
       (λ x : string * from_pretrained_args,
          (x.1, device x.2, codec_device x.2, lazy_load x.2)) <$> r in
     decision (_load_pipeline_multi_gpu tm mp ver load)
     = decision (_load_pipeline_multi_gpu tm mp' ver' load')).
Proof.
  simpl. split; [|split].
  - intros Hn. unfold _load_pipeline_multi_gpu. by rewrite decide_True.
  - intros Hn. unfold _load_pipeline_multi_gpu. rewrite decide_False by lia.
    cbv zeta. rewrite gpu_memories_keys.
    destruct tm as [|b0 tm']; [simpl in Hn; lia|].
    set (tm := b0 :: tm') in *. change (length tm) with (S (length tm')).
    cbn [seq]. simpl.
    set (key := dict_get (gpu_memories tm)).
    destruct (max_key_from_spec key (seq 1 (length tm')) 0%nat)
      as (Hmin & Hm0 & Hmall).
    destruct (min_key_from_spec key (seq 1 (length tm')) 0%nat)
      as (Hcin & Hc0 & Hcall).
    set (mula := Py.max_key_from key 0%nat (seq 1 (length tm'))) in *.
    set (codec := Py.min_key_from key 0%nat (seq 1 (length tm'))) in *.
    assert (∀ x, (x = 0%nat ∨ x ∈ seq 1 (length tm')) ↔ (x < length tm)%nat)
      as Hrange.
    { intros x. rewrite elem_of_seq. subst tm. simpl. lia. }
    assert (mula < length tm)%nat as Hml by (by apply Hrange).
    assert (codec < length tm)%nat as Hcl by (by apply Hrange).
    destruct (lookup_lt_is_Some_2 _ _ Hml) as [bm Hbm].
    destruct (lookup_lt_is_Some_2 _ _ Hcl) as [bc Hbc].
    exists mula, codec, bm, bc. split; [done|]. split; [done|]. split; [done|].
    intros k b Hk. pose proof (lookup_lt_Some _ _ _ Hk) as Hkl.
    assert (key k <= key mula ∧ key codec <= key k)%Q as [H1 H2].
    { apply Hrange in Hkl as [->|Hin]; [done|]. split; [by apply Hmall|by apply Hcall]. }
    subst key. rewrite !dict_get_gpu_memories in H1, H2 by done.
    rewrite (get_gpu_memory_le tm k mula b bm) in H1 by done.
    rewrite (get_gpu_memory_le tm codec k bc b) in H2 by done. lia.
  - intros mp' ver' load'. unfold _load_pipeline_multi_gpu.
    destruct (decide _); [done|]. cbv zeta.
    destruct (Py.max_key _ _); [|done]. simpl.
    by destruct (Py.min_key _ _).
Qed.

End placement_facts.

(** ** The conditioning window *)

Section conditioning_facts.
Import Conditioning.
Local Open Scope float_scope.

(** Order facts of binary64 comparison, from its specification. *)
Lemma SFcompare_refl_not_lt (a : spec_float) : SFcompare a a ≠ Some Lt.
Proof.
  destruct a as [s|s| |s m e]; simpl; try destruct s; try congruence;
    rewrite Z.compare_refl, Pos.compare_cont_refl; simpl; congruence.
Qed.

Lemma SFcompare_antisym (a b : spec_float) :
  SFcompare b a = option_map CompOpp (SFcompare a b).
Proof.
  destruct a as [s|s| |s m e], b as [s'|s'| |s' m' e']; simpl;
    try destruct s; try destruct s'; simpl; try reflexivity.
  all: assert (Pos.compare_cont Eq m' m = CompOpp (Pos.compare_cont Eq m m'))
      as -> by (by rewrite Pos.compare_cont_antisym);
    rewrite (Z.compare_antisym e e');
    destruct (e ?= e')%Z; simpl; try reflexivity;
    try (destruct (Pos.compare_cont Eq m m'); reflexivity).
Qed.

Lemma ltb_irrefl (a : float) : (a <? a) = false.
Proof.
  rewrite ltb_spec. unfold SFltb.
  pose proof (SFcompare_refl_not_lt (Prim2SF a)).
  destruct (SFcompare _ _) as [[]|]; congruence.
Qed.

Lemma ltb_leb (a b : float) : (a <? b) = true → (a <=? b) = true.
Proof.
  rewrite ltb_spec, leb_spec. unfold SFltb, SFleb.
  destruct (SFcompare _ _) as [[]|]; congruence.
Qed.

Lemma leb_not_ltb (a b : float) : (a <=? b) = true → (b <? a) = false.
Proof.
  rewrite ltb_spec, leb_spec. unfold SFltb, SFleb.
  rewrite (SFcompare_antisym (Prim2SF a) (Prim2SF b)).
  destruct (SFcompare _ _) as [[]|]; simpl; congruence.
Qed.

Lemma not_ltb_leb (a b : float) :
  (a <=? a) = true → (b <=? b) = true → (a <? b) = false → (b <=? a) = true.
Proof.
  rewrite ltb_spec, !leb_spec. unfold SFltb, SFleb.
  rewrite (SFcompare_antisym (Prim2SF a) (Prim2SF b)).
  destruct (Prim2SF a) as [s|s| |s m e], (Prim2SF b) as [s'|s'| |s' m' e'];
    simpl; try congruence; try destruct s; try destruct s'; simpl;
    try congruence.
  all: destruct (e ?= e')%Z; simpl; try congruence;
    destruct (Pos.compare_cont Eq m m'); simpl; congruence.
Qed.

Lemma leb_refl_of_leb (a b : float) :
  (a <=? b) = true → (a <=? a) = true ∧ (b <=? b) = true.
Proof.
  rewrite !leb_spec. unfold SFleb.
  destruct (Prim2SF a) as [s|s| |s m e], (Prim2SF b) as [s'|s'| |s' m' e'];
    simpl; try congruence; try destruct s; try destruct s'; simpl;
    try (split; congruence).
  all: rewrite ?Z.compare_refl, ?Pos.compare_cont_refl; simpl; split; congruence.
Qed.

(** C8.  The conditioning window is the influence percentage of the fixed
    10-second window, clamped to the clip's duration and then to a floor of
    one second.  For every influence [p] and duration [d], with
    [x = (p / 100.0) * 10.0]: the result is [max(1.0, min(x, d))]; it is at
    least 1.0; it is 1.0, [d] or [x]; it exceeds neither [d] nor [x] unless
    it is the floor; it is [x] when [1 < x <= d] and [d] when [1 < d < x];
    for a clip of at least one second it lies in [[1, d]].  An influence of
    50 on a 20-second clip gives 5 seconds. *)
Theorem conditioning_window (p d : float) :
  let x := p / 100.0 * 10.0 in
  let r := muq_segment_sec p d in
  r = Py.max 1.0 (Py.min x d) ∧
  (1.0 <=? r) = true ∧
  (r = 1.0 ∨ r = d ∨ r = x) ∧
  ((d <? r) = true → r = 1.0) ∧
  ((x <? r) = true → r = 1.0) ∧
  ((1.0 <? x) = true → (x <=? d) = true → r = x) ∧
  ((1.0 <? d) = true → (d <? x) = true → r = d) ∧
  ((1.0 <=? d) = true → (r <=? d) = true) ∧
  muq_segment_sec 50 20 = 5 ∧
  resolve_ref_audio (Some "ref") (Some "backend/ref_audio/ref.wav")
    (Some (882000, 44100)%Z) 50
  = (Some "backend/ref_audio/ref.wav", 5).
Proof.
  cbv zeta. unfold muq_segment_sec, Py.max, Py.min.
  set (x := p / 100.0 * 10.0).
  split; [done|].
  destruct (d <? x) eqn:Hdx.
  - destruct (1.0 <? d) eqn:H1d.
    + split; [by apply ltb_leb|]. split; [by right; left|].
      split; [by rewrite ltb_irrefl|]. split; [|split; [|split; [done|split]]].
      * intros H. apply ltb_leb, leb_not_ltb in H. congruence.
      * intros _ H. apply leb_not_ltb in H. congruence.
      * intros H. by apply leb_refl_of_leb in H as [_ ?].
      * split; reflexivity.
    + split; [done|]. split; [by left|]. split; [done|]. split; [done|].
      split; [|split; [done|split; [done|split; reflexivity]]].
      intros _ H. apply leb_not_ltb in H. congruence.
  - destruct (1.0 <? x) eqn:H1x.
    + split; [by apply ltb_leb|]. split; [by right; right|].
      split; [congruence|]. split; [by rewrite ltb_irrefl|].
      split; [done|]. split; [done|]. split; [|split; reflexivity].
      intros H1d. apply not_ltb_leb; [|by apply ltb_leb, leb_refl_of_leb in H1x as [_ ?]|done].
      by apply leb_refl_of_leb in H1d as [_ ?].
    + split; [done|]. split; [by left|]. split; [done|]. split; [done|].
      split; [done|]. split; [done|]. split; [done|split; reflexivity].
Qed.

End conditioning_facts.

(** ** The event bus *)

Section bus_steps.
Import EventManager.

Lemma list_remove_sublist_of `{EqDecision A} (x : A) (l : list A) :
  Py.list_remove x l `sublist_of` l.
Proof.
  induction l as [|y l IH]; simpl; [done|].
  destruct (decide (y = x)); [by apply sublist_cons|by apply sublist_skip].
Qed.

Lemma put_nowait_unbounded (Q : Queue) (item : string) :
  maxsize Q = 0 → put_nowait Q item = Some (MkQueue 0 (items Q ++ [item])).
Proof. intros H. unfold put_nowait, full. rewrite H. by rewrite decide_True. Qed.

Lemma deposit_cases (msg : string) (Q : Queue) :
  deposit msg Q
  = if full Q then Q else MkQueue (maxsize Q) (items Q ++ [msg]).
Proof. unfold deposit, put_nowait. by destruct (full Q). Qed.

Lemma offer_length (msg : string) (qs : list Queue) (q : nat) :
  length (offer msg qs q) = length qs.
Proof.
  unfold offer. destruct (qs !! q) as [Q|]; [|done].
  destruct (put_nowait Q msg); [|done]. by rewrite length_insert.
Qed.

Lemma offer_lookup (msg : string) (qs : list Queue) (q q' : nat) :
  offer msg qs q !! q'
  = if decide (q = q') then deposit msg <$> qs !! q' else qs !! q'.
Proof.
  unfold offer, deposit. destruct (decide (q = q')) as [->|Hne].
  - destruct (qs !! q') as [Q|] eqn:HQ; simpl; [|by rewrite HQ].
    destruct (put_nowait Q msg) as [Q'|]; simpl; [|done].
    apply list_lookup_insert_eq. by eapply lookup_lt_Some.
  - destruct (qs !! q) as [Q|]; [|done].
    destruct (put_nowait Q msg); [|done]. by rewrite list_lookup_insert_ne.
Qed.

Lemma foldl_offer_length (msg : string) (subs : list nat) (qs : list Queue) :
  length (foldl (offer msg) qs subs) = length qs.
Proof.
  revert qs. induction subs as [|q subs IH]; intros qs; simpl; [done|].
  by rewrite IH, offer_length.
Qed.

Lemma foldl_offer_lookup (msg : string) (subs : list nat) (qs : list Queue)
    (q' : nat) :
  NoDup subs →
  foldl (offer msg) qs subs !! q'
  = if decide (q' ∈ subs) then deposit msg <$> qs !! q' else qs !! q'.
Proof.
  intros Hnd. revert qs. induction Hnd as [|q subs Hq Hnd IH]; intros qs.
  - simpl. destruct (decide (q' ∈ [])) as [Hin|]; [|done].
    by apply elem_of_nil in Hin.
  - cbn [foldl]. rewrite IH, offer_lookup.
    destruct (decide (q' ∈ q :: subs)) as [Hin|Hout];
      destruct (decide (q' ∈ subs)) as [Hin'|Hout'];
      destruct (decide (q = q')) as [->|Hne]; try done.
    + by apply elem_of_cons in Hin as [?|?].
    + destruct Hout. by right.
    + destruct Hout. by left.
Qed.

Lemma foldl_offer_unbounded (msg : string) (subs : list nat) (qs : list Queue) :
  Forall (λ Q, maxsize Q = 0) qs →
  Forall (λ Q, maxsize Q = 0) (foldl (offer msg) qs subs).
Proof.
  revert qs. induction subs as [|q subs IH]; intros qs H; simpl; [done|].
  apply IH. unfold offer. destruct (qs !! q) as [Q|] eqn:HQ; [|done].
  unfold put_nowait. destruct (full Q); [done|].
  apply Forall_insert; [done|]. simpl.
  by apply (Forall_lookup_1 _ _ _ _ H HQ).
Qed.

Lemma sound_new : sound new.
Proof. constructor; simpl; [constructor|by intros q ?%elem_of_nil|done]. Qed.

Lemma sound_broadcast (msg : string) (em : t) :
  sound em → sound (broadcast msg em).
Proof.
  intros [H1 H2 H3]. constructor; simpl; [done| |by apply foldl_offer_unbounded].
  intros q Hq. rewrite foldl_offer_length. by apply H2.
Qed.

Lemma sound_subscribe (em : t) : sound em → sound (subscribe em).2.
Proof.
  intros [H1 H2 H3]. constructor; simpl.
  - apply NoDup_app. split; [done|]. split; [|apply NoDup_singleton].
    intros q Hq ->%list_elem_of_singleton. apply H2 in Hq. lia.
  - intros q [Hq| ->%list_elem_of_singleton]%elem_of_app;
      rewrite length_app; simpl; [apply H2 in Hq|]; lia.
  - apply Forall_app. split; [done|]. by constructor.
Qed.

Lemma sound_unsubscribe (q : nat) (em : t) :
  sound em → sound (unsubscribe q em).
Proof.
  intros [H1 H2 H3]. unfold unsubscribe. case_bool_decide; [|done].
  constructor; simpl; [| |done].
  - eapply sublist_NoDup; [done|apply list_remove_sublist_of].
  - intros q' Hq'. apply H2.
    eapply elem_of_sublist; [done|apply list_remove_sublist_of].
Qed.

Lemma sound_consume (q : nat) (Q : Queue) (x : string) (Q' : Queue) (em : t) :
  sound em → queues em !! q = Some Q → get_nowait Q = Some (x, Q') →
  sound (Mk (subscribers em) (<[q := Q']> (queues em))).
Proof.
  intros [H1 H2 H3] HQ Hget. constructor; simpl; [done| |].
  - intros q' Hq'. rewrite length_insert. by apply H2.
  - apply Forall_insert; [done|]. unfold get_nowait in Hget.
    destruct (items Q); simplify_eq/=.
    by apply (Forall_lookup_1 _ _ _ _ H3 HQ).
Qed.

End bus_steps.

(** ** The scheduler: helper facts *)

Section service_facts.
Variable json_dumps : payload → string.
Import MusicService.

(** *** What each block changes *)

Lemma deliver_app (evs evs' : list (string * payload)) (em : EventManager.t) :
  deliver json_dumps (evs ++ evs') em
  = deliver json_dumps evs' (deliver json_dumps evs em).
Proof. apply foldl_app. Qed.

Lemma wrote_nothing (w : world) : wrote json_dumps w (db w) [] = w.
Proof. unfold wrote. simpl. rewrite app_nil_r. by destruct w. Qed.

Lemma wrote_wrote (w : world) d evs d' evs' :
  wrote json_dumps (wrote json_dumps w d evs) d' evs'
  = wrote json_dumps w d' (evs ++ evs').
Proof. unfold wrote. simpl. by rewrite deliver_app, app_assoc. Qed.

Lemma publish_wrote (ty : string) (data : payload) (w : world) :
  publish json_dumps ty data w = wrote json_dumps w (db w) [(ty, data)].
Proof. done. Qed.

Lemma broadcast_from_wrote (i : nat) (rest : list string) (n : nat) (w : world) :
  broadcast_from json_dumps i rest n w
  = wrote json_dumps w (db w) (queue_events_from i rest n).
Proof.
  revert i w. induction rest as [|jid r IH]; intros i w; simpl.
  - by rewrite wrote_nothing.
  - by rewrite IH, publish_wrote, wrote_wrote.
Qed.

Lemma broadcast_wrote (w : world) :
  _broadcast_queue_update json_dumps w
  = wrote json_dumps w (db w) (queue_events (job_queue w)).
Proof. apply broadcast_from_wrote. Qed.

Lemma queue_events_not_terminal (i : nat) (rest : list string) (n : nat) :
  Forall (λ e, terminal_event e = false) (queue_events_from i rest n).
Proof. revert i. induction rest; intros i; simpl; by constructor. Qed.

Lemma dequeue_events_not_terminal (job : string) (q : list string) :
  Forall (λ e, terminal_event e = false) (dequeue_events job q).
Proof.
  unfold dequeue_events. destruct (bool_decide _); [|constructor].
  apply queue_events_not_terminal.
Qed.

Lemma dequeue_wrote (job : string) (w : world) :
  (if bool_decide (job ∈ job_queue w)
   then _broadcast_queue_update json_dumps
          (set_job_queue (Py.list_remove job (job_queue w)) w)
   else w)
  = set_job_queue (dequeued job (job_queue w))
      (wrote json_dumps w (db w) (dequeue_events job (job_queue w))).
Proof.
  unfold dequeued, dequeue_events. destruct (bool_decide _).
  - by rewrite broadcast_wrote.
  - rewrite wrote_nothing. by destruct w.
Qed.

Lemma failed_shape (job : string) (e : Py.exn) (env : handler_env) (w : world) :
  ∃ evs d r,
    failed json_dumps job e env w = (r, wrote json_dumps w d evs)
    ∧ (∀ id, id ≠ job → d !! id = db w !! id)
    ∧ (failed_fetch_fault env = None → failed_commit_fault env = None →
       ∀ j, d !! job = Some j → status j = FAILED)
    ∧ (db w !! job = None →
       d = db w ∧ evs = [] ∧
       (failed_fetch_fault env = None → r = Py.Raise NoResultFound)).
Proof.
  unfold failed, one, commit.
  destruct (failed_fetch_fault env) as [e2|].
  { exists [], (db w), (Py.Raise e2). by rewrite wrote_nothing. }
  destruct (db w !! job) as [j|] eqn:Hj.
  2: { exists [], (db w), (Py.Raise NoResultFound).
       rewrite wrote_nothing. by rewrite Hj. }
  destruct (failed_commit_fault env) as [e4|].
  { exists [], (db w), (Py.Raise e4). by rewrite wrote_nothing. }
  exists [("job_update",
           [("job_id", JStr job); ("status", JStr "failed");
            ("error", JStr (Py.exn_str e))])],
         (<[job := MkJob FAILED (title j) (seed j) (audio_path j)
                         (Some (Py.exn_str e))]> (db w)), (Py.Ok ()).
  split; [reflexivity|].
  split; [intros id Hid; by rewrite lookup_insert_ne|].
  split; [|done]. intros _ _ j'. rewrite lookup_insert_eq. by intros [= <-].
Qed.

Lemma ending_wrote (t : nat) (job : string) (r : Py.res unit) (w : world)
    (d : gmap string Job) (evs : list (string * payload)) :
  ending t job (r, wrote json_dumps w d evs)
  = World (job_queue w) (delete job (active_jobs w)) (release (gpu_lock w))
          (deliver json_dumps evs (bus w)) (events w) d
          (alter (to_pc (Finished r)) t (tasks w))
          (published w ++ evs) (arrivals w) (acquisitions w).
Proof. done. Qed.

Lemma admission_shape (t : nat) (job : string) (sd : option Z)
    (env : admission_env) (w : world) :
  ∃ evs,
    (admission json_dumps t job sd env w
     = World (dequeued job (job_queue w)) (active_jobs w)
             (release (gpu_lock w)) (deliver json_dumps evs (bus w))
             (events w) (db w)
             (alter (to_pc (Finished (Py.Ok ()))) t (tasks w))
             (published w ++ evs) (arrivals w) (acquisitions w))
    ∨ (∃ j, db w !! job = Some j ∧
         admission json_dumps t job sd env w
         = World (dequeued job (job_queue w))
                 (<[job := length (events w)]> (active_jobs w))
                 (gpu_lock w) (deliver json_dumps evs (bus w))
                 (events w ++ [false])
                 (<[job := MkJob PROCESSING (title j) (seed j)
                                 (audio_path j) (error_msg j)]> (db w))
                 (alter (to_pc (Generating (length (events w))
                                  (default "Untitled Track" (title_reply env))
                                  (default (drawn_seed env) sd))) t (tasks w))
                 (published w ++ evs) (arrivals w) (acquisitions w))
    ∨ (∃ d r,
         admission json_dumps t job sd env w
         = World (dequeued job (job_queue w))
                 (delete job (<[job := length (events w)]> (active_jobs w)))
                 (release (gpu_lock w)) (deliver json_dumps evs (bus w))
                 (events w ++ [false]) d
                 (alter (to_pc (Finished r)) t (tasks w))
                 (published w ++ evs) (arrivals w) (acquisitions w)
         ∧ (∀ id, id ≠ job → d !! id = db w !! id)
         ∧ (persists (setup_handler env) →
            ∀ j, d !! job = Some j → status j ≠ PROCESSING)).
Proof.
  unfold admission. rewrite dequeue_wrote.
  set (evs := dequeue_events job (job_queue w)). clearbody evs.
  simpl. unfold one_or_none, commit.
  destruct (fetch_fault env) as [e1|]; [exists evs; by left|].
  destruct (db w !! job) as [j|] eqn:Hj; [|exists evs; by left].
  destruct (commit_fault env) as [e2|]; [exists evs; by left|].
  unfold register. simpl.
  destruct (setup_fault env) as [e3|].
  - match goal with
    | |- context [failed json_dumps job e3 ?h ?w1] =>
        destruct (failed_shape job e3 h w1)
          as (evs2 & d & r & -> & Hne & Hst & _)
    end.
    exists (evs ++ evs2). right. right. exists d, r.
    split; [|split].
    + rewrite ending_wrote. simpl. by rewrite deliver_app, <- app_assoc.
    + intros id Hid. rewrite (Hne id Hid). simpl. by rewrite lookup_insert_ne.
    + intros [Hp1 Hp2] j' Hj'. by rewrite (Hst Hp1 Hp2 j' Hj').
  - exists (evs ++ [("job_update",
                     [("job_id", JStr job); ("status", JStr "processing")]);
                    ("job_progress",
                     [("job_id", JStr job); ("progress", JInt 0);
                      ("msg", JStr "Starting generation pipeline...")])]).
    right. left. exists j. split; [done|].
    unfold set_pc, publish; simpl.
    rewrite deliver_app, <- !app_assoc. reflexivity.
Qed.

Lemma completed_shape (job ti : string) (s : Z) (env : finish_env) (w : world) :
  ∃ evs d r,
    completed json_dumps job ti s env w = (r, wrote json_dumps w d evs)
    ∧ (∀ id, id ≠ job → d !! id = db w !! id)
    ∧ (d = db w ∧ evs = [] ∧ (r = Py.Ok () → db w !! job = None)
       ∨ r = Py.Ok () ∧ ∃ j, d !! job = Some j ∧ status j = COMPLETED)
    ∧ (db w !! job = None →
       d = db w ∧ evs = [] ∧ (done_fetch_fault env = None → r = Py.Ok ())).
Proof.
  unfold completed, one_or_none, commit.
  destruct (done_fetch_fault env) as [e1|].
  { exists [], (db w), (Py.Raise e1). rewrite wrote_nothing.
    split; [done|]. split; [done|]. split; [by left|done]. }
  destruct (db w !! job) as [j|] eqn:Hj.
  2: { exists [], (db w), (Py.Ok ()). rewrite wrote_nothing.
       split; [done|]. split; [done|]. split; [by left|done]. }
  destruct (done_commit_fault env) as [e3|].
  { exists [], (db w), (Py.Raise e3). rewrite wrote_nothing.
    split; [done|]. split; [done|]. split; [by left|done]. }
  exists [("job_update",
           [("job_id", JStr job); ("status", JStr "completed");
            ("audio_path", JStr ("/audio/" +:+ "song_" +:+ job +:+ ".mp3"));
            ("title", JStr ti)]);
          ("job_progress",
           [("job_id", JStr job); ("progress", JInt 100);
            ("msg", JStr "Done!")])],
         (<[job := MkJob COMPLETED (Some ti) (Some s)
                         (Some ("/audio/" +:+ "song_" +:+ job +:+ ".mp3"))
                         (error_msg j)]> (db w)), (Py.Ok ()).
  split; [f_equal; unfold publish, wrote; simpl; by rewrite <- app_assoc|].
  split; [intros id Hid; by rewrite lookup_insert_ne|].
  split; [|done]. right. split; [done|]. eexists. by rewrite lookup_insert_eq.
Qed.

Lemma finish_shape (t : nat) (job ti : string) (s : Z) (env : finish_env)
    (w : world) :
  ∃ evs d r,
    finish json_dumps t job ti s env w
    = World (job_queue w) (delete job (active_jobs w))
            (release (gpu_lock w)) (deliver json_dumps evs (bus w))
            (events w) d
            (alter (to_pc (Finished r)) t (tasks w))
            (published w ++ evs) (arrivals w) (acquisitions w)
    ∧ (∀ id, id ≠ job → d !! id = db w !! id)
    ∧ (persists (handler env) →
       ∀ j, d !! job = Some j → status j ≠ PROCESSING)
    ∧ (db w !! job = None → d = db w ∧ evs = []).
Proof.
  unfold finish.
  destruct (engine env) as [[]|e].
  - destruct (completed_shape job ti s env w)
      as (evs1 & d1 & r1 & Hc & Hne1 & Hst1 & Hno1).
    rewrite Hc. destruct r1 as [[]|e1].
    + exists evs1, d1, (Py.Ok ()). split; [done|]. split; [done|].
      split; [|by intros (? & ? & _)%Hno1]. intros _ j Hj.
      destruct Hst1 as [(-> & _ & Hab)|(_ & j' & Hj' & HC)]; [|congruence].
      rewrite Hab in Hj; done.
    + destruct Hst1 as [(-> & -> & _)|(? & _)]; [|done].
      rewrite wrote_nothing.
      destruct (failed_shape job e1 (handler env) w)
        as (evs2 & d2 & r2 & Hf2 & Hne2 & Hst2 & Hno2).
      rewrite Hf2. exists evs2, d2, r2. split; [done|]. split; [done|].
      split; [|by intros (? & ? & _)%Hno2].
      intros [H1 H2] j Hj. by rewrite (Hst2 H1 H2 j Hj).
  - destruct (failed_shape job e (handler env) w)
      as (evs & d & r & Hf & Hne & Hst & Hno).
    rewrite Hf. exists evs, d, r. split; [done|]. split; [done|].
    split; [|by intros (? & ? & _)%Hno].
    intros [H1 H2] j Hj. by rewrite (Hst H1 H2 j Hj).
Qed.

(** *** Coroutine tables *)

Lemma generating_at_finished (ts : list task) (t : nat) (r : Py.res unit) (t' : nat) :
  generating_at (alter (to_pc (Finished r)) t ts) t' ↔
  t' ≠ t ∧ generating_at ts t'.
Proof.
  unfold generating_at. rewrite list_lookup_alter.
  destruct (decide (t = t')) as [->|Hne].
  - split; [|by intros [? _]].
    intros (tk & Htk & Hg). destruct (ts !! t'); simplify_eq/=.
  - split; [intros H; split; [congruence|done]|by intros [_ H]].
Qed.

Lemma generating_at_started (ts : list task) (t ev : nat) (ti : string) (s : Z)
    (t' : nat) :
  generating_at (alter (to_pc (Generating ev ti s)) t ts) t' ↔
  (t' = t ∧ is_Some (ts !! t)) ∨ (t' ≠ t ∧ generating_at ts t').
Proof.
  unfold generating_at. rewrite list_lookup_alter.
  destruct (decide (t = t')) as [->|Hne].
  - split.
    + intros (tk & Htk & Hg). left. split; [done|].
      destruct (ts !! t'); [by eexists|done].
    + intros [[_ [tk Htk]]|[? _]]; [|done].
      rewrite Htk. by eexists.
  - split; [intros H; right; split; [congruence|done]|].
    intros [[-> _]|[_ H]]; done.
Qed.

Lemma generating_at_snoc (ts : list task) (tk : task) (t' : nat) :
  is_generating (task_pc tk) = false →
  generating_at (ts ++ [tk]) t' ↔ generating_at ts t'.
Proof.
  intros Hw. unfold generating_at. split.
  - intros (tk' & Htk & Hg).
    apply lookup_app_Some in Htk as [Htk|[_ Htk]]; [by eexists|].
    apply list_lookup_singleton_Some in Htk as [_ <-]. congruence.
  - intros (tk' & Htk & Hg). exists tk'. split; [|done].
    by apply lookup_app_l_Some.
Qed.

Lemma omap_ext_in {A B} (f g : A → option B) (l : list A) :
  (∀ x, x ∈ l → f x = g x) → omap f l = omap g l.
Proof.
  induction l as [|x l IH]; intros H; [done|].
  cbn. rewrite (H x) by by left. rewrite IH; [done|].
  intros y Hy. apply H. by right.
Qed.

Lemma jobs_of_alter (ts : list task) (p : pc) (t : nat) (ws : list (nat * bool)) :
  jobs_of (alter (to_pc p) t ts) ws = jobs_of ts ws.
Proof.
  apply omap_ext_in. intros [x d] _. simpl.
  rewrite list_lookup_alter.
  destruct (decide (t = x)) as [->|]; [|done].
  by destruct (ts !! x).
Qed.

Lemma jobs_of_snoc (ts : list task) (tk : task) (ws : list (nat * bool)) :
  (∀ x, x ∈ ws.*1 → (x < length ts)%nat) →
  jobs_of (ts ++ [tk]) ws = jobs_of ts ws.
Proof.
  intros Hb. apply omap_ext_in. intros [x d] Hx. simpl.
  rewrite lookup_app_l; [done|]. apply Hb.
  apply list_elem_of_fmap. by exists (x, d).
Qed.

Lemma jobs_of_wake (ts : list task) (ws : list (nat * bool)) :
  jobs_of ts (_wake_up_first ws) = jobs_of ts ws.
Proof. by destruct ws as [|[x d] ws]. Qed.

Lemma wake_fst (ws : list (nat * bool)) : (_wake_up_first ws).*1 = ws.*1.
Proof. by destruct ws as [|[x d] ws]. Qed.

Lemma wake_lookup (ws : list (nat * bool)) (i t : nat) :
  (∀ j x, ws !! j = Some (x, true) → False) →
  _wake_up_first ws !! i = Some (t, true) → i = 0%nat.
Proof.
  intros Hno. destruct ws as [|[x d] ws]; [done|]. simpl.
  destruct i as [|i]; [done|]. simpl. intros H. by destruct (Hno (S i) t).
Qed.

(** *** The displayed queue *)

Lemma dequeued_sublist (x : string) (q : list string) :
  dequeued x q `sublist_of` q.
Proof.
  unfold dequeued. destruct (bool_decide _); [apply list_remove_sublist_of|done].
Qed.

Lemma list_remove_absent (x : string) (q : list string) :
  x ∉ q → Py.list_remove x q = q.
Proof.
  induction q as [|y q IH]; simpl; [done|]. intros Hx.
  apply not_elem_of_cons in Hx as [Hne Hx].
  destruct (decide (y = x)); [congruence|]. by rewrite IH.
Qed.

Lemma dequeued_remove (x : string) (q : list string) :
  dequeued x q = Py.list_remove x q.
Proof.
  unfold dequeued. destruct (bool_decide (x ∈ q)) eqn:Hx; [done|].
  apply bool_decide_eq_false in Hx. by rewrite list_remove_absent.
Qed.

Lemma dequeued_head (x : string) (q k : list string) :
  q `sublist_of` x :: k → dequeued x q `sublist_of` k.
Proof.
  rewrite dequeued_remove. intros H.
  apply sublist_cons_r in H as [H|(q' & -> & H)].
  - etrans; [apply list_remove_sublist_of|done].
  - simpl. by rewrite decide_True.
Qed.

Lemma list_remove_head `{EqDecision A} (x : A) (l : list A) :
  Py.list_remove x (x :: l) = l.
Proof. simpl. by rewrite decide_True. Qed.

(** *** The invariant is kept *)

Lemma inv_initial (db0 : gmap string Job) : inv (initial db0).
Proof.
  constructor; simpl; try done.
  - intros _. split; [|done]. by intros t (tk & Htk & _).
  - by intros t1 t2 (tk & Htk & _).
Qed.

(** A step that leaves the lock, the coroutines, the registry and the two
    histories alone, and at most shortens the displayed queue. *)
Lemma inv_frame (w w' : world) :
  gpu_lock w' = gpu_lock w → tasks w' = tasks w →
  active_jobs w' = active_jobs w → arrivals w' = arrivals w →
  acquisitions w' = acquisitions w →
  job_queue w' `sublist_of` job_queue w →
  inv w → inv w'.
Proof.
  intros Hl Ht Ha Har Hac Hq [I1 I2 I3 I4 I5 I6 I7].
  constructor; unfold in_flight, waiting_jobs in *;
    rewrite ?Hl, ?Ht, ?Ha, ?Har, ?Hac; try done.
  by etrans.
Qed.

Lemma inv_admission (t : nat) (job : string) (sd : option Z)
    (env : admission_env) (w0 : world) (r : list (nat * bool)) :
  gpu_lock w0 = MkLock true r →
  (∀ i x, r !! i = Some (x, true) → False) →
  (∀ t', ¬ in_flight w0 t') →
  active_jobs w0 = ∅ →
  tasks w0 !! t = Some (Task job sd Waiting) →
  arrivals w0 = acquisitions w0 ++ r.*1 →
  arrivals w0 = seq 0 (length (tasks w0)) →
  job_queue w0 `sublist_of` job :: jobs_of (tasks w0) r →
  inv (admission json_dumps t job sd env w0).
Proof.
  intros Hl Hr Hnf Ha Ht Hfifo Harr Hdisp.
  assert (∀ aj b ev d res p,
    aj = ∅ →
    inv (World (dequeued job (job_queue w0)) aj (release (gpu_lock w0)) b ev d
           (alter (to_pc (Finished res)) t (tasks w0)) p (arrivals w0)
           (acquisitions w0))) as Hended.
  { intros aj b ev d res p ->. rewrite Hl.
    constructor; unfold in_flight, waiting_jobs; simpl.
    - intros _. split; [|done]. intros t'.
      rewrite generating_at_finished. intros [_ H]. by apply (Hnf t').
    - intros t1 t2 H1. apply generating_at_finished in H1 as [_ H1].
      by destruct (Hnf t1).
    - intros id ev'. by rewrite lookup_empty.
    - intros i x Hx. split; [|done]. eapply wake_lookup; [|done]. exact Hr.
    - by rewrite wake_fst.
    - by rewrite length_alter.
    - rewrite jobs_of_wake, jobs_of_alter. by apply dequeued_head. }
  destruct (admission_shape t job sd env w0)
    as (evs & [-> | [(j & Hj & ->) | (d & res & -> & _)]]).
  - by apply Hended.
  - rewrite Hl. constructor; unfold in_flight, waiting_jobs; simpl.
    + done.
    + intros t1 t2. rewrite !generating_at_started.
      intros [[-> _]|[_ H1]] [[-> _]|[_ H2]]; try done;
        by destruct (Hnf _ ltac:(eassumption)).
    + intros id ev. rewrite Ha, lookup_insert.
      case_decide; [|by rewrite lookup_empty]. intros [= <-]. subst id.
      exists t, sd. eexists _, _. by rewrite list_lookup_alter_eq, Ht.
    + intros i x Hx. by destruct (Hr i x).
    + done.
    + by rewrite length_alter.
    + rewrite jobs_of_alter. by apply dequeued_head.
  - apply Hended. rewrite Ha. by rewrite delete_insert_eq by apply lookup_empty.
Qed.

Lemma generate_task_shape (job : string) (sd : option Z) (env : admission_env)
    (w : world) :
  ∃ evs,
    generate_task json_dumps job sd env w
    = let t := length (tasks w) in
      let w2 :=
        World (job_queue w ++ [job]) (active_jobs w) (gpu_lock w)
              (deliver json_dumps evs (bus w))
              (events w) (db w) (tasks w ++ [Task job sd Waiting])
              (published w ++ evs) (arrivals w ++ [t]) (acquisitions w) in
      match gpu_lock w with
      | MkLock false [] => admission json_dumps t job sd env (acquired t w2)
      | MkLock l ws => set_gpu_lock (MkLock l (ws ++ [(t, false)])) w2
      end.
Proof.
  unfold generate_task. cbv zeta.
  rewrite broadcast_wrote, publish_wrote, wrote_wrote.
  eexists. reflexivity.
Qed.

Lemma waiters_bound (w : world) (x : nat) :
  inv w → x ∈ (_waiters (gpu_lock w)).*1 → (x < length (tasks w))%nat.
Proof.
  intros I Hx.
  assert (x ∈ arrivals w) as Hin.
  { rewrite (inv_fifo _ I). apply elem_of_app. by right. }
  rewrite (inv_arrivals _ I) in Hin. apply elem_of_seq in Hin. lia.
Qed.

Lemma inv_generate_task (job : string) (sd : option Z) (env : admission_env)
    (w : world) :
  inv w → inv (generate_task json_dumps job sd env w).
Proof.
  intros I.
  destruct (generate_task_shape job sd env w) as (evs & ->). cbv zeta.
  set (b := deliver json_dumps evs (bus w)). clearbody b.
  pose proof (λ x, waiters_bound w x I) as Hbound.
  destruct I as [I1 I2 I3 I4 I5 I6 I7]. unfold waiting_jobs, in_flight in *.
  destruct (gpu_lock w) as [l ws] eqn:Hl. simpl in *.
  assert (inv (set_gpu_lock (MkLock l (ws ++ [(length (tasks w), false)]))
     (World (job_queue w ++ [job]) (active_jobs w) (MkLock l ws) b
        (events w) (db w) (tasks w ++ [Task job sd Waiting])
        (published w ++ evs) (arrivals w ++ [length (tasks w)])
        (acquisitions w)))) as Hslow.
  { constructor; unfold in_flight, waiting_jobs in *; simpl.
    - intros Hf. destruct (I1 Hf) as [Hnf Ha]. split; [|done].
      intros t'. rewrite generating_at_snoc by done. apply Hnf.
    - intros t1 t2. rewrite !generating_at_snoc by done. apply I2.
    - intros id ev Hid. destruct (I3 id ev Hid) as (t & sd' & ti & s & Ht).
      exists t, sd', ti, s. by apply lookup_app_l_Some.
    - intros i x Hx. apply lookup_app_Some in Hx as [Hx|[_ Hx]]; [by apply (I4 _ _ Hx)|].
      by apply list_lookup_singleton_Some in Hx as [_ ?].
    - rewrite fmap_app, I5. simpl. by rewrite app_assoc.
    - rewrite length_app. simpl. rewrite Nat.add_1_r, seq_S. by rewrite I6.
    - unfold jobs_of. rewrite omap_app. apply sublist_app.
      + fold (jobs_of (tasks w ++ [Task job sd Waiting]) ws).
        by rewrite jobs_of_snoc.
      + simpl. rewrite lookup_app_r by done. by rewrite Nat.sub_diag. }
  destruct l; [done|]. destruct ws as [|w1 ws]; [|done].
  destruct (I1 eq_refl) as [Hnf Ha].
  eapply inv_admission with (r := []); simpl; try done.
  - intros t'. unfold in_flight; simpl. rewrite generating_at_snoc by done.
    apply Hnf.
  - rewrite lookup_app_r by done. by rewrite Nat.sub_diag.
  - rewrite I5. simpl. by rewrite !app_nil_r.
  - rewrite length_app. simpl. rewrite Nat.add_1_r, seq_S. by rewrite I6.
  - apply sublist_nil_r in I7. rewrite I7. done.
Qed.

Lemma woken_is_head (w : world) (t : nat) :
  inv w → (t, true) ∈ _waiters (gpu_lock w) →
  ∃ r, gpu_lock w = MkLock false ((t, true) :: r) ∧
       ∀ i x, r !! i = Some (x, true) → False.
Proof.
  intros I Hin. apply list_elem_of_lookup in Hin as [i Hi].
  destruct (inv_woken _ I i t Hi) as [-> Hl].
  destruct (gpu_lock w) as [l ws] eqn:Hlock. simpl in *. subst l.
  destruct ws as [|x r]; simplify_eq/=. exists r. split; [done|].
  intros i x Hx. pose proof (inv_woken _ I (S i) x) as H.
  rewrite Hlock in H. simpl in H. by destruct (H Hx).
Qed.

Lemma inv_resume (t : nat) (env : admission_env) (w w' : world) :
  inv w → resume json_dumps t env w = Some w' → inv w'.
Proof.
  intros I. unfold resume.
  destruct (tasks w !! t) as [[job sd []]|] eqn:Ht; try done.
  case_bool_decide as Hin; [|done]. intros [= <-].
  destruct (woken_is_head w t I Hin) as (r & Hl & Hr).
  rewrite Hl. cbn [_waiters _locked]. rewrite list_remove_head.
  destruct (inv_idle _ I) as [Hnf Ha]; [by rewrite Hl|].
  eapply inv_admission with (r := r); simpl; try done.
  - rewrite (inv_fifo _ I), Hl. simpl. by rewrite <- app_assoc.
  - apply (inv_arrivals _ I).
  - pose proof (inv_display _ I) as Hd. unfold waiting_jobs in Hd.
    rewrite Hl in Hd. unfold jobs_of in Hd. simpl in Hd.
    by rewrite Ht in Hd.
Qed.

Lemma inv_finish (t : nat) (job ti : string) (sd : option Z) (ev : nat) (s : Z)
    (env : finish_env) (w : world) :
  inv w → tasks w !! t = Some (Task job sd (Generating ev ti s)) →
  inv (finish json_dumps t job ti s env w).
Proof.
  intros I Ht.
  assert (in_flight w t) as Hfl by (by eexists).
  assert (_locked (gpu_lock w) = true) as Hl.
  { destruct (_locked (gpu_lock w)) eqn:Hl; [done|].
    by destruct (proj1 (inv_idle _ I Hl) t). }
  destruct (finish_shape t job ti s env w) as (evs & d & r & -> & _).
  constructor; unfold in_flight, waiting_jobs; simpl.
  - intros _. split.
    + intros t'. rewrite generating_at_finished. intros [Hne H].
      by apply Hne, (inv_excl _ I).
    + apply map_empty. intros id.
      destruct (delete job (active_jobs w) !! id) as [ev'|] eqn:Hid; [|done].
      apply lookup_delete_Some in Hid as [Hne Hid].
      destruct (inv_token _ I id ev' Hid) as (t' & sd' & ti' & s' & Ht').
      assert (t' = t) as -> by (apply (inv_excl _ I); by eexists).
      congruence.
  - intros t1 t2 H1. apply generating_at_finished in H1 as [Hne H1].
    by destruct Hne; apply (inv_excl _ I).
  - intros id ev' Hid. apply lookup_delete_Some in Hid as [Hne Hid].
    destruct (inv_token _ I id ev' Hid) as (t' & sd' & ti' & s' & Ht').
    assert (t' = t) as -> by (apply (inv_excl _ I); by eexists).
    congruence.
  - intros i x Hx. split; [|done]. eapply wake_lookup; [|done].
    intros j y Hy. destruct (inv_woken _ I j y Hy). congruence.
  - rewrite wake_fst. apply (inv_fifo _ I).
  - rewrite length_alter. apply (inv_arrivals _ I).
  - rewrite jobs_of_wake, jobs_of_alter. apply (inv_display _ I).
Qed.

Lemma cancel_job_frame (job : string) (w : world) :
  let w' := (cancel_job json_dumps job w).2 in
  gpu_lock w' = gpu_lock w ∧ tasks w' = tasks w ∧
  active_jobs w' = active_jobs w ∧ arrivals w' = arrivals w ∧
  acquisitions w' = acquisitions w ∧ db w' = db w ∧
  job_queue w' = dequeued job (job_queue w).
Proof.
  unfold cancel_job, dequeued. case_bool_decide; simpl.
  - by rewrite broadcast_wrote.
  - by destruct (active_jobs w !! job).
Qed.

Lemma inv_step (a : action) (w w' : world) :
  inv w → step json_dumps a w = Some w' → inv w'.
Proof.
  intros I. destruct a; simpl.
  - intros [= <-]. by apply inv_generate_task.
  - by apply inv_resume.
  - destruct (tasks w !! t) as [[job sd []]|] eqn:Ht; try done.
    intros [= <-]. by eapply inv_finish.
  - destruct (tasks w !! t) as [[job sd []]|] eqn:Ht; try done.
    intros [= <-]. by apply (inv_frame w).
  - intros [= <-].
    destruct (cancel_job_frame job_id w) as (? & ? & ? & ? & ? & ? & Hq).
    apply (inv_frame w); try done. rewrite Hq. apply dequeued_sublist.
  - intros [= <-]. by apply (inv_frame w).
  - intros [= <-]. by apply (inv_frame w).
  - intros [= <-]. by apply (inv_frame w).
  - destruct (EventManager.queues (bus w) !! q) as [Q|]; [|done]. simpl.
    destruct (EventManager.get_nowait Q); [|done]. simpl.
    intros [= <-]. by apply (inv_frame w).
  - intros [= <-]. by apply (inv_frame w).
  - destruct (db w !! job_id); [done|]. intros [= <-]. by apply (inv_frame w).
  - intros [= <-]. by apply (inv_frame w).
Qed.

Lemma inv_run (acts : list action) (w w' : world) :
  inv w → run json_dumps acts w = Some w' → inv w'.
Proof.
  revert w. induction acts as [|a acts IH]; intros w I; simpl.
  - by intros [= <-].
  - destruct (step json_dumps a w) as [w1|] eqn:Hs; [|done]. simpl.
    apply IH. by eapply inv_step.
Qed.

Lemma inv_reachable (db0 : gmap string Job) (acts : list action) (w : world) :
  run json_dumps acts (initial db0) = Some w → inv w.
Proof. apply inv_run, inv_initial. Qed.

(** *** Rows that say PROCESSING *)






(** *** Without cancellations the displayed queue is the lock's queue *)





(** *** Steps that end a coroutine *)





(** ** Claims about the scheduler *)



(** *** The events of a rebroadcast *)

Lemma queue_events_from_lookup (i : nat) (rest : list string) (n k : nat)
    (jid : string) :
  rest !! k = Some jid →
  queue_events_from i rest n !! k
  = Some ("job_queue", queue_update (i + k) jid n).
Proof.
  revert i k. induction rest as [|x r IH]; intros i k; [done|].
  destruct k as [|k]; simpl.
  - intros [= ->]. by rewrite Nat.add_0_r.
  - intros Hk. rewrite (IH (S i) k Hk). do 3 f_equal. lia.
Qed.

Lemma queue_events_from_length (i : nat) (rest : list string) (n : nat) :
  length (queue_events_from i rest n) = length rest.
Proof. revert i. induction rest; intros i; simpl; [done|]. by rewrite IHrest. Qed.

(** The three branches of [cancel_job], as the code has them.  If the id is
    in the displayed queue, its first occurrence is removed, each remaining
    member is sent its new 1-based position and the new total, and [True] is
    returned; the code touches neither the lock nor the coroutines in this
    branch.  Otherwise, if the id is registered as active, its event is set
    and [True] is returned.  Otherwise [False] is returned and nothing
    changes. *)
Theorem cancel_job_protocol (job : string) (w : world) :
  (job ∈ job_queue w →
     let q' := Py.list_remove job (job_queue w) in
     let evs := queue_events q' in
     cancel_job json_dumps job w
     = (true, wrote json_dumps (set_job_queue q' w) (db w) evs) ∧
     length evs = length q' ∧
     (∀ i jid, q' !! i = Some jid →
        evs !! i = Some ("job_queue", queue_update i jid (length q'))) ∧
     tasks (cancel_job json_dumps job w).2 = tasks w ∧
     gpu_lock (cancel_job json_dumps job w).2 = gpu_lock w) ∧
  (job ∉ job_queue w →
     ∀ ev, active_jobs w !! job = Some ev →
       cancel_job json_dumps job w
       = (true, set_events (<[ev := true]> (events w)) w)) ∧
  (job ∉ job_queue w → active_jobs w !! job = None →
     cancel_job json_dumps job w = (false, w)).
Proof.
  unfold cancel_job. split; [|split].
  - intros Hin. rewrite bool_decide_eq_true_2 by done. cbv zeta.
    rewrite broadcast_wrote. split; [done|].
    split; [apply queue_events_from_length|]. split; [|done].
    intros i jid Hi. unfold queue_events.
    by rewrite (queue_events_from_lookup 0 _ _ i jid Hi).
  - intros Hout ev Hev. rewrite bool_decide_eq_false_2 by done. by rewrite Hev.
  - intros Hout Hno. rewrite bool_decide_eq_false_2 by done. by rewrite Hno.
Qed.

(** What holds of C4: a row that is gone when the coroutine gets the lock,
    or when the engine has returned, ends the coroutine by a plain return
    with no write to the store and no terminal event. *)
Lemma stale_row_at_admission (t : nat) (job : string) (sd : option Z)
    (env : admission_env) (w : world) :
  db w !! job = None → fetch_fault env = None →
  let w' := admission json_dumps t job sd env w in
  db w' = db w ∧
  published w' = published w ++ dequeue_events job (job_queue w) ∧
  Forall (λ e, terminal_event e = false) (dequeue_events job (job_queue w)) ∧
  tasks w' = alter (to_pc (Finished (Py.Ok ()))) t (tasks w).
Proof.
  intros Hno Hf. unfold admission. rewrite dequeue_wrote. simpl.
  unfold one_or_none. rewrite Hf, Hno. simpl.
  split; [done|]. split; [done|]. split; [|done].
  apply dequeue_events_not_terminal.
Qed.

Lemma stale_row_at_completion (t : nat) (job ti : string) (s : Z)
    (env : finish_env) (w : world) :
  db w !! job = None → engine env = Py.Ok () → done_fetch_fault env = None →
  let w' := finish json_dumps t job ti s env w in
  db w' = db w ∧ published w' = published w ∧
  tasks w' = alter (to_pc (Finished (Py.Ok ()))) t (tasks w).
Proof.
  intros Hno He Hf. unfold finish, completed, one_or_none.
  by rewrite He, Hf, Hno.
Qed.

(** Where C4 fails: when the engine raised and the row is gone, [.one()]
    raises [NoResultFound] inside the handler; nothing is written or
    published, but the exception leaves the coroutine. *)
Lemma stale_row_at_failure (t : nat) (job ti : string) (s : Z)
    (env : finish_env) (e : Py.exn) (w : world) :
  db w !! job = None → engine env = Py.Raise e →
  failed_fetch_fault (handler env) = None →
  let w' := finish json_dumps t job ti s env w in
  db w' = db w ∧ published w' = published w ∧
  tasks w' = alter (to_pc (Finished (Py.Raise NoResultFound))) t (tasks w).
Proof.
  intros Hno He Hf. unfold finish, failed, one.
  by rewrite He, Hf, Hno.
Qed.

(** C7 (as amended).  Registering a token never fails: a fresh, unset event
    is created and stored under the id, whatever was stored there before;
    the other ids keep their tokens, and a token previously stored under the
    id stays as it was, no longer reachable through the registry. *)
Theorem register_replaces (job : string) (w : world) :
  let ev := (register job w).1 in
  let w' := (register job w).2 in
  events w !! ev = None ∧
  events w' !! ev = Some false ∧
  active_jobs w' !! job = Some ev ∧
  (∀ id, id ≠ job → active_jobs w' !! id = active_jobs w !! id) ∧
  (∀ old, active_jobs w !! job = Some old → is_Some (events w !! old) →
     old ≠ ev ∧ active_jobs w' !! job ≠ Some old ∧
     events w' !! old = events w !! old).
Proof.
  unfold register. simpl. split; [by apply lookup_ge_None_2|].
  split; [by rewrite lookup_app_r, Nat.sub_diag|].
  split; [by rewrite lookup_insert_eq|].
  split; [intros id Hid; by rewrite lookup_insert_ne|].
  intros old Hold Hs. apply lookup_lt_is_Some in Hs.
  split; [lia|]. split.
  - rewrite lookup_insert_eq. intros [= ?]. lia.
  - by rewrite lookup_app_l.
Qed.

(** *** The bus of a reachable world *)

Lemma sound_deliver (evs : list (string * payload)) (em : EventManager.t) :
  EventManager.sound em → EventManager.sound (deliver json_dumps evs em).
Proof.
  revert em. induction evs as [|e evs IH]; intros em H; [done|].
  apply IH. by apply sound_broadcast.
Qed.

Lemma admission_bus (t : nat) (job : string) (sd : option Z)
    (env : admission_env) (w0 : world) :
  ∃ evs, bus (admission json_dumps t job sd env w0)
         = deliver json_dumps evs (bus w0).
Proof.
  destruct (admission_shape t job sd env w0)
    as (evs & [-> | [(j & Hj & ->) | (d & res & -> & _)]]); by exists evs.
Qed.

Lemma sound_step (a : action) (w w' : world) :
  EventManager.sound (bus w) → step json_dumps a w = Some w' →
  EventManager.sound (bus w').
Proof.
  intros S. destruct a; simpl.
  - intros [= <-].
    destruct (generate_task_shape job_id request_seed env w) as (evs & ->).
    cbv zeta. pose proof (sound_deliver evs _ S) as S1.
    destruct (gpu_lock w) as [[] [|x ws]]; try done.
    match goal with
    | |- context [admission json_dumps ?t ?j ?s ?e ?w0] =>
        destruct (admission_bus t j s e w0) as (evs' & ->)
    end. by apply sound_deliver.
  - unfold resume.
    destruct (tasks w !! t) as [[job sd []]|] eqn:Ht; try done.
    case_bool_decide as Hin; [|done]. intros [= <-].
    match goal with
    | |- context [admission json_dumps ?t ?j ?s ?e ?w0] =>
        destruct (admission_bus t j s e w0) as (evs' & ->)
    end. by apply sound_deliver.
  - destruct (tasks w !! t) as [[job sd [|ev ti s|]]|] eqn:Ht; try done.
    intros [= <-].
    destruct (finish_shape t job ti s env w) as (evs & d & r & -> & _).
    by apply sound_deliver.
  - destruct (tasks w !! t) as [[job sd []]|] eqn:Ht; try done.
    intros [= <-]. by apply sound_broadcast.
  - intros [= <-]. unfold cancel_job. case_bool_decide; simpl.
    + rewrite broadcast_wrote. by apply sound_deliver.
    + by destruct (active_jobs w !! job_id).
  - by intros [= <-].
  - intros [= <-]. by apply sound_subscribe.
  - intros [= <-]. by apply sound_unsubscribe.
  - destruct (EventManager.queues (bus w) !! q) as [Q|] eqn:HQ; [|done]. simpl.
    destruct (EventManager.get_nowait Q) as [[x Q']|] eqn:Hg; [|done]. simpl.
    intros [= <-]. by eapply sound_consume.
  - intros [= <-]. by apply sound_broadcast.
  - destruct (db w !! job_id); [done|]. by intros [= <-].
  - by intros [= <-].
Qed.

Lemma sound_reachable (db0 : gmap string Job) (acts : list action) (w : world) :
  run json_dumps acts (initial db0) = Some w → EventManager.sound (bus w).
Proof.
  assert (∀ w0, EventManager.sound (bus w0) →
            run json_dumps acts w0 = Some w → EventManager.sound (bus w)) as H.
  { induction acts as [|a acts IH]; intros w0 S; simpl.
    - by intros [= <-].
    - destruct (step json_dumps a w0) as [w1|] eqn:Hs; [|done]. simpl.
      apply IH. by eapply sound_step. }
  apply H, sound_new.
Qed.

(** ** Claims about the event bus *)

(** C6 (as amended).  [subscribe()] creates and registers an unbounded
    channel: the new queue is empty, has [maxsize] 0 and is never full
    whatever it holds.  [publish] offers the serialized message to every
    channel registered at that moment by a non-blocking send: a registered
    channel that is not full has the message appended, one that is full is
    left as it is, the channels not registered are left as they are, and
    the list of subscribers does not change. *)
Theorem publish_offers_to_every_channel (em : EventManager.t) :
  (let q := (EventManager.subscribe em).1 in
   let em' := (EventManager.subscribe em).2 in
   EventManager.subscribers em' = EventManager.subscribers em ++ [q] ∧
   EventManager.queues em' !! q = Some (EventManager.MkQueue 0 []) ∧
   (∀ l, EventManager.full (EventManager.MkQueue 0 l) = false) ∧
   (∀ q', q' ≠ q →
      EventManager.queues em' !! q' = EventManager.queues em !! q')) ∧
  (NoDup (EventManager.subscribers em) →
   ∀ event_type data,
     let msg := EventManager.format_msg json_dumps event_type data in
     let em' := EventManager.publish json_dumps event_type data em in
     EventManager.subscribers em' = EventManager.subscribers em ∧
     ∀ q Q, EventManager.queues em !! q = Some Q →
       EventManager.queues em' !! q
       = Some (if decide (q ∈ EventManager.subscribers em)
               then if EventManager.full Q then Q
                    else EventManager.MkQueue (EventManager.maxsize Q)
                           (EventManager.items Q ++ [msg])
               else Q)).
Proof.
  split.
  - simpl. split; [done|]. split; [by rewrite lookup_app_r, Nat.sub_diag|].
    split; [done|]. intros q' Hq'.
    destruct (decide (q' < length (EventManager.queues em))%nat).
    + by rewrite lookup_app_l.
    + rewrite lookup_ge_None_2 by (rewrite length_app; simpl; lia).
      symmetry. apply lookup_ge_None_2. lia.
  - intros Hnd event_type data. simpl. split; [done|]. intros q Q HQ.
    rewrite foldl_offer_lookup by done. rewrite HQ.
    destruct (decide _); [|done]. simpl. by rewrite deposit_cases.
Qed.

(** C10.  Subscriber channels are unbounded, so nothing is ever dropped.  In
    every reachable world every queue the bus knows has [maxsize] 0 and
    accepts any item; and for every channel registered at that moment,
    [publish] appends the serialized message to it and [shutdown] appends
    the shutdown message: the [QueueFull] branch is never taken. *)
Theorem subscriber_channels_never_drop (db0 : gmap string Job)
    (acts : list action) (w : world) :
  run json_dumps acts (initial db0) = Some w →
  (∀ q Q, EventManager.queues (bus w) !! q = Some Q →
     EventManager.maxsize Q = 0 ∧ EventManager.full Q = false ∧
     ∀ item, EventManager.put_nowait Q item
             = Some (EventManager.MkQueue 0 (EventManager.items Q ++ [item]))) ∧
  (∀ q, q ∈ EventManager.subscribers (bus w) →
     ∃ Q, EventManager.queues (bus w) !! q = Some Q ∧
       (∀ event_type data,
          EventManager.queues
            (EventManager.publish json_dumps event_type data (bus w)) !! q
          = Some (EventManager.MkQueue 0
                    (EventManager.items Q
                     ++ [EventManager.format_msg json_dumps event_type data]))) ∧
       EventManager.queues (EventManager.shutdown (bus w)) !! q
       = Some (EventManager.MkQueue 0
                 (EventManager.items Q ++ [EventManager.shutdown_msg]))).
Proof.
  intros Hrun. destruct (sound_reachable db0 acts w Hrun) as [H1 H2 H3].
  assert (∀ q Q, EventManager.queues (bus w) !! q = Some Q →
            EventManager.maxsize Q = 0) as Hmax.
  { intros q Q HQ. by apply (Forall_lookup_1 _ _ _ _ H3 HQ). }
  split.
  - intros q Q HQ. pose proof (Hmax q Q HQ) as Hm. split; [done|].
    split; [|intros item; by apply put_nowait_unbounded].
    unfold EventManager.full. by rewrite Hm, decide_True.
  - intros q Hq. destruct (lookup_lt_is_Some_2 _ _ (H2 q Hq)) as [Q HQ].
    exists Q. split; [done|].
    assert (∀ msg, EventManager.queues (EventManager.broadcast msg (bus w)) !! q
                   = Some (EventManager.MkQueue 0 (EventManager.items Q ++ [msg])))
      as Hb.
    { intros msg. simpl. rewrite foldl_offer_lookup by done.
      rewrite decide_True by done. rewrite HQ. simpl.
      unfold EventManager.deposit.
      by rewrite (put_nowait_unbounded Q msg (Hmax q Q HQ)). }
    split; [intros event_type data; apply Hb|apply Hb].
Qed.



End service_facts.

(** ** Examples: the theorems at concrete runs *)

Section examples.
Import MusicService Scenario.






(** C10 at the run [observed]: the observer's channel takes every message. *)
Lemma subscriber_channels_never_drop_witness :
  (∀ q Q, EventManager.queues (bus (after observed)) !! q = Some Q →
     EventManager.maxsize Q = 0 ∧ EventManager.full Q = false ∧
     ∀ item, EventManager.put_nowait Q item
             = Some (EventManager.MkQueue 0 (EventManager.items Q ++ [item]))) ∧
  (∀ q, q ∈ EventManager.subscribers (bus (after observed)) →
     ∃ Q, EventManager.queues (bus (after observed)) !! q = Some Q ∧
       (∀ event_type data,
          EventManager.queues
            (EventManager.publish json_dumps_plain event_type data
               (bus (after observed))) !! q
          = Some (EventManager.MkQueue 0
                    (EventManager.items Q
                     ++ [EventManager.format_msg json_dumps_plain
                           event_type data]))) ∧
       EventManager.queues (EventManager.shutdown (bus (after observed))) !! q
       = Some (EventManager.MkQueue 0
                 (EventManager.items Q ++ [EventManager.shutdown_msg]))).
Proof.
  apply (subscriber_channels_never_drop json_dumps_plain ∅ observed).
  vm_compute. reflexivity.
Defined.

(** C3.  Defect in [cancel_job]: a job cancelled while it waits is reported
    as cancelled and runs all the same.  Job b waits behind job a;
    [cancel_job] finds it in the displayed queue, removes it there and
    returns [True], but the coroutine of b stays suspended on the lock and
    nothing is recorded that it could test later.  Once a is done the
    coroutine of b gets the lock, finds its id absent from the displayed
    queue, and goes on: it writes [PROCESSING] and is in flight with its
    cancellation event unset. *)
Lemma cancelled_queued_job_still_processes :
  "b" ∈ job_queue (after two_jobs) ∧
  (cancel_job json_dumps_plain "b" (after two_jobs)).1 = true ∧
  job_queue (cancel_job json_dumps_plain "b" (after two_jobs)).2 = [] ∧
  _waiters (gpu_lock (cancel_job json_dumps_plain "b" (after two_jobs)).2)
  = [(1%nat, false)] ∧
  run json_dumps_plain [Cancel "b"; Finish 0 returned; Resume 1 env0]
      (after two_jobs)
  = Some (after (two_jobs ++ [Cancel "b"; Finish 0 returned; Resume 1 env0])) ∧
  processing (after (two_jobs ++ [Cancel "b"; Finish 0 returned; Resume 1 env0]))
             "b" ∧
  in_flight (after (two_jobs ++ [Cancel "b"; Finish 0 returned; Resume 1 env0]))
            1 ∧
  (∃ ev,
     active_jobs (after (two_jobs ++ [Cancel "b"; Finish 0 returned; Resume 1 env0]))
       !! "b" = Some ev ∧
     events (after (two_jobs ++ [Cancel "b"; Finish 0 returned; Resume 1 env0]))
       !! ev = Some false).
Proof.
  split; [apply (bool_decide_unpack _); vm_compute; exact I|].
  split; [vm_compute; reflexivity|].
  split; [vm_compute; reflexivity|].
  split; [vm_compute; reflexivity|].
  split; [vm_compute; reflexivity|].
  split; [eexists; split; vm_compute; reflexivity|].
  split; [eexists; split; vm_compute; reflexivity|].
  eexists; split; vm_compute; reflexivity.
Qed.

(** The first branch of [cancel_job] at the run [two_jobs], for the queued
    job b. *)
Lemma cancel_job_protocol_at_two_jobs :
  "b" ∈ job_queue (after two_jobs) ∧
  cancel_job json_dumps_plain "b" (after two_jobs)
  = (true,
     wrote json_dumps_plain
       (set_job_queue (Py.list_remove "b" (job_queue (after two_jobs)))
          (after two_jobs))
       (db (after two_jobs))
       (queue_events (Py.list_remove "b" (job_queue (after two_jobs))))) ∧
  tasks (cancel_job json_dumps_plain "b" (after two_jobs)).2
  = tasks (after two_jobs) ∧
  gpu_lock (cancel_job json_dumps_plain "b" (after two_jobs)).2
  = gpu_lock (after two_jobs).
Proof.
  assert ("b" ∈ job_queue (after two_jobs)) as Hin
    by (apply (bool_decide_unpack _); vm_compute; exact I).
  split; [exact Hin|].
  destruct (cancel_job_protocol json_dumps_plain "b" (after two_jobs))
    as [H _].
  destruct (H Hin) as (H1 & _ & _ & H2 & H3). auto.
Qed.

(** C4 fails on the failure path: the row of job a is deleted while the
    engine runs.  When the engine then returns, the coroutine returns; when
    the engine raises, [NoResultFound] leaves the coroutine.  In both runs
    the store stays empty and nothing terminal is published. *)
Lemma stale_row_raises_on_failure_path :
  tasks (after (deleted_in_flight returned)) !! 0%nat
  = Some (Task "a" None (Finished (Py.Ok ()))) ∧
  tasks (after (deleted_in_flight raised)) !! 0%nat
  = Some (Task "a" None (Finished (Py.Raise NoResultFound))) ∧
  db (after (deleted_in_flight raised)) = ∅ ∧
  forallb (λ e, negb (terminal_event e))
          (published (after (deleted_in_flight raised))) = true.
Proof. repeat split; vm_compute; reflexivity. Qed.

(** C6 as stated fails: the channel [subscribe()] creates has no capacity. *)
Lemma subscribed_channel_is_not_bounded :
  EventManager.queues (EventManager.subscribe EventManager.new).2
    !! (EventManager.subscribe EventManager.new).1
  = Some EventManager.Queue_new ∧
  ¬ EventManager.bounded EventManager.Queue_new.
Proof.
  split; [reflexivity|]. intros [cap H].
  specialize (H (replicate cap "") ltac:(by rewrite length_replicate)).
  discriminate H.
Qed.

(** A queue made with [maxsize=1] would be bounded, and on a bus holding
    such a queue, full, next to an unbounded one, [publish] leaves the full
    one as it is and appends to the other. *)
Example bounded_queue_has_a_capacity :
  EventManager.bounded (EventManager.MkQueue 1 []).
Proof.
  exists 1%nat. intros l Hl. unfold EventManager.full. simpl.
  apply bool_decide_eq_true_2. unfold EventManager.qsize. simpl. lia.
Qed.

Example full_channel_drops_alone :
  EventManager.queues
    (EventManager.publish json_dumps_plain "job_progress"
       [("job_id", JStr "a"); ("progress", JInt 50); ("msg", JStr "half")]
       (EventManager.Mk [0; 1]%nat
          [EventManager.MkQueue 1 ["old"]; EventManager.MkQueue 0 ["old"]]))
  = [EventManager.MkQueue 1 ["old"];
     EventManager.MkQueue 0
       ["old";
        EventManager.format_msg json_dumps_plain "job_progress"
          [("job_id", JStr "a"); ("progress", JInt 50); ("msg", JStr "half")]]].
Proof. vm_compute. reflexivity. Qed.

(** C6 (as amended) on a bus with one subscriber. *)
Lemma publish_offers_to_every_channel_witness :
  NoDup (EventManager.subscribers (EventManager.subscribe EventManager.new).2) ∧
  EventManager.queues
    (EventManager.publish json_dumps_plain "job_update"
       [("job_id", JStr "a"); ("status", JStr "processing")]
       (EventManager.subscribe EventManager.new).2) !! 0%nat
  = Some (EventManager.MkQueue 0
            [EventManager.format_msg json_dumps_plain "job_update"
               [("job_id", JStr "a"); ("status", JStr "processing")]]).
Proof.
  assert (NoDup (EventManager.subscribers
                   (EventManager.subscribe EventManager.new).2)) as Hnd
    by (simpl; apply NoDup_singleton).
  split; [exact Hnd|].
  destruct (publish_offers_to_every_channel json_dumps_plain
              (EventManager.subscribe EventManager.new).2) as [_ H].
  destruct (H Hnd "job_update"
              [("job_id", JStr "a"); ("status", JStr "processing")])
    as [_ H'].
  exact (H' 0%nat EventManager.Queue_new eq_refl).
Defined.

(** C7 as stated fails: a second registration under the same id succeeds
    and replaces the first token. *)
Lemma register_twice_replaces :
  let w1 := (register "a" (initial ∅)).2 in
  let w2 := (register "a" w1).2 in
  active_jobs w1 !! "a" = Some 0%nat ∧
  (register "a" w1).1 = 1%nat ∧
  active_jobs w2 !! "a" = Some 1%nat ∧
  events w2 = [false; false].
Proof. repeat split; vm_compute; reflexivity. Qed.

(** C7 (as amended) at a registry that already holds a token for job a. *)
Lemma register_replaces_witness :
  active_jobs (register "a" (initial ∅)).2 !! "a" = Some 0%nat ∧
  is_Some (events (register "a" (initial ∅)).2 !! 0%nat) ∧
  0%nat ≠ (register "a" (register "a" (initial ∅)).2).1 ∧
  active_jobs (register "a" (register "a" (initial ∅)).2).2 !! "a"
  ≠ Some 0%nat.
Proof.
  assert (active_jobs (register "a" (initial ∅)).2 !! "a" = Some 0%nat) as H1
    by (vm_compute; reflexivity).
  assert (is_Some (events (register "a" (initial ∅)).2 !! 0%nat)) as H2
    by (by eexists).
  split; [exact H1|]. split; [exact H2|].
  destruct (register_replaces "a" (register "a" (initial ∅)).2)
    as (_ & _ & _ & _ & H).
  destruct (H 0%nat H1 H2) as (Ha & Hb & _). auto.
Defined.

(** C8 at an influence of 50 on a 20-second clip. *)
Lemma conditioning_window_witness :
  PrimFloat.ltb 1 (50 / 100 * 10) = true ∧
  PrimFloat.leb (50 / 100 * 10) 20 = true ∧
  Conditioning.muq_segment_sec 50 20 = (50 / 100 * 10)%float.
Proof.
  split; [reflexivity|]. split; [reflexivity|].
  destruct (conditioning_window 50 20) as (_ & _ & _ & _ & _ & H & _).
  apply H; reflexivity.
Defined.

(** On a clip shorter than a second the floor wins over the duration; with
    no reference audio the window keeps its default of 60 seconds, and when
    the duration cannot be read it falls back to 10 seconds. *)
Example short_clip_gets_the_floor :
  Conditioning.muq_segment_sec 100 0.5 = 1%float ∧
  Conditioning.resolve_ref_audio None None None 100 = (None, 60%float) ∧
  Conditioning.resolve_ref_audio (Some "ref") (Some "ref.mp3") None 100
  = (Some "ref.mp3", 10%float) ∧
  Conditioning.resolve_ref_audio (Some "ref") (Some "ref.mp3")
    (Some (44100, 0)) 100
  = (Some "ref.mp3", 10%float).
Proof. repeat split; reflexivity. Qed.

(** C9 on three accelerators of 8, 24 and 16 GiB: the model goes to
    device 1, the codec to device 0. *)
Lemma device_placement_policy_witness :
  (2 ≤ length three_gpus)%nat ∧
  ∃ mula codec bm bc,
    Placement._load_pipeline_multi_gpu
      three_gpus "ckpt" "3B" true
    = Some ("multi",
            Placement.FromPretrained "ckpt" (Placement.cuda_index mula)
              (Placement.cuda_index codec) "bfloat16" "3B" true None) ∧
    three_gpus !! mula = Some bm ∧
    three_gpus !! codec = Some bc ∧
    ∀ k b, three_gpus !! k = Some b →
           (bc ≤ b ≤ bm)%Z.
Proof.
  split; [simpl; lia|].
  apply (device_placement_policy three_gpus "ckpt" "3B" true).
  simpl. lia.
Defined.

Example device_placement_three :
  Placement._load_pipeline_multi_gpu
    three_gpus "ckpt" "3B" true
  = Some ("multi",
          Placement.FromPretrained "ckpt" (Placement.cuda_index 1)
            (Placement.cuda_index 0) "bfloat16" "3B" true None).
Proof. vm_compute. reflexivity. Qed.

End examples.

(* ================================================================= *)
(** * Further properties of the code *)

(** ** More on the scheduler: progress *)

Section live_facts.
Variable json_dumps : payload → string.
Import MusicService Liveness.

Lemma live_initial (db0 : gmap string Job) : live (initial db0).
Proof.
  constructor; simpl; try done.
  intros t. by rewrite elem_of_nil.
Qed.

Lemma live_frame (w w' : world) :
  gpu_lock w' = gpu_lock w → tasks w' = tasks w →
  active_jobs w' = active_jobs w →
  (length (events w) ≤ length (events w'))%nat →
  live w → live w'.
Proof.
  intros Hl Ht Ha He [L1 L2 L3 L4 L5 L6].
  constructor; unfold in_flight in *; rewrite ?Hl, ?Ht, ?Ha; try done.
  intros t id sd ev ti s H. destruct (L2 _ _ _ _ _ _ H). split; [done|lia].
Qed.

Lemma lookup_alter_pc (ts : list task) (t t' : nat) (p : pc) (tk : task) :
  alter (to_pc p) t ts !! t' = Some tk →
  (t' = t ∧ task_pc tk = p ∧
   ∃ tk0, ts !! t = Some tk0 ∧ tk = to_pc p tk0)
  ∨ (t' ≠ t ∧ ts !! t' = Some tk).
Proof.
  destruct (decide (t = t')) as [->|Hne].
  - rewrite list_lookup_alter_eq.
    destruct (ts !! t') as [tk0|] eqn:H0; simpl; [|done].
    intros [= <-]. left. split; [done|]. split; [done|]. by exists tk0.
  - rewrite list_lookup_alter_ne by done. intros H. right.
    split; [congruence|done].
Qed.

Lemma wake_head (ws : list (nat * bool)) (t : nat) (d : bool)
    (r : list (nat * bool)) :
  _wake_up_first ws = (t, d) :: r → d = true.
Proof. destruct ws as [|[t0 d0] ws]; simpl; [done|]. by intros [= _ <- _]. Qed.

Lemma live_admission (t : nat) (job : string) (sd : option Z)
    (env : admission_env) (w0 : world) (r : list (nat * bool)) :
  gpu_lock w0 = MkLock true r →
  (∀ t', ¬ in_flight w0 t') →
  tasks w0 !! t = Some (Task job sd Waiting) →
  t ∉ r.*1 →
  (∀ t' id sd', tasks w0 !! t' = Some (Task id sd' Waiting) →
     t' = t ∨ t' ∈ r.*1) →
  (∀ t', t' ∈ r.*1 → ∃ id sd', tasks w0 !! t' = Some (Task id sd' Waiting)) →
  live (admission json_dumps t job sd env w0).
Proof.
  intros Hl Hnf Ht Hnot Hw Hws.
  assert (∀ t' id sd' ev ti s p,
            is_generating p = false →
            alter (to_pc p) t (tasks w0) !! t' = Some (Task id sd' (Generating ev ti s)) →
            False) as Hnogen.
  { intros t' id sd' ev ti s p Hp H.
    apply lookup_alter_pc in H as [(_ & Hpc & _)|(_ & H)].
    - simpl in Hpc. by subst p.
    - apply (Hnf t'). by eexists. }
  assert (∀ p t' id sd', p ≠ Waiting →
            alter (to_pc p) t (tasks w0) !! t' = Some (Task id sd' Waiting) →
            t' ∈ r.*1) as Hwait.
  { intros p t' id sd' Hp H.
    apply lookup_alter_pc in H as [(_ & Hpc & _)|(Hne & H)]; [done|].
    by destruct (Hw _ _ _ H). }
  assert (∀ p t', t' ∈ r.*1 →
            ∃ id sd', alter (to_pc p) t (tasks w0) !! t'
                      = Some (Task id sd' Waiting)) as Hwaiters.
  { intros p t' Hin. destruct (Hws t' Hin) as (id & sd' & H).
    exists id, sd'. rewrite list_lookup_alter_ne; [done|]. by intros ->. }
  assert (∀ q aj b ev d res p a1 a2,
    live (World q aj (release (gpu_lock w0)) b ev d
            (alter (to_pc (Finished res)) t (tasks w0)) p a1 a2)) as Hended.
  { intros q aj b ev d res p a1 a2. rewrite Hl.
    constructor; unfold in_flight; simpl.
    - done.
    - intros t' id sd' ev' ti s H. by destruct (Hnogen t' id sd' ev' ti s (Finished res)).
    - intros t' id sd' H. rewrite wake_fst.
      by apply (Hwait (Finished res) t' id sd').
    - intros t'. rewrite wake_fst. apply Hwaiters.
    - intros _ t' d' r'. apply wake_head.
    - intros t' id k ev' ti s H. by destruct (Hnogen t' id (Some k) ev' ti s (Finished res)). }
  destruct (admission_shape json_dumps t job sd env w0)
    as (evs & [-> | [(j & Hj & ->) | (d & res & -> & _)]]).
  - apply Hended.
  - rewrite Hl. constructor; unfold in_flight; simpl.
    + intros _. exists t. eexists. rewrite list_lookup_alter_eq, Ht. done.
    + intros t' id sd' ev ti s H.
      apply lookup_alter_pc in H as [(-> & Hpc & tk0 & H0 & Heq)|(_ & H)].
      * rewrite Ht in H0. unfold to_pc in Heq. simplify_eq/=. rewrite lookup_insert_eq.
        split; [done|]. rewrite length_app. simpl. lia.
      * destruct (Hnf t'). by eexists.
    + intros t' id sd' H. eapply Hwait; [|exact H]. done.
    + apply Hwaiters.
    + done.
    + intros t' id k ev ti s H.
      apply lookup_alter_pc in H as [(-> & Hpc & tk0 & H0 & Heq)|(_ & H)].
      * rewrite Ht in H0. unfold to_pc in Heq. by simplify_eq/=.
      * destruct (Hnf t'). by eexists.
  - apply Hended.
Qed.

(** [shutdown_all] and [cancel_job] on the events. *)
Lemma set_all_spec (es : list bool) (m : gmap string nat) :
  let es' := map_fold (λ (_ : string) ev evs, <[ev := true]> evs) es m in
  length es' = length es ∧
  (∀ id ev, m !! id = Some ev → (ev < length es)%nat → es' !! ev = Some true) ∧
  (∀ i, (∀ id, m !! id ≠ Some i) → es' !! i = es !! i) ∧
  (∀ i, es !! i = Some true → es' !! i = Some true).
Proof.
  cbv zeta.
  apply (map_fold_weak_ind
    (λ r m, length r = length es ∧
      (∀ id ev, m !! id = Some ev → (ev < length es)%nat → r !! ev = Some true) ∧
      (∀ i, (∀ id, m !! id ≠ Some i) → r !! i = es !! i) ∧
      (∀ i, es !! i = Some true → r !! i = Some true))).
  - split; [done|]. split; [intros id ev; by rewrite lookup_empty|]. done.
  - intros i x m' r Hi (Hlen & Hset & Hout & Hst).
    split; [by rewrite length_insert|]. split; [|split].
    + intros id ev Hid Hev. destruct (decide (x = ev)) as [->|Hne].
      * apply list_lookup_insert_eq. lia.
      * rewrite list_lookup_insert_ne by done.
        apply lookup_insert_Some in Hid as [[_ ?]|[_ Hid]]; [done|].
        by apply (Hset id).
    + intros j Hj. rewrite list_lookup_insert_ne.
      * apply Hout. intros id Hid. apply (Hj id).
        rewrite lookup_insert_ne; [done|]. intros ->. congruence.
      * intros ->. apply (Hj i). by rewrite lookup_insert_eq.
    + intros j Hj. destruct (decide (x = j)) as [->|Hne].
      * apply list_lookup_insert_eq. rewrite Hlen. by eapply lookup_lt_Some.
      * rewrite list_lookup_insert_ne by done. by apply Hst.
Qed.

Lemma shutdown_all_events (w : world) :
  length (events (shutdown_all w)) = length (events w).
Proof. apply set_all_spec. Qed.

Lemma cancel_job_events (job : string) (w : world) :
  length (events (cancel_job json_dumps job w).2) = length (events w).
Proof.
  unfold cancel_job. case_bool_decide; simpl.
  - by rewrite broadcast_wrote.
  - destruct (active_jobs w !! job); simpl; [|done]. by rewrite length_insert.
Qed.

Lemma waiters_nodup (w : world) : inv w → NoDup (_waiters (gpu_lock w)).*1.
Proof.
  intros I. pose proof (NoDup_seq 0 (length (tasks w))) as H.
  rewrite <- (inv_arrivals _ I), (inv_fifo _ I) in H.
  by apply NoDup_app in H as (_ & _ & H).
Qed.

Lemma live_generate_task (job : string) (sd : option Z) (env : admission_env)
    (w : world) :
  inv w → live w → live (generate_task json_dumps job sd env w).
Proof.
  intros I L.
  destruct (generate_task_shape json_dumps job sd env w) as (evs & ->).
  cbv zeta.
  set (b := deliver json_dumps evs (bus w)). clearbody b.
  pose proof (λ x, waiters_bound w x I) as Hbound.
  pose proof (inv_idle _ I) as Hidle.
  destruct L as [L1 L2 L3 L4 L5 L6]. unfold in_flight in *.
  destruct (gpu_lock w) as [l ws] eqn:Hl. simpl in *.
  assert (∀ t' tk, (tasks w ++ [Task job sd Waiting]) !! t' = Some tk →
            task_pc tk ≠ Waiting → tasks w !! t' = Some tk) as Hold.
  { intros t' tk H Hp. apply lookup_app_Some in H as [H|[_ H]]; [done|].
    apply list_lookup_singleton_Some in H as [_ <-]. done. }
  assert (l = true ∨ ws ≠ [] →
     live (set_gpu_lock (MkLock l (ws ++ [(length (tasks w), false)]))
     (World (job_queue w ++ [job]) (active_jobs w) (MkLock l ws) b
        (events w) (db w) (tasks w ++ [Task job sd Waiting])
        (published w ++ evs) (arrivals w ++ [length (tasks w)])
        (acquisitions w)))) as Hslow.
  { intros Hbusy. constructor; unfold in_flight; simpl.
    - intros Hlk. destruct (L1 Hlk) as [t Ht]. exists t.
      by rewrite generating_at_snoc.
    - intros t id sd' ev ti s H. apply Hold in H; [|done]. by eapply L2.
    - intros t id sd' H. rewrite fmap_app. apply elem_of_app.
      apply lookup_app_Some in H as [H|[Hge H]].
      + left. by eapply L3.
      + right. apply list_lookup_singleton_Some in H as [H _].
        simpl. apply list_elem_of_singleton. lia.
    - intros t. rewrite fmap_app, elem_of_app. intros [H|H].
      + destruct (L4 t H) as (id & sd' & Ht). exists id, sd'.
        by apply lookup_app_l_Some.
      + simpl in H. apply list_elem_of_singleton in H as ->.
        exists job, sd. by rewrite lookup_app_r, Nat.sub_diag.
    - intros Hlk t d r. destruct ws as [|[t0 d0] ws'].
      + destruct Hbusy; congruence.
      + simpl. intros [= <- <- <-]. by eapply L5.
    - intros t id k ev ti s H. apply Hold in H; [|done]. by eapply L6. }
  destruct l; [by apply Hslow; left|].
  destruct ws as [|w1 ws]; [|by apply Hslow; right].
  destruct (Hidle eq_refl) as [Hnf Ha].
  eapply live_admission with (r := []); simpl; try done.
  - intros t'. unfold in_flight; simpl. rewrite generating_at_snoc by done.
    apply Hnf.
  - rewrite lookup_app_r by done. by rewrite Nat.sub_diag.
  - apply not_elem_of_nil.
  - intros t' id sd' H. left.
    apply lookup_app_Some in H as [H|[Hge H]].
    + apply L3 in H. by apply elem_of_nil in H.
    + apply list_lookup_singleton_Some in H as [H _]. lia.
  - intros t' H. by apply elem_of_nil in H.
Qed.

Lemma live_resume (t : nat) (env : admission_env) (w w' : world) :
  inv w → live w → resume json_dumps t env w = Some w' → live w'.
Proof.
  intros I L. unfold resume.
  destruct (tasks w !! t) as [[job sd []]|] eqn:Ht; try done.
  case_bool_decide as Hin; [|done]. intros [= <-].
  destruct (woken_is_head w t I Hin) as (r & Hl & Hr).
  pose proof (waiters_nodup w I) as Hnd.
  pose proof (live_waiting _ L) as L3. pose proof (live_waiters _ L) as L4.
  rewrite Hl in *. cbn [_waiters _locked] in *. rewrite list_remove_head.
  simpl in Hnd. apply NoDup_cons in Hnd as [Hnot Hnd].
  destruct (inv_idle _ I) as [Hnf Ha]; [by rewrite Hl|].
  eapply live_admission with (r := r); simpl; try done.
  - intros t' id sd' H. apply L3 in H. simpl in H.
    by apply elem_of_cons in H.
  - intros t' H. apply L4. simpl. by right.
Qed.

Lemma live_finish (t : nat) (job ti : string) (sd : option Z) (ev : nat) (s : Z)
    (env : finish_env) (w : world) :
  inv w → live w → tasks w !! t = Some (Task job sd (Generating ev ti s)) →
  live (finish json_dumps t job ti s env w).
Proof.
  intros I L Ht.
  destruct (finish_shape json_dumps t job ti s env w) as (evs & d & r & -> & _).
  assert (∀ t' id sd' ev' ti' s',
            alter (to_pc (Finished r)) t (tasks w) !! t'
            = Some (Task id sd' (Generating ev' ti' s')) → False) as Hnogen.
  { intros t' id sd' ev' ti' s' H.
    apply lookup_alter_pc in H as [(_ & Hpc & _)|(Hne & H)]; [done|].
    apply Hne. apply (inv_excl _ I); by eexists. }
  constructor; unfold in_flight; simpl.
  - done.
  - intros t' id sd' ev' ti' s' H. by destruct (Hnogen _ _ _ _ _ _ H).
  - intros t' id sd' H. rewrite wake_fst.
    apply lookup_alter_pc in H as [(_ & Hpc & _)|(Hne & H)]; [done|].
    by eapply (live_waiting _ L).
  - intros t'. rewrite wake_fst. intros H.
    destruct (live_waiters _ L t' H) as (id & sd' & Ht'). exists id, sd'.
    rewrite list_lookup_alter_ne; [done|]. intros ->. congruence.
  - intros _ t' d' r'. apply wake_head.
  - intros t' id k ev' ti' s' H. by destruct (Hnogen _ _ _ _ _ _ H).
Qed.

Lemma live_step (a : action) (w w' : world) :
  inv w → live w → step json_dumps a w = Some w' → live w'.
Proof.
  intros I L. destruct a; simpl.
  - intros [= <-]. by apply live_generate_task.
  - by apply live_resume.
  - destruct (tasks w !! t) as [[job sd []]|] eqn:Ht; try done.
    intros [= <-]. by eapply live_finish.
  - destruct (tasks w !! t) as [[job sd []]|] eqn:Ht; try done.
    intros [= <-]. by apply (live_frame w).
  - intros [= <-].
    destruct (cancel_job_frame json_dumps job_id w) as (? & ? & ? & _).
    apply (live_frame w); try done. by rewrite cancel_job_events.
  - intros [= <-]. apply (live_frame w); try done.
    by rewrite shutdown_all_events.
  - intros [= <-]. by apply (live_frame w).
  - intros [= <-]. by apply (live_frame w).
  - destruct (EventManager.queues (bus w) !! q) as [Q|]; [|done]. simpl.
    destruct (EventManager.get_nowait Q); [|done]. simpl.
    intros [= <-]. by apply (live_frame w).
  - intros [= <-]. by apply (live_frame w).
  - destruct (db w !! job_id); [done|]. intros [= <-]. by apply (live_frame w).
  - intros [= <-]. by apply (live_frame w).
Qed.

Lemma live_run (acts : list action) (w w' : world) :
  inv w → live w → run json_dumps acts w = Some w' → live w'.
Proof.
  revert w. induction acts as [|a acts IH]; intros w I L; simpl.
  - by intros [= <-].
  - destruct (step json_dumps a w) as [w1|] eqn:Hs; [|done]. simpl.
    apply IH; [by eapply inv_step|by eapply live_step].
Qed.

Lemma live_reachable (db0 : gmap string Job) (acts : list action) (w : world) :
  run json_dumps acts (initial db0) = Some w → live w.
Proof. apply live_run; [apply inv_initial|apply live_initial]. Qed.

(** X1.  The scheduler never gets stuck.  In every reachable world in which
    some coroutine has not ended, a coroutine can take its next step: either
    one is in flight and can finish under every outcome, or the lock is free
    and the coroutine at the head of the lock's queue has been woken and can
    take the lock, whatever the collaborators answer. *)
Theorem some_coroutine_can_always_step (db0 : gmap string Job)
    (acts : list action) (w : world) (t : nat) :
  run json_dumps acts (initial db0) = Some w →
  is_Some (tasks w !! t) → ¬ ended w t →
  (∃ t', in_flight w t' ∧
     ∀ env, is_Some (step json_dumps (Finish t' env) w)) ∨
  (_locked (gpu_lock w) = false ∧
   ∃ t' r, _waiters (gpu_lock w) = (t', true) :: r ∧
     ∀ env, is_Some (step json_dumps (Resume t' env) w)).
Proof.
  intros Hrun [tk Ht] Hne.
  pose proof (inv_reachable json_dumps db0 acts w Hrun) as I.
  pose proof (live_reachable db0 acts w Hrun) as L.
  assert (∀ t', in_flight w t' →
            ∀ env, is_Some (step json_dumps (Finish t' env) w)) as Hfin.
  { intros t' (tk' & Ht' & Hg) env. simpl. rewrite Ht'.
    destruct tk' as [job sd [|ev ti s|]]; try done. }
  destruct (_locked (gpu_lock w)) eqn:Hl.
  { left. destruct (live_busy _ L Hl) as [t' Hfl]. exists t'. auto. }
  destruct tk as [job sd [|ev ti s|r]].
  - right. split; [done|].
    pose proof (live_waiting _ L t job sd Ht) as Hin.
    destruct (_waiters (gpu_lock w)) as [|[t0 d0] r] eqn:Hw;
      [by apply elem_of_nil in Hin|].
    pose proof (live_head _ L Hl t0 d0 r Hw) as ->.
    exists t0, r. split; [done|]. intros env. simpl. unfold resume.
    destruct (live_waiters _ L t0) as (id & sd0 & Ht0);
      [rewrite Hw; simpl; by left|].
    rewrite Ht0, Hw. rewrite bool_decide_eq_true_2 by by left. done.
  - left. exists t. split; [by eexists|]. apply Hfin. by eexists.
  - destruct Hne. by eexists.
Qed.

End live_facts.

(** ** More on the event bus *)

Section bus_order.
Variable json_dumps : payload → string.
Import EventManager.

Lemma filter_absent (x : nat) (l : list nat) :
  x ∉ l → filter (λ y, y ≠ x) l = l.
Proof.
  induction l as [|y l IH]; [done|]. intros Hx.
  apply not_elem_of_cons in Hx as [Hne Hx].
  rewrite filter_cons_True by done. by rewrite IH.
Qed.

Lemma list_remove_filter (x : nat) (l : list nat) :
  NoDup l → Py.list_remove x l = filter (λ y, y ≠ x) l.
Proof.
  induction 1 as [|y l Hy Hnd IH]; simpl; [done|].
  destruct (decide (y = x)) as [->|Hne].
  - rewrite filter_cons_False by (intros H; by apply H).
    by rewrite filter_absent.
  - rewrite filter_cons_True by done. by rewrite IH.
Qed.

Lemma deliver_subscribers (evs : list (string * payload)) (em : t) :
  subscribers (MusicService.deliver json_dumps evs em) = subscribers em.
Proof.
  revert em. induction evs as [|e evs IH]; intros em; [done|].
  simpl. by rewrite IH.
Qed.

Lemma deliver_lookup (evs : list (string * payload)) (em : t) (q : nat) :
  sound em →
  queues (MusicService.deliver json_dumps evs em) !! q
  = if decide (q ∈ subscribers em)
    then (λ Q, MkQueue 0 (items Q ++ Events.format_all json_dumps evs)) <$> queues em !! q
    else queues em !! q.
Proof.
  revert em. induction evs as [|e evs IH]; intros em S.
  - simpl. destruct (decide _); [|done].
    destruct (queues em !! q) as [Q|] eqn:HQ; [|done]. simpl.
    rewrite app_nil_r. f_equal. destruct Q as [m l]. f_equal.
    by apply (Forall_lookup_1 _ _ _ _ (sound_unbounded _ S) HQ).
  - cbn [MusicService.deliver foldl].
    fold (MusicService.deliver json_dumps evs
            (publish json_dumps e.1 e.2 em)).
    rewrite IH by by apply sound_broadcast.
    simpl. rewrite foldl_offer_lookup by apply (sound_nodup _ S).
    destruct (decide _); [|done].
    destruct (queues em !! q) as [Q|] eqn:HQ; [|done]. simpl.
    unfold deposit. rewrite put_nowait_unbounded
      by by apply (Forall_lookup_1 _ _ _ _ (sound_unbounded _ S) HQ).
    simpl. by rewrite <- app_assoc.
Qed.

(** X2.  Unsubscribing stops delivery and nothing else.  On a bus as
    the service builds it (no repetition in the subscriber list, every queue
    made by [asyncio.Queue()]), after [unsubscribe(q)] the queue [q]
    is no longer a subscriber, the other subscribers are the same and in
    the same order, every queue object keeps what it holds, and whatever is
    published afterwards leaves [q] as it was. *)
Theorem unsubscribed_channel_receives_nothing (em : t) (q : nat) :
  sound em →
  let em' := unsubscribe q em in
  (q ∉ subscribers em') ∧
  subscribers em' = filter (λ q', q' ≠ q) (subscribers em) ∧
  queues em' = queues em ∧
  ∀ evs, queues (MusicService.deliver json_dumps evs em') !! q
         = queues em !! q.
Proof.
  intros S. cbv zeta.
  assert (subscribers (unsubscribe q em)
          = filter (λ q', q' ≠ q) (subscribers em)) as Hsub.
  { unfold unsubscribe. case_bool_decide as Hin; simpl.
    - apply list_remove_filter, (sound_nodup _ S).
    - by rewrite filter_absent. }
  assert (queues (unsubscribe q em) = queues em) as Hqs.
  { unfold unsubscribe. by case_bool_decide. }
  assert (q ∉ subscribers (unsubscribe q em)) as Hout.
  { rewrite Hsub, list_elem_of_filter. by intros [? _]. }
  split; [done|]. split; [done|]. split; [done|]. intros evs.
  rewrite deliver_lookup by by apply sound_unsubscribe.
  rewrite decide_False by done. by rewrite Hqs.
Qed.

(** X3.  [subscribe] and [unsubscribe] round-trip, and [unsubscribe] of a
    queue that is not subscribed is harmless.  Unsubscribing the queue
    [subscribe] has just returned restores the subscriber list; unsubscribing
    a queue that is not in the list (a second time, say) changes nothing:
    the [ValueError] of [list.remove] cannot occur. *)
Theorem subscribe_unsubscribe_round_trip (em : t) :
  sound em →
  subscribers (unsubscribe (subscribe em).1 (subscribe em).2) = subscribers em ∧
  (∀ q, q ∉ subscribers em → unsubscribe q em = em) ∧
  (∀ q, unsubscribe q (unsubscribe q em) = unsubscribe q em).
Proof.
  intros S.
  assert (∀ em0 q, q ∉ subscribers em0 → unsubscribe q em0 = em0) as Hno.
  { intros em0 q Hq. unfold unsubscribe. by rewrite bool_decide_eq_false_2. }
  split; [|split].
  - unfold unsubscribe. simpl.
    rewrite bool_decide_eq_true_2
      by (apply elem_of_app; right; by apply list_elem_of_singleton).
    simpl. rewrite list_remove_filter by apply (sound_nodup _ (sound_subscribe _ S)).
    rewrite filter_app, filter_absent.
    + rewrite filter_cons_False by (intros H; by apply H). by rewrite app_nil_r.
    + intros Hin. apply (sound_refs _ S) in Hin. lia.
  - apply Hno.
  - intros q. apply Hno.
    unfold unsubscribe. case_bool_decide as Hin; simpl; [|done].
    rewrite list_remove_filter by apply (sound_nodup _ S).
    rewrite list_elem_of_filter. by intros [? _].
Qed.

(** X4.  A subscriber reads the events in the order they were published, none
    missing and none twice.  On a bus of queues made by [asyncio.Queue()],
    after the events [evs] are published in turn every subscribed queue
    holds what it held followed by the messages of [evs] in order, and the
    subscriber list is the same; a queue subscribed just before holds
    exactly these messages, the first published being the first
    [get_nowait] returns. *)
Theorem subscriber_reads_in_publish_order (em : t)
    (evs : list (string * payload)) :
  sound em →
  subscribers (MusicService.deliver json_dumps evs em) = subscribers em ∧
  (∀ q Q, q ∈ subscribers em → queues em !! q = Some Q →
     queues (MusicService.deliver json_dumps evs em) !! q
     = Some (MkQueue 0 (items Q ++ Events.format_all json_dumps evs))) ∧
  (let q := (subscribe em).1 in
   queues (MusicService.deliver json_dumps evs (subscribe em).2) !! q
   = Some (MkQueue 0 (Events.format_all json_dumps evs)) ∧
   ∀ e rest, evs = e :: rest →
     get_nowait (MkQueue 0 (Events.format_all json_dumps evs))
     = Some (format_msg json_dumps e.1 e.2, MkQueue 0 (Events.format_all json_dumps rest))).
Proof.
  intros S. split; [apply deliver_subscribers|]. split.
  - intros q Q Hq HQ. rewrite deliver_lookup by done.
    rewrite decide_True by done. by rewrite HQ.
  - cbv zeta. split.
    + rewrite deliver_lookup by by apply sound_subscribe.
      simpl. rewrite decide_True
        by (apply elem_of_app; right; by apply list_elem_of_singleton).
      by rewrite lookup_app_r, Nat.sub_diag.
    + by intros e rest ->.
Qed.

End bus_order.

(** ** What each step publishes and stores *)

Section event_facts.
Variable json_dumps : payload → string.
Import MusicService Liveness Events.

Lemma same_rows_insert (d : gmap string Job) (id : string) (j j' : Job) :
  d !! id = Some j → same_rows (<[id := j']> d) d.
Proof.
  intros Hj id'. destruct (decide (id = id')) as [<-|Hne].
  - rewrite lookup_insert_eq, Hj. split; by eexists.
  - by rewrite lookup_insert_ne.
Qed.

Lemma announces_queue (d : gmap string Job) (i : nat) (q : list string) (n : nat) :
  Forall (announces d) (queue_events_from i q n).
Proof. revert i. induction q; intros i; simpl; by constructor. Qed.

Lemma announces_dequeue (d : gmap string Job) (job : string) (q : list string) :
  Forall (announces d) (dequeue_events job q).
Proof.
  unfold dequeue_events. destruct (bool_decide _); [|constructor].
  apply announces_queue.
Qed.

Lemma failed_exact (job : string) (e : Py.exn) (env : handler_env) (w : world) :
  (∃ e', failed json_dumps job e env w = (Py.Raise e', w) ∧
     (persists env → db w !! job = None ∧ e' = NoResultFound))
  ∨ (∃ j, db w !! job = Some j ∧
       failed json_dumps job e env w
       = (Py.Ok (),
          wrote json_dumps w
            (<[job := MkJob FAILED (title j) (seed j) (audio_path j)
                            (Some (Py.exn_str e))]> (db w))
            (broke job e))).
Proof.
  unfold failed, one, commit, persists.
  destruct (failed_fetch_fault env) as [e2|].
  { left. exists e2. split; [done|]. by intros [? _]. }
  destruct (db w !! job) as [j|] eqn:Hj.
  2: { left. by exists NoResultFound. }
  destruct (failed_commit_fault env) as [e4|].
  { left. exists e4. split; [done|]. by intros [_ ?]. }
  right. exists j. split; [done|]. reflexivity.
Qed.

Lemma completed_exact (job ti : string) (s : Z) (env : finish_env) (w : world) :
  (∃ e', completed json_dumps job ti s env w = (Py.Raise e', w))
  ∨ (db w !! job = None ∧ completed json_dumps job ti s env w = (Py.Ok (), w))
  ∨ (∃ j, db w !! job = Some j ∧
       done_fetch_fault env = None ∧ done_commit_fault env = None ∧
       completed json_dumps job ti s env w
       = (Py.Ok (),
          wrote json_dumps w
            (<[job := MkJob COMPLETED (Some ti) (Some s)
                            (Some ("/audio/song_" +:+ job +:+ ".mp3"))
                            (error_msg j)]> (db w))
            (done job ti))).
Proof.
  unfold completed, one_or_none, commit.
  destruct (done_fetch_fault env) as [e1|]; [left; by eexists|].
  destruct (db w !! job) as [j|] eqn:Hj; [|right; by left].
  destruct (done_commit_fault env) as [e3|]; [left; by eexists|].
  right. right. exists j. split; [done|]. split; [done|]. split; [done|].
  f_equal. unfold publish, wrote; simpl. by rewrite <- app_assoc.
Qed.

Lemma announces_broke (d : gmap string Job) (job : string) (e : Py.exn) (j : Job) :
  d !! job = Some j → status j = FAILED → Forall (announces d) (broke job e).
Proof.
  intros Hj Hs. repeat constructor. intros _. exists job, j.
  split; [done|]. split; [done|]. by rewrite Hs.
Qed.

Lemma announces_done (d : gmap string Job) (job ti : string) (j : Job) :
  d !! job = Some j → status j = COMPLETED → Forall (announces d) (done job ti).
Proof.
  intros Hj Hs. repeat constructor; [|done]. intros _. exists job, j.
  split; [done|]. split; [done|]. by rewrite Hs.
Qed.

Lemma announces_started (d : gmap string Job) (job : string) (j : Job) :
  d !! job = Some j → status j = PROCESSING → Forall (announces d) (started job).
Proof.
  intros Hj Hs. repeat constructor; [|done]. intros _. exists job, j.
  split; [done|]. split; [done|]. by rewrite Hs.
Qed.

Lemma records_failed_ending (t : nat) (job : string) (e : Py.exn)
    (env : handler_env) (w0 w : world) (evs0 : list (string * payload)) :
  records json_dumps w0 w evs0 → Forall (λ e, e.1 ≠ "job_update") evs0 →
  ∃ evs, records json_dumps w0 (ending t job (failed json_dumps job e env w)) evs.
Proof.
  intros (Hp & Hb & _ & Hd) Hq.
  assert (∀ d, Forall (announces d) evs0) as Hann.
  { intros d. eapply Forall_impl; [exact Hq|]. by intros x Hx Hx'. }
  destruct (failed_exact job e env w) as [(e' & -> & _)|(j & Hj & ->)].
  - exists evs0. unfold records, ending, leave, set_pc. simpl.
    split; [done|]. split; [done|]. split; [apply Hann|done].
  - exists (evs0 ++ broke job e). rewrite ending_wrote. unfold records. simpl.
    split; [|split; [|split]].
    + by rewrite Hp, app_assoc.
    + by rewrite Hb, deliver_app.
    + apply Forall_app. split; [apply Hann|].
      eapply announces_broke; [by rewrite lookup_insert_eq|done].
    + intros id. rewrite <- (Hd id). by apply (same_rows_insert (db w) job j).
Qed.

Lemma quiet_queue (i : nat) (q : list string) (n : nat) :
  Forall (λ e : string * payload, e.1 ≠ "job_update") (queue_events_from i q n).
Proof. revert i. induction q; intros i; simpl; by constructor. Qed.

Lemma quiet_dequeue (job : string) (q : list string) :
  Forall (λ e : string * payload, e.1 ≠ "job_update") (dequeue_events job q).
Proof.
  unfold dequeue_events. destruct (bool_decide _); [|constructor].
  apply quiet_queue.
Qed.

Lemma quiet_announces (d : gmap string Job) (evs : list (string * payload)) :
  Forall (λ e : string * payload, e.1 ≠ "job_update") evs →
  Forall (announces d) evs.
Proof. intros H. eapply Forall_impl; [exact H|]. by intros x Hx Hx'. Qed.

Lemma records_refl (w w' : world) :
  published w' = published w → bus w' = bus w → db w' = db w →
  records json_dumps w w' [].
Proof.
  intros Hp Hb Hd. unfold records. rewrite Hp, Hb, Hd, app_nil_r.
  by repeat split.
Qed.

Lemma records_quiet (w w' : world) (evs : list (string * payload)) :
  Forall (λ e : string * payload, e.1 ≠ "job_update") evs →
  published w' = published w ++ evs →
  bus w' = deliver json_dumps evs (bus w) → db w' = db w →
  records json_dumps w w' evs.
Proof.
  intros Hq Hp Hb Hd. unfold records. rewrite Hd.
  split; [done|]. split; [done|]. split; [by apply quiet_announces|done].
Qed.

Lemma records_after_quiet (w w1 w2 : world) (evs0 evs1 : list (string * payload)) :
  Forall (λ e : string * payload, e.1 ≠ "job_update") evs0 →
  published w1 = published w ++ evs0 →
  bus w1 = deliver json_dumps evs0 (bus w) → db w1 = db w →
  records json_dumps w1 w2 evs1 → records json_dumps w w2 (evs0 ++ evs1).
Proof.
  intros Hq Hp Hb Hd (Hp1 & Hb1 & Ha1 & Hd1). unfold records.
  rewrite Hp1, Hb1, Hp, Hb, <- Hd, deliver_app, app_assoc.
  split; [done|]. split; [done|]. split; [|done].
  apply Forall_app. split; [by apply quiet_announces|done].
Qed.

Lemma admission_records (t : nat) (job : string) (sd : option Z)
    (env : admission_env) (w : world) :
  ∃ evs, records json_dumps w (admission json_dumps t job sd env w) evs.
Proof.
  unfold admission. rewrite dequeue_wrote.
  pose proof (quiet_dequeue job (job_queue w)) as Hq.
  set (deq := dequeue_events job (job_queue w)) in *. clearbody deq.
  set (w1 := set_job_queue _ (wrote json_dumps w (db w) deq)).
  assert (records json_dumps w (leave t (Py.Ok ()) w1) deq) as Hleave.
  { by apply records_quiet. }
  unfold one_or_none, commit.
  destruct (fetch_fault env) as [e1|]; [by exists deq|].
  destruct (db w1 !! job) as [j|] eqn:Hj; [|by exists deq].
  destruct (commit_fault env) as [e2|]; [by exists deq|].
  unfold register. cbn [fst snd].
  destruct (setup_fault env) as [e3|].
  - eapply records_failed_ending; [|exact Hq].
    unfold records. simpl. split; [done|]. split; [done|].
    split; [by apply quiet_announces|]. by apply (same_rows_insert (db w) job j).
  - exists (deq ++ started job). unfold records, set_pc, publish. simpl.
    rewrite deliver_app, <- !app_assoc.
    split; [done|]. split; [done|]. split.
    + apply Forall_app. split; [by apply quiet_announces|].
      eapply announces_started; [by rewrite lookup_insert_eq|done].
    + by apply (same_rows_insert (db w) job j).
Qed.

Lemma finish_records (t : nat) (job ti : string) (s : Z) (env : finish_env)
    (w : world) :
  ∃ evs, records json_dumps w (finish json_dumps t job ti s env w) evs.
Proof.
  unfold finish.
  assert (∀ e, ∃ evs, records json_dumps w
            (ending t job (failed json_dumps job e (handler env) w)) evs)
    as Hfail.
  { intros e. eapply records_failed_ending; [by apply records_refl|constructor]. }
  destruct (engine env) as [[]|e]; [|apply Hfail].
  destruct (completed_exact job ti s env w)
    as [(e' & ->)|[(Hno & ->)|(j & Hj & _ & _ & ->)]].
  - apply Hfail.
  - exists []. by apply records_refl.
  - exists (done job ti). rewrite ending_wrote. unfold records. simpl.
    split; [done|]. split; [done|]. split.
    + eapply announces_done; [by rewrite lookup_insert_eq|done].
    + by apply (same_rows_insert (db w) job j).
Qed.

Lemma generate_task_exact (job : string) (sd : option Z) (env : admission_env)
    (w : world) :
  generate_task json_dumps job sd env w
  = let t := length (tasks w) in
    let evs := queued job (job_queue w ++ [job])
               :: queue_events (job_queue w ++ [job]) in
    let w2 :=
      World (job_queue w ++ [job]) (active_jobs w) (gpu_lock w)
            (deliver json_dumps evs (bus w))
            (events w) (db w) (tasks w ++ [Task job sd Waiting])
            (published w ++ evs) (arrivals w ++ [t]) (acquisitions w) in
    match gpu_lock w with
    | MkLock false [] => admission json_dumps t job sd env (acquired t w2)
    | MkLock l ws => set_gpu_lock (MkLock l (ws ++ [(t, false)])) w2
    end.
Proof.
  unfold generate_task. cbv zeta.
  by rewrite broadcast_wrote, publish_wrote, wrote_wrote.
Qed.

Lemma generate_task_records (job : string) (sd : option Z) (env : admission_env)
    (w : world) :
  ∃ evs, records json_dumps w (generate_task json_dumps job sd env w)
           (queued job (job_queue w ++ [job])
            :: queue_events (job_queue w ++ [job]) ++ evs).
Proof.
  rewrite generate_task_exact. cbv zeta.
  set (evs0 := queued job (job_queue w ++ [job])
               :: queue_events (job_queue w ++ [job])).
  assert (Forall (λ e : string * payload, e.1 ≠ "job_update") evs0) as Hq.
  { constructor; [done|apply quiet_queue]. }
  assert (∀ l ws, ∃ evs, records json_dumps w
     (set_gpu_lock (MkLock l ws)
        (World (job_queue w ++ [job]) (active_jobs w) (gpu_lock w)
           (deliver json_dumps evs0 (bus w))
           (events w) (db w) (tasks w ++ [Task job sd Waiting])
           (published w ++ evs0) (arrivals w ++ [length (tasks w)])
           (acquisitions w))) (evs0 ++ evs)) as Hslow.
  { intros l ws. exists []. rewrite app_nil_r. by apply records_quiet. }
  destruct (gpu_lock w) as [[] ws]; [apply Hslow|].
  destruct ws; [|apply Hslow].
  match goal with
  | |- context [admission json_dumps ?t job sd env ?w1] =>
      destruct (admission_records t job sd env w1) as [evs1 H1]
  end.
  exists evs1. change (?x :: ?l ++ evs1) with ((x :: l) ++ evs1).
  eapply records_after_quiet; [exact Hq| | | |exact H1]; done.
Qed.

Lemma cancel_job_records (job : string) (w : world) :
  ∃ evs, records json_dumps w (cancel_job json_dumps job w).2 evs.
Proof.
  unfold cancel_job. case_bool_decide; simpl.
  - rewrite broadcast_wrote.
    exists (queue_events (Py.list_remove job (job_queue w))).
    apply records_quiet; [apply quiet_queue|done..].
  - exists []. apply records_refl; by destruct (active_jobs w !! job).
Qed.

Lemma step_records (a : action) (w w' : world) :
  step json_dumps a w = Some w' →
  ∃ evs,
    published w' = published w ++ evs ∧
    (on_bus a = false → bus w' = deliver json_dumps evs (bus w)) ∧
    Forall (announces (db w')) evs ∧
    (on_store a = false → same_rows (db w') (db w)).
Proof.
  assert (∀ evs, records json_dumps w w' evs →
            ∃ evs,
              published w' = published w ++ evs ∧
              (on_bus a = false → bus w' = deliver json_dumps evs (bus w)) ∧
              Forall (announces (db w')) evs ∧
              (on_store a = false → same_rows (db w') (db w))) as Hrec.
  { intros evs (H1 & H2 & H3 & H4). by exists evs. }
  assert (published w' = published w → db w' = db w → on_bus a = true →
            ∃ evs,
              published w' = published w ++ evs ∧
              (on_bus a = false → bus w' = deliver json_dumps evs (bus w)) ∧
              Forall (announces (db w')) evs ∧
              (on_store a = false → same_rows (db w') (db w))) as Hbus.
  { intros Hp Hd Hb. exists []. rewrite Hp, Hd, Hb, app_nil_r.
    split; [done|]. split; [done|]. split; [constructor|done]. }
  assert (published w' = published w → bus w' = bus w → on_store a = true →
            ∃ evs,
              published w' = published w ++ evs ∧
              (on_bus a = false → bus w' = deliver json_dumps evs (bus w)) ∧
              Forall (announces (db w')) evs ∧
              (on_store a = false → same_rows (db w') (db w))) as Hstore.
  { intros Hp Hb Hs. exists []. rewrite Hp, Hb, Hs, app_nil_r.
    split; [done|]. split; [done|]. split; [constructor|done]. }
  destruct a; simpl.
  - intros [= <-].
    destruct (generate_task_records job_id request_seed env w) as [evs H].
    exact (Hrec _ H).
  - unfold resume.
    destruct (tasks w !! t) as [[job sd []]|] eqn:Ht; try done.
    case_bool_decide as Hin; [|done]. intros [= <-].
    match goal with
    | |- context [admission json_dumps t job sd env ?w1] =>
        destruct (admission_records t job sd env w1) as [evs H1]
    end.
    apply (Hrec ([] ++ evs)).
    eapply records_after_quiet; [constructor| | | |exact H1]; simpl; try done.
    by rewrite app_nil_r.
  - destruct (tasks w !! t) as [[job sd [|ev ti s|]]|] eqn:Ht; try done.
    intros [= <-]. destruct (finish_records t job ti s env w) as [evs H].
    exact (Hrec _ H).
  - destruct (tasks w !! t) as [[job sd []]|] eqn:Ht; try done.
    intros [= <-].
    apply (Hrec [("job_progress",
                  [("job_id", JStr job); ("progress", JInt progress);
                   ("msg", JStr msg)])]).
    apply records_quiet; [by repeat constructor|done..].
  - intros [= <-]. destruct (cancel_job_records job_id w) as [evs H].
    exact (Hrec _ H).
  - intros [= <-]. apply (Hrec []). by apply records_refl.
  - intros [= <-]. by apply Hbus.
  - intros [= <-]. by apply Hbus.
  - destruct (EventManager.queues (bus w) !! q) as [Q|]; [|done]. simpl.
    destruct (EventManager.get_nowait Q); [|done]. simpl.
    intros [= <-]. by apply Hbus.
  - intros [= <-]. by apply Hbus.
  - destruct (db w !! job_id); [done|]. intros [= <-]. by apply Hstore.
  - intros [= <-]. by apply Hstore.
Qed.

Lemma step_rows (a : action) (w w' : world) (id : string) :
  step json_dumps a w = Some w' → on_store a = false →
  job_of a w ≠ Some id → db w' !! id = db w !! id.
Proof.
  assert (∀ t job sd env w0, job ≠ id →
            db (admission json_dumps t job sd env w0) !! id = db w0 !! id)
    as Hadm.
  { intros t job sd env w0 Hne.
    destruct (admission_shape json_dumps t job sd env w0)
      as (evs & [-> | [(j & Hj & ->) | (d & res & -> & Hd & _)]]); simpl.
    - done.
    - by rewrite lookup_insert_ne.
    - by apply Hd. }
  destruct a; simpl; try done.
  - intros [= <-] _ Hne. rewrite generate_task_exact. cbv zeta.
    destruct (gpu_lock w) as [[] ws]; [done|]. destruct ws; [|done].
    rewrite Hadm by congruence. done.
  - unfold resume.
    destruct (tasks w !! t) as [[job sd []]|] eqn:Ht; try done.
    case_bool_decide as Hin; [|done]. intros [= <-] _ Hne.
    rewrite Hadm by (simpl in Hne; congruence). done.
  - destruct (tasks w !! t) as [[job sd [|ev ti s|]]|] eqn:Ht; try done.
    intros [= <-] _ Hne.
    destruct (finish_shape json_dumps t job ti s env w)
      as (evs & d & r & -> & Hd & _).
    simpl. apply Hd. simpl in Hne. congruence.
  - destruct (tasks w !! t) as [[job sd []]|] eqn:Ht; try done.
    by intros [= <-].
  - intros [= <-] _ _.
    by destruct (cancel_job_frame json_dumps job_id w)
      as (_ & _ & _ & _ & _ & -> & _).
  - by intros [= <-].
  - by intros [= <-].
  - by intros [= <-].
  - destruct (EventManager.queues (bus w) !! q) as [Q|]; [|done]. simpl.
    destruct (EventManager.get_nowait Q); [|done]. simpl. by intros [= <-].
  - by intros [= <-].
Qed.

Lemma step_tokens (a : action) (w w' : world) :
  step json_dumps a w = Some w' →
  (length (events w) ≤ length (events w'))%nat ∧
  ∀ i, events w !! i = Some true → events w' !! i = Some true.
Proof.
  assert (∀ t job sd env w0,
            (length (events w0)
             ≤ length (events (admission json_dumps t job sd env w0)))%nat ∧
            ∀ i, events w0 !! i = Some true →
                 events (admission json_dumps t job sd env w0) !! i = Some true)
    as Hadm.
  { intros t job sd env w0.
    destruct (admission_shape json_dumps t job sd env w0)
      as (evs & [-> | [(j & Hj & ->) | (d & res & -> & _)]]); simpl;
      rewrite ?length_app; simpl; (split; [lia|]); try done;
      intros i Hi; by apply lookup_app_l_Some. }
  destruct a; simpl.
  - intros [= <-]. rewrite generate_task_exact. cbv zeta.
    destruct (gpu_lock w) as [[] ws]; [done|]. destruct ws; [|done].
    match goal with
    | |- context [admission json_dumps ?t ?j ?s ?e ?W] => exact (Hadm t j s e W)
    end.
  - unfold resume.
    destruct (tasks w !! t) as [[job sd []]|] eqn:Ht; try done.
    case_bool_decide as Hin; [|done]. intros [= <-].
    match goal with
    | |- context [admission json_dumps ?t ?j ?s ?e ?W] => exact (Hadm t j s e W)
    end.
  - destruct (tasks w !! t) as [[job sd [|ev ti s|]]|] eqn:Ht; try done.
    intros [= <-].
    by destruct (finish_shape json_dumps t job ti s env w)
      as (evs & d & r & -> & _).
  - destruct (tasks w !! t) as [[job sd []]|] eqn:Ht; try done.
    by intros [= <-].
  - intros [= <-]. unfold cancel_job. case_bool_decide; simpl.
    + by rewrite broadcast_wrote.
    + destruct (active_jobs w !! job_id) as [ev|]; simpl; [|done].
      rewrite length_insert. split; [done|]. intros i Hi.
      destruct (decide (ev = i)) as [->|Hne].
      * apply list_lookup_insert_eq. by eapply lookup_lt_Some.
      * by rewrite list_lookup_insert_ne.
  - intros [= <-]. simpl.
    destruct (set_all_spec (events w) (active_jobs w)) as (Hl & _ & _ & Hst).
    split; [by rewrite Hl|done].
  - by intros [= <-].
  - by intros [= <-].
  - destruct (EventManager.queues (bus w) !! q) as [Q|]; [|done]. simpl.
    destruct (EventManager.get_nowait Q); [|done]. simpl. by intros [= <-].
  - by intros [= <-].
  - destruct (db w !! job_id); [done|]. by intros [= <-].
  - by intros [= <-].
Qed.

End event_facts.

(** ** More on the scheduler: queue, events, store, cancellation *)

Section more_service.
Variable json_dumps : payload → string.
Import MusicService Liveness Events.

Lemma run_tokens (acts : list action) (w w' : world) :
  run json_dumps acts w = Some w' →
  (length (events w) ≤ length (events w'))%nat ∧
  ∀ i, events w !! i = Some true → events w' !! i = Some true.
Proof.
  revert w. induction acts as [|a acts IH]; intros w; simpl.
  - by intros [= <-].
  - destruct (step json_dumps a w) as [w1|] eqn:Hs; [|done]. simpl.
    intros Hr. destruct (step_tokens json_dumps a w w1 Hs) as [H1 H2].
    destruct (IH w1 Hr) as [H3 H4]. split; [lia|]. intros i Hi. auto.
Qed.

Lemma list_index_spec (x : string) (l : list string) :
  match Py.list_index x l with
  | Some i => l !! i = Some x ∧ ∀ j, (j < i)%nat → l !! j ≠ Some x
  | None => x ∉ l
  end.
Proof.
  induction l as [|y l IH]; simpl; [apply not_elem_of_nil|].
  destruct (decide (y = x)) as [->|Hne].
  - split; [done|]. intros j Hj. lia.
  - destruct (Py.list_index x l) as [i|]; simpl.
    + destruct IH as [Hi Hlt]. split; [done|].
      intros [|j] Hj; simpl; [congruence|]. apply Hlt. lia.
    + apply not_elem_of_cons. done.
Qed.

Lemma list_index_first (x : string) (l : list string) (i : nat) :
  l !! i = Some x → (∀ j, (j < i)%nat → l !! j ≠ Some x) →
  Py.list_index x l = Some i.
Proof.
  intros Hi Hfirst. pose proof (list_index_spec x l) as H.
  destruct (Py.list_index x l) as [k|].
  - destruct H as [Hk Hlt]. f_equal.
    destruct (Nat.lt_trichotomy k i) as [Hlt'|[->|Hgt]]; [|done|].
    + by destruct (Hfirst k Hlt').
    + by destruct (Hlt i Hgt).
  - destruct H. by eapply list_elem_of_lookup_2.
Qed.

(** X5.  [get_queue_position] is the 1-based place of the first occurrence of
    the id in the displayed queue, and 0 exactly when the id is not in it;
    and for the first occurrence of an id it is the position the next
    rebroadcast sends for that entry. *)
Theorem queue_position_is_first_occurrence (job : string) (w : world) :
  (get_queue_position job w = 0 ↔ job ∉ job_queue w) ∧
  (0 ≤ get_queue_position job w ≤ Z.of_nat (length (job_queue w))) ∧
  (∀ i, job_queue w !! i = Some job →
     (∀ j, (j < i)%nat → job_queue w !! j ≠ Some job) →
     get_queue_position job w = Z.of_nat i + 1 ∧
     queue_events (job_queue w) !! i
     = Some ("job_queue",
             [("job_id", JStr job);
              ("position", JInt (get_queue_position job w));
              ("total", JInt (Z.of_nat (length (job_queue w))))])).
Proof.
  unfold get_queue_position.
  pose proof (list_index_spec job (job_queue w)) as H.
  split; [|split].
  - destruct (Py.list_index job (job_queue w)) as [k|].
    + destruct H as [Hk _]. split; [lia|].
      intros Hout. destruct Hout. by eapply list_elem_of_lookup_2.
    + done.
  - destruct (Py.list_index job (job_queue w)) as [k|]; [|lia].
    destruct H as [Hk _]. apply lookup_lt_Some in Hk. lia.
  - intros i Hi Hfirst. rewrite (list_index_first _ _ _ Hi Hfirst).
    split; [done|]. unfold queue_events.
    by rewrite (queue_events_from_lookup 0 _ _ i job Hi).
Qed.

(** X6.  What a submission announces first.  [generate_task] publishes, before
    anything else, one [job_queued] event whose total is the length of the
    queue with the new entry and whose position is the place of the first
    entry with this id, followed by one [job_queue] event per entry; when
    the id was not queued already the position equals the total. *)
Theorem submission_announces_its_place (job : string) (sd : option Z)
    (env : admission_env) (w : world) :
  let q := job_queue w ++ [job] in
  (∃ evs,
     published (generate_task json_dumps job sd env w)
     = published w ++ queued job q :: queue_events q ++ evs) ∧
  payload_get "total" (queued job q).2
  = Some (JInt (Z.of_nat (length (job_queue w)) + 1)) ∧
  (∃ p, payload_get "position" (queued job q).2 = Some (JInt p) ∧
        1 ≤ p ≤ Z.of_nat (length (job_queue w)) + 1 ∧
        (job ∉ job_queue w → p = Z.of_nat (length (job_queue w)) + 1)).
Proof.
  cbv zeta. split; [|split].
  - destruct (generate_task_records json_dumps job sd env w) as [evs (H & _)].
    by exists evs.
  - transitivity (Some (JInt (Z.of_nat (length (job_queue w ++ [job])))));
      [reflexivity|].
    rewrite length_app. simpl. do 2 f_equal. lia.
  - pose proof (list_index_spec job (job_queue w ++ [job])) as H.
    unfold queued. simpl.
    destruct (Py.list_index job (job_queue w ++ [job])) as [k|].
    + exists (Z.of_nat k + 1). split; [done|]. destruct H as [Hk Hlt].
      pose proof (lookup_lt_Some _ _ _ Hk) as Hb.
      rewrite length_app in Hb. simpl in Hb. split; [lia|].
      intros Hout. apply lookup_app_Some in Hk as [Hk|[Hge Hk]].
      * destruct Hout. by eapply list_elem_of_lookup_2.
      * apply list_lookup_singleton_Some in Hk as [Hk _]. lia.
    + destruct H. apply elem_of_app. right. by apply list_elem_of_singleton.
Qed.

(** X7.  Every event the scheduler publishes reaches every subscriber, in
    order.  In a reachable world, a step of the scheduler (a submission, an
    admission, a completion, a progress callback, a cancellation) appends
    some events to the log of published events, and appends the messages of
    exactly these events, in the same order, to the queue of every
    subscriber; the subscriber list is the same. *)
Theorem scheduler_events_reach_every_subscriber (db0 : gmap string Job)
    (acts : list action) (w : world) (a : action) (w' : world) :
  run json_dumps acts (initial db0) = Some w →
  step json_dumps a w = Some w' → on_bus a = false →
  ∃ evs,
    published w' = published w ++ evs ∧
    EventManager.subscribers (bus w') = EventManager.subscribers (bus w) ∧
    ∀ q, q ∈ EventManager.subscribers (bus w) →
      ∃ Q, EventManager.queues (bus w) !! q = Some Q ∧
           EventManager.queues (bus w') !! q
           = Some (EventManager.MkQueue 0
                     (EventManager.items Q ++ format_all json_dumps evs)).
Proof.
  intros Hrun Hs Hb.
  pose proof (sound_reachable json_dumps db0 acts w Hrun) as S.
  destruct (step_records json_dumps a w w' Hs) as (evs & Hp & Hbus & _).
  exists evs. split; [done|]. rewrite (Hbus Hb).
  split; [apply deliver_subscribers|]. intros q Hq.
  destruct (lookup_lt_is_Some_2 _ _ (EventManager.sound_refs _ S q Hq))
    as [Q HQ].
  exists Q. split; [done|]. rewrite deliver_lookup by done.
  rewrite decide_True by done. by rewrite HQ.
Qed.


(** X9.  The scheduler writes only to the row of its own job and neither
    creates nor deletes a row.  After any step other than the creation or
    deletion of a row by the API, the same ids have a row as before, and
    every row but that of the job whose coroutine ran is unchanged; so a
    row deleted while its job runs is never written back. *)
Theorem scheduler_keeps_the_set_of_rows (a : action) (w w' : world) :
  step json_dumps a w = Some w' → on_store a = false →
  same_rows (db w') (db w) ∧
  ∀ id, job_of a w ≠ Some id → db w' !! id = db w !! id.
Proof.
  intros Hs Hst. split.
  - destruct (step_records json_dumps a w w' Hs) as (evs & _ & _ & _ & H).
    by apply H.
  - intros id Hid. by eapply step_rows.
Qed.

(** X10.  A cancellation signal is never cleared.  Along any run, the events
    created so far are kept, and an event that is set stays set. *)
Theorem abort_signal_is_never_cleared (acts : list action) (w w' : world)
    (i : nat) :
  run json_dumps acts w = Some w' → events w !! i = Some true →
  events w' !! i = Some true ∧ (length (events w) ≤ length (events w'))%nat.
Proof.
  intros Hr Hi. destruct (run_tokens acts w w' Hr) as [H1 H2]. auto.
Qed.

(** X11.  Cancelling the job in flight reaches the engine.  In a reachable
    world, the event the engine was given for the job in flight is the one
    registered under the job's id; [cancel_job] on that id, when the id is
    not also displayed in the queue, returns [True], sets exactly that
    event and changes nothing else; when the id is also in the queue (the
    same id was submitted again) the call only removes that entry and the
    engine's event is left as it was. *)
Theorem cancel_reaches_the_engine (db0 : gmap string Job)
    (acts : list action) (w : world) (t : nat) (job : string)
    (sd : option Z) (ev : nat) (ti : string) (s : Z) :
  run json_dumps acts (initial db0) = Some w →
  tasks w !! t = Some (Task job sd (Generating ev ti s)) →
  active_jobs w !! job = Some ev ∧ is_Some (events w !! ev) ∧
  (job ∉ job_queue w →
     cancel_job json_dumps job w
     = (true, set_events (<[ev := true]> (events w)) w) ∧
     events (cancel_job json_dumps job w).2 !! ev = Some true ∧
     ∀ i, i ≠ ev →
       events (cancel_job json_dumps job w).2 !! i = events w !! i) ∧
  (job ∈ job_queue w →
     (cancel_job json_dumps job w).1 = true ∧
     events (cancel_job json_dumps job w).2 = events w ∧
     job_queue (cancel_job json_dumps job w).2
     = Py.list_remove job (job_queue w)).
Proof.
  intros Hrun Ht.
  pose proof (live_reachable json_dumps db0 acts w Hrun) as L.
  destruct (live_registered _ L _ _ _ _ _ _ Ht) as [Hreg Hlt].
  split; [done|]. split; [by apply lookup_lt_is_Some_2|]. split.
  - intros Hout. unfold cancel_job.
    rewrite bool_decide_eq_false_2 by done. rewrite Hreg. simpl.
    split; [done|]. split; [by apply list_lookup_insert_eq|].
    intros i Hi. by rewrite list_lookup_insert_ne.
  - intros Hin. unfold cancel_job. rewrite bool_decide_eq_true_2 by done.
    simpl. by rewrite broadcast_wrote.
Qed.

(** X12.  [shutdown_all] signals the job in flight and leaves the rest alone.
    In a reachable world it sets the event of every registered job, so the
    event the engine of the job in flight was given; events that are not
    registered keep their state; the displayed queue, the lock and its
    waiters, the registry, the store, the bus and the coroutines are
    unchanged: jobs waiting for the lock are not cancelled, and nothing is
    published. *)
Theorem shutdown_all_signals_the_job_in_flight (db0 : gmap string Job)
    (acts : list action) (w : world) :
  run json_dumps acts (initial db0) = Some w →
  let w' := shutdown_all w in
  (∀ t job sd ev ti s,
     tasks w !! t = Some (Task job sd (Generating ev ti s)) →
     events w' !! ev = Some true) ∧
  (∀ id ev, active_jobs w !! id = Some ev → events w' !! ev = Some true) ∧
  (∀ i, (∀ id, active_jobs w !! id ≠ Some i) → events w' !! i = events w !! i) ∧
  job_queue w' = job_queue w ∧ gpu_lock w' = gpu_lock w ∧
  active_jobs w' = active_jobs w ∧ tasks w' = tasks w ∧ db w' = db w ∧
  bus w' = bus w ∧ published w' = published w.
Proof.
  intros Hrun. cbv zeta.
  pose proof (inv_reachable json_dumps db0 acts w Hrun) as I.
  pose proof (live_reachable json_dumps db0 acts w Hrun) as L.
  destruct (set_all_spec (events w) (active_jobs w)) as (Hlen & Hset & Hout & _).
  assert (∀ id ev, active_jobs w !! id = Some ev →
            events (shutdown_all w) !! ev = Some true) as Hreg.
  { intros id ev Hid. simpl. apply (Hset id); [done|].
    destruct (inv_token _ I id ev Hid) as (t & sd & ti & s & Ht).
    by destruct (live_registered _ L _ _ _ _ _ _ Ht). }
  split.
  { intros t job sd ev ti s Ht.
    destruct (live_registered _ L _ _ _ _ _ _ Ht) as [Hid _].
    by apply (Hreg job). }
  split; [done|]. split; [exact Hout|]. done.
Qed.

(** X13.  A failure of the engine is recorded and announced with its message.
    When the engine raises [e] for the coroutine in flight and the row is
    there and the handler's session answers, the last step stores the row
    with status [FAILED] and [error_msg = str(e)], the other columns as they
    were; publishes exactly one [job_update] event with status [failed] and
    the same message; drops the token, releases the lock and ends the
    coroutine normally: the exception does not leave [generate_task]. *)
Theorem engine_failure_is_recorded (t : nat) (job : string) (sd : option Z)
    (ev : nat) (ti : string) (s : Z) (env : finish_env) (w : world)
    (e : Py.exn) (j : Job) :
  tasks w !! t = Some (Task job sd (Generating ev ti s)) →
  engine env = Py.Raise e → persists (handler env) →
  db w !! job = Some j →
  ∃ w',
    step json_dumps (Finish t env) w = Some w' ∧
    db w' !! job
    = Some (MkJob FAILED (title j) (seed j) (audio_path j)
                  (Some (Py.exn_str e))) ∧
    published w'
    = published w
      ++ [("job_update",
           [("job_id", JStr job); ("status", JStr "failed");
            ("error", JStr (Py.exn_str e))])] ∧
    tasks w' !! t = Some (Task job sd (Finished (Py.Ok ()))) ∧
    active_jobs w' !! job = None ∧
    _locked (gpu_lock w') = false.
Proof.
  intros Ht He [Hp1 Hp2] Hj. simpl. rewrite Ht. eexists. split; [done|].
  unfold finish. rewrite He.
  destruct (failed_exact json_dumps job e (handler env) w)
    as [(e' & _ & Hno)|(j' & Hj' & ->)].
  { destruct Hno as [Hno _]; [done|congruence]. }
  rewrite ending_wrote. simpl. rewrite Hj in Hj'. injection Hj' as <-.
  split; [by rewrite lookup_insert_eq|]. split; [done|].
  split; [by rewrite list_lookup_alter_eq, Ht|].
  split; [by rewrite lookup_delete_eq|done].
Qed.

(** X14.  A completion is recorded with the title, the seed and the path of
    the audio file.  In a reachable world, when the engine returns for the
    coroutine in flight and the row is there and the session answers, the
    last step stores the row with status [COMPLETED], the title the
    coroutine chose, its seed and [/audio/song_<id>.mp3], keeping
    [error_msg] as it was; the seed is the one of the request when it gave
    one; the step publishes the [job_update] with the same path and title,
    then the [job_progress] with 100. *)
Theorem completion_is_recorded (db0 : gmap string Job)
    (acts : list action) (w : world) (t : nat) (job : string)
    (sd : option Z) (ev : nat) (ti : string) (s : Z) (env : finish_env)
    (j : Job) :
  run json_dumps acts (initial db0) = Some w →
  tasks w !! t = Some (Task job sd (Generating ev ti s)) →
  engine env = Py.Ok () →
  done_fetch_fault env = None → done_commit_fault env = None →
  db w !! job = Some j →
  (∀ k, sd = Some k → s = k) ∧
  ∃ w',
    step json_dumps (Finish t env) w = Some w' ∧
    db w' !! job
    = Some (MkJob COMPLETED (Some ti) (Some s)
                  (Some ("/audio/song_" +:+ job +:+ ".mp3")) (error_msg j)) ∧
    published w' = published w ++ done job ti ∧
    tasks w' !! t = Some (Task job sd (Finished (Py.Ok ()))).
Proof.
  intros Hrun Ht He Hf Hc Hj.
  pose proof (live_reachable json_dumps db0 acts w Hrun) as L. split.
  { intros k ->. by apply (live_seed _ L _ _ _ _ _ _ Ht). }
  simpl. rewrite Ht. eexists. split; [done|].
  unfold finish. rewrite He.
  destruct (completed_exact json_dumps job ti s env w)
    as [(e' & He')|[(Hno & _)|(j' & Hj' & _ & _ & ->)]].
  - exfalso. revert He'. unfold completed, one_or_none, commit.
    by rewrite Hf, Hj, Hc.
  - congruence.
  - rewrite ending_wrote. simpl. rewrite Hj in Hj'. injection Hj' as <-.
    split; [by rewrite lookup_insert_eq|]. split; [done|].
    by rewrite list_lookup_alter_eq, Ht.
Qed.

End more_service.

(** ** Loading the pipeline *)

Section loader_facts.
Import Loader.

Lemma consistent_new : consistent new.
Proof. split; [done|]. by intros [? ?]. Qed.

Lemma consistent_step (c : call) (s s' : t) :
  consistent s → step c s = Some s' → consistent s'.
Proof.
  intros [Hlen Hp]. destruct c as [mp ver|env]; simpl.
  - unfold initialize_begin.
    destruct (bool_decide (is_Some (pipeline s))) eqn:Hd; simpl;
      [intros [= <-]; by split|].
    destruct (is_loading s) eqn:Hl; simpl; intros [= <-].
    + split; [by rewrite Hl|]. intros H. by apply bool_decide_eq_false_1 in Hd.
    + split; simpl.
      * rewrite length_app. simpl. lia.
      * intros H. by apply bool_decide_eq_false_1 in Hd.
  - unfold initialize_end. destruct (pending s) as [|[mp ver] rest] eqn:Hq;
      [done|]. simpl.
    assert (rest = []) as ->.
    { destruct (is_loading s); simpl in Hlen; [|done]. by destruct rest. }
    unfold load. destruct (probe_fault env) as [e|]; simpl.
    { intros [= <-]. split; [done|]. simpl. done. }
    destruct (Placement._load_pipeline_multi_gpu _ _ _ _) as [[mode args]|];
      simpl.
    + destruct (build_fault env) as [e|]; simpl; intros [= <-]; by split.
    + intros [= <-]. by split.
Qed.

Lemma consistent_run (cs : list call) (s s' : t) :
  consistent s → run cs s = Some s' → consistent s'.
Proof.
  revert s. induction cs as [|c cs IH]; intros s C; simpl.
  - by intros [= <-].
  - destruct (step c s) as [s1|] eqn:Hs; [|done]. simpl.
    apply IH. by eapply consistent_step.
Qed.

Lemma loaded_step (c : call) (s s' : t) :
  consistent s → is_Some (pipeline s) → step c s = Some s' → s' = s.
Proof.
  intros [Hlen Hp] Hsome. pose proof (Hp Hsome) as Hl.
  destruct c as [mp ver|env]; simpl.
  - unfold initialize_begin. rewrite bool_decide_eq_true_2 by done.
    by intros [= <-].
  - unfold initialize_end. rewrite Hl in Hlen.
    destruct (pending s); [done|]. done.
Qed.

(** X15.  [initialize] never runs two loads at once and never loads again
    once the pipeline is there.  Along any interleaving of calls of
    [initialize] and answers of the executor, starting from the fresh
    singleton: at most one load is in flight, and one is in flight exactly
    while [is_loading] is set; a call made while a load is in flight or
    after the pipeline is loaded returns at once and changes nothing; and
    once the pipeline is loaded every later call and answer leaves the
    pipeline, the mode and the flag as they are. *)
Theorem initialize_loads_once (cs : list call) (s : t) :
  run cs new = Some s →
  length (pending s) = (if is_loading s then 1 else 0)%nat ∧
  (is_Some (pipeline s) → is_loading s = false) ∧
  (is_Some (pipeline s) ∨ is_loading s = true →
     ∀ mp ver, initialize_begin mp ver s = (false, s)) ∧
  (is_Some (pipeline s) → ∀ cs' s', run cs' s = Some s' → s' = s).
Proof.
  intros Hrun. pose proof (consistent_run cs new s consistent_new Hrun) as C.
  destruct C as [Hlen Hp]. split; [done|]. split; [done|]. split.
  - intros H mp ver. unfold initialize_begin.
    destruct H as [H|H].
    + by rewrite bool_decide_eq_true_2.
    + rewrite H. by rewrite orb_true_r.
  - intros Hsome cs'. induction cs' as [|c cs' IH]; intros s'; simpl.
    + by intros [= <-].
    + destruct (step c s) as [s1|] eqn:Hs; [|done]. simpl.
      rewrite (loaded_step c s s1) by done. apply IH.
Qed.

(** X16.  The answer of the executor ends the load on both outcomes.  When a
    load is in flight and the executor answers, [is_loading] is cleared
    whatever happened.  If [from_pretrained] returned, the pipeline is the
    one built by the call that [_load_pipeline_multi_gpu] makes for the
    accelerators found, and [gpu_mode] is the mode it chose.  If the probe
    or [from_pretrained] raised, the same exception leaves [initialize], the
    pipeline stays absent, and the next call of [initialize] starts a new
    load. *)
Theorem load_outcome_clears_the_flag (cs : list call) (s : t)
    (env : load_env) :
  run cs new = Some s → is_loading s = true →
  ∃ r s',
    initialize_end env s = Some (r, s') ∧
    is_loading s' = false ∧ pending s' = [] ∧
    match r with
    | Py.Ok _ =>
        probe_fault env = None ∧ build_fault env = None ∧
        ∃ mp ver mode args,
          Placement._load_pipeline_multi_gpu (total_memory env) mp ver true
          = Some (mode, args) ∧
          pipeline s' = Some args ∧ gpu_mode s' = mode
    | Py.Raise e =>
        pipeline s' = None ∧
        (probe_fault env = Some e ∨ build_fault env = Some e
         ∨ e = ValueError) ∧
        ∀ mp ver, (initialize_begin mp ver s').1 = true
    end.
Proof.
  intros Hrun Hl.
  destruct (consistent_run cs new s consistent_new Hrun) as [Hlen Hp].
  rewrite Hl in Hlen.
  assert (pipeline s = None) as Hnone.
  { destruct (pipeline s) eqn:H; [|done].
    assert (is_loading s = false) by (apply Hp; by eexists). congruence. }
  unfold initialize_end.
  destruct (pending s) as [|[mp ver] [|]] eqn:Hq; simpl in Hlen; try done.
  assert (∀ g mp' ver',
            (initialize_begin mp' ver' (Mk None false g [])).1 = true)
    as Hretry.
  { intros g mp' ver'. unfold initialize_begin.
    cbn [pipeline is_loading].
    by rewrite bool_decide_eq_false_2 by (by intros [? ?]). }
  unfold load. destruct (probe_fault env) as [e|] eqn:Hpf.
  { eexists _, _. split; [done|]. simpl. split; [done|]. split; [done|].
    rewrite Hnone. split; [done|]. split; [by left|].
    apply Hretry. }
  destruct (Placement._load_pipeline_multi_gpu _ _ _ _) as [[mode args]|] eqn:Hld.
  - destruct (build_fault env) as [e|] eqn:Hbf.
    + eexists _, _. split; [done|]. simpl. split; [done|]. split; [done|].
      rewrite Hnone. split; [done|]. split; [right; by left|].
      apply Hretry.
    + eexists _, _. split; [done|]. simpl. split; [done|]. split; [done|].
      split; [done|]. split; [done|]. by exists mp, ver, mode, args.
  - eexists _, _. split; [done|]. simpl. split; [done|]. split; [done|].
    rewrite Hnone. split; [done|]. split; [right; by right|].
    apply Hretry.
Qed.

End loader_facts.

(** ** More on device placement *)

Section placement_ties.
Import Placement.

Lemma max_key_from_first {A} (key : A → Q) (items : list A) (best : A) :
  let m := Py.max_key_from key best items in
  (m = best ∧ ∀ x, x ∈ items → (key x <= key best)%Q)
  ∨ (∃ l1 l2, items = l1 ++ m :: l2 ∧ (key best < key m)%Q ∧
       (∀ x, x ∈ l1 → (key x < key m)%Q) ∧
       ∀ x, x ∈ l2 → (key x <= key m)%Q).
Proof.
  revert best. induction items as [|x r IH]; intros best; simpl.
  - left. split; [done|]. intros x Hx. inversion Hx.
  - destruct (Qle_bool (key x) (key best)) eqn:Hle.
    + apply Qle_bool_iff in Hle.
      destruct (IH best) as [[Hm Hall]|(l1 & l2 & Hr & Hlt & H1 & H2)].
      * left. split; [done|]. intros y Hy.
        inversion Hy; subst; [done|by apply Hall].
      * right. exists (x :: l1), l2. split; [by rewrite Hr at 1|].
        split; [done|]. split; [|done]. intros y Hy.
        inversion Hy; subst; [by eapply Qle_lt_trans|by apply H1].
    + assert (key best < key x)%Q as Hbx.
      { apply Qnot_le_lt. intros H%Qle_bool_iff. congruence. }
      right.
      destruct (IH x) as [[Hm Hall]|(l1 & l2 & Hr & Hlt & H1 & H2)].
      * exists [], r. rewrite Hm. split; [done|]. split; [done|].
        split; [intros y Hy; inversion Hy|done].
      * exists (x :: l1), l2. split; [by rewrite Hr at 1|].
        split; [by eapply Qlt_trans|]. split; [|done]. intros y Hy.
        inversion Hy; subst; [done|by apply H1].
Qed.

Lemma min_key_from_first {A} (key : A → Q) (items : list A) (best : A) :
  let m := Py.min_key_from key best items in
  (m = best ∧ ∀ x, x ∈ items → (key best <= key x)%Q)
  ∨ (∃ l1 l2, items = l1 ++ m :: l2 ∧ (key m < key best)%Q ∧
       (∀ x, x ∈ l1 → (key m < key x)%Q) ∧
       ∀ x, x ∈ l2 → (key m <= key x)%Q).
Proof.
  revert best. induction items as [|x r IH]; intros best; simpl.
  - left. split; [done|]. intros x Hx. inversion Hx.
  - destruct (Qle_bool (key best) (key x)) eqn:Hle.
    + apply Qle_bool_iff in Hle.
      destruct (IH best) as [[Hm Hall]|(l1 & l2 & Hr & Hlt & H1 & H2)].
      * left. split; [done|]. intros y Hy.
        inversion Hy; subst; [done|by apply Hall].
      * right. exists (x :: l1), l2. split; [by rewrite Hr at 1|].
        split; [done|]. split; [|done]. intros y Hy.
        inversion Hy; subst; [by eapply Qlt_le_trans|by apply H1].
    + assert (key x < key best)%Q as Hbx.
      { apply Qnot_le_lt. intros H%Qle_bool_iff. congruence. }
      right.
      destruct (IH x) as [[Hm Hall]|(l1 & l2 & Hr & Hlt & H1 & H2)].
      * exists [], r. rewrite Hm. split; [done|]. split; [done|].
        split; [intros y Hy; inversion Hy|done].
      * exists (x :: l1), l2. split; [by rewrite Hr at 1|].
        split; [by eapply Qlt_trans|]. split; [|done]. intros y Hy.
        inversion Hy; subst; [done|by apply H1].
Qed.

(** In [seq 1 n] the entries before [m] are the numbers from 1 below [m]. *)
Lemma seq_split_before (n m : nat) (l1 l2 : list nat) (k : nat) :
  seq 1 n = l1 ++ m :: l2 → (1 ≤ k < m)%nat → k ∈ l1.
Proof.
  intros Hs Hk.
  assert (m = S (length l1)) as ->.
  { assert (seq 1 n !! length l1 = Some m) as H.
    { rewrite Hs. by rewrite lookup_app_r, Nat.sub_diag. }
    apply lookup_seq in H. lia. }
  assert (seq 1 n !! (k - 1)%nat = Some k) as H.
  { apply lookup_seq. split; [lia|].
    assert (length (seq 1 n) = length (l1 ++ S (length l1) :: l2)) as Hl
      by by rewrite Hs.
    rewrite length_seq, length_app in Hl. simpl in Hl. lia. }
  rewrite Hs, lookup_app_l in H by lia. by eapply list_elem_of_lookup_2.
Qed.

Lemma get_gpu_memory_lt (tm : list Z) (i j : nat) (a b : Z) :
  tm !! i = Some a → tm !! j = Some b →
  (get_gpu_memory tm i < get_gpu_memory tm j)%Q ↔ (a < b)%Z.
Proof.
  intros Hi Hj. unfold get_gpu_memory. rewrite Hi, Hj. simpl.
  unfold Qlt, Qdiv, Qmult, Qinv, inject_Z. simpl. lia.
Qed.

(** X17.  Among accelerators of equal memory the one with the lowest index is
    chosen, for the model and for the codec alike.  With two or more
    accelerators, every accelerator before the one chosen for the model has
    strictly less memory than it, and every accelerator before the one
    chosen for the codec has strictly more; so the model and the codec are
    put on the same accelerator exactly when all accelerators have the same
    memory, and then that accelerator is number 0. *)
Theorem equal_accelerators_share_device_zero (tm : list Z)
    (mp ver : string) (load : bool) :
  (2 ≤ length tm)%nat →
  ∃ mula codec bm bc,
    _load_pipeline_multi_gpu tm mp ver load
    = Some ("multi",
            FromPretrained mp (cuda_index mula) (cuda_index codec)
                           "bfloat16" ver load None) ∧
    tm !! mula = Some bm ∧ tm !! codec = Some bc ∧
    (∀ k b, (k < mula)%nat → tm !! k = Some b → (b < bm)%Z) ∧
    (∀ k b, (k < codec)%nat → tm !! k = Some b → (bc < b)%Z) ∧
    (mula = codec ↔ ∀ k b, tm !! k = Some b → b = bm) ∧
    (mula = codec → mula = 0%nat).
Proof.
  intros Hn. unfold _load_pipeline_multi_gpu. rewrite decide_False by lia.
  cbv zeta. rewrite gpu_memories_keys.
  destruct tm as [|b0 tm']; [simpl in Hn; lia|].
  set (tm := b0 :: tm') in *. change (length tm) with (S (length tm')).
  cbn [seq]. simpl.
  set (key := dict_get (gpu_memories tm)).
  pose proof (max_key_from_spec key (seq 1 (length tm')) 0%nat)
    as (Hmin & Hm0 & Hmall).
  pose proof (min_key_from_spec key (seq 1 (length tm')) 0%nat)
    as (Hcin & Hc0 & Hcall).
  pose proof (max_key_from_first key (seq 1 (length tm')) 0%nat) as Hmf.
  pose proof (min_key_from_first key (seq 1 (length tm')) 0%nat) as Hcf.
  cbv zeta in *.
  set (mula := Py.max_key_from key 0%nat (seq 1 (length tm'))) in *.
  set (codec := Py.min_key_from key 0%nat (seq 1 (length tm'))) in *.
  assert (∀ x, (x = 0%nat ∨ x ∈ seq 1 (length tm')) ↔ (x < length tm)%nat)
    as Hrange.
  { intros x. rewrite elem_of_seq. subst tm. simpl. lia. }
  assert (mula < length tm)%nat as Hml by (by apply Hrange).
  assert (codec < length tm)%nat as Hcl by (by apply Hrange).
  destruct (lookup_lt_is_Some_2 _ _ Hml) as [bm Hbm].
  destruct (lookup_lt_is_Some_2 _ _ Hcl) as [bc Hbc].
  assert (∀ k, (k < length tm)%nat → key k = get_gpu_memory tm k) as Hkey.
  { intros k Hk. subst key. by apply dict_get_gpu_memories. }
  assert (∀ k b, (k < mula)%nat → tm !! k = Some b → (b < bm)%Z) as Hbefore_m.
  { intros k b Hk Hb. pose proof (lookup_lt_Some _ _ _ Hb) as Hkl.
    assert (key k < key mula)%Q as Hlt.
    { destruct Hmf as [[Hm _]|(l1 & l2 & Hs & H0 & H1 & _)]; [lia|].
      destruct k as [|k]; [done|]. apply H1.
      eapply seq_split_before; [exact Hs|lia]. }
    rewrite !Hkey in Hlt by done.
    by apply (get_gpu_memory_lt tm k mula b bm) in Hlt. }
  assert (∀ k b, (k < codec)%nat → tm !! k = Some b → (bc < b)%Z) as Hbefore_c.
  { intros k b Hk Hb. pose proof (lookup_lt_Some _ _ _ Hb) as Hkl.
    assert (key codec < key k)%Q as Hlt.
    { destruct Hcf as [[Hm _]|(l1 & l2 & Hs & H0 & H1 & _)]; [lia|].
      destruct k as [|k]; [done|]. apply H1.
      eapply seq_split_before; [exact Hs|lia]. }
    rewrite !Hkey in Hlt by done.
    by apply (get_gpu_memory_lt tm codec k bc b) in Hlt. }
  assert (∀ k b, tm !! k = Some b → (bc ≤ b ≤ bm)%Z) as Hbounds.
  { intros k b Hk. pose proof (lookup_lt_Some _ _ _ Hk) as Hkl.
    assert (key k <= key mula ∧ key codec <= key k)%Q as [H1 H2].
    { apply Hrange in Hkl as [->|Hin]; [done|].
      split; [by apply Hmall|by apply Hcall]. }
    rewrite !Hkey in H1, H2 by done.
    rewrite (get_gpu_memory_le tm k mula b bm) in H1 by done.
    rewrite (get_gpu_memory_le tm codec k bc b) in H2 by done. lia. }
  assert (mula = codec → mula = 0%nat) as Hzero.
  { intros Heq. destruct (decide (mula = 0%nat)) as [|Hne]; [done|].
    assert (b0 < bm)%Z by (apply (Hbefore_m 0%nat); [lia|done]).
    assert (bc < b0)%Z by (apply (Hbefore_c 0%nat); [lia|done]).
    rewrite Heq in Hbm. rewrite Hbm in Hbc. injection Hbc as ->. lia. }
  exists mula, codec, bm, bc.
  split; [done|]. split; [done|]. split; [done|]. split; [done|].
  split; [done|]. split; [|done]. split.
  - intros Heq k b Hk. rewrite Heq in Hbm. rewrite Hbm in Hbc.
    injection Hbc as ->. specialize (Hbounds k b Hk). lia.
  - intros Hall.
    assert (mula = 0%nat) as ->.
    { destruct (decide (mula = 0%nat)) as [|Hne]; [done|].
      assert (b0 < bm)%Z by (apply (Hbefore_m 0%nat); [lia|done]).
      assert (b0 = bm) by by apply (Hall 0%nat). lia. }
    symmetry. destruct (decide (codec = 0%nat)) as [|Hne]; [done|].
    assert (bc < b0)%Z by (apply (Hbefore_c 0%nat); [lia|done]).
    assert (b0 = bm) by by apply (Hall 0%nat).
    assert (bc = bm) by by apply (Hall codec). lia.
Qed.

End placement_ties.

(** ** What the engine is given *)

Section engine_facts.
Import Conditioning Engine.
Local Open Scope float_scope.

Lemma muq_segment_sec_floor (p d : float) :
  (1.0 <=? muq_segment_sec p d) = true.
Proof.
  unfold muq_segment_sec, Py.max. cbv zeta.
  destruct (1.0 <? _) eqn:H; [by apply ltb_leb|]. by vm_compute.
Qed.

(** X18.  The engine gets the conditioning window exactly when it gets the
    reference audio, and the window is never below one second.  Whatever
    the request says and whatever the file system and [torchaudio.info]
    answer, the dict passed to the pipeline always has [lyrics] and [tags];
    it has [muq_segment_sec] if and only if it has [ref_audio], which is
    then the file found; [ref_audio_start_sec] comes only with
    [ref_audio]; and a [muq_segment_sec] that is passed is at least 1.0. *)
Theorem reference_window_comes_with_reference_audio
    (strip : string → string) (lyrics tags ref_audio_id : option string)
    (style_influence : float) (start : option float)
    (found : option string) (info : option (Z * Z)) :
  let d := engine_inputs strip lyrics tags ref_audio_id style_influence start
             found info in
  is_Some (get "lyrics" d) ∧
  get "tags" d = Some (PStr (sound_tags strip tags)) ∧
  (is_Some (get "muq_segment_sec" d) ↔ is_Some (get "ref_audio" d)) ∧
  (is_Some (get "ref_audio_start_sec" d) → is_Some (get "ref_audio" d)) ∧
  (∀ path, get "ref_audio" d = Some (PStr path) → found = Some path) ∧
  (∀ f, get "muq_segment_sec" d = Some (PFloat f) → (1.0 <=? f) = true).
Proof.
  cbv zeta. unfold engine_inputs, resolve_ref_audio, pipeline_inputs.
  assert (∀ l t : pvalue,
    let d := [("lyrics", l); ("tags", t)] ++ [] in
    is_Some (get "lyrics" d) ∧ get "tags" d = Some t ∧
    (is_Some (get "muq_segment_sec" d) ↔ is_Some (get "ref_audio" d)) ∧
    (is_Some (get "ref_audio_start_sec" d) → is_Some (get "ref_audio" d)) ∧
    (∀ path, get "ref_audio" d = Some (PStr path) → found = Some path) ∧
    (∀ f, get "muq_segment_sec" d = Some (PFloat f) → (1.0 <=? f) = true))
    as Hbare.
  { intros l t. cbv zeta. split; [by eexists|]. split; [done|].
    split; [split; by intros [? ?]|]. split; [by intros [? ?]|].
    split; by intros ? ?. }
  destruct ref_audio_id as [[|c id]|]; cbn [fst snd]; [apply Hbare| |apply Hbare].
  destruct found as [[|c' path]|]; [|clear Hbare|apply Hbare].
  { destruct (info ≫= _); apply Hbare. }
  destruct (info ≫= _) as [dur|]; cbn [fst snd].
  - split; [by eexists|]. split; [done|].
    split; [split; intros _; by eexists|]. split; [intros _; by eexists|].
    split; [by intros ? [= <-]|].
    intros f. destruct start; intros [= <-]; apply muq_segment_sec_floor.
  - split; [by eexists|]. split; [done|].
    split; [split; intros _; by eexists|]. split; [intros _; by eexists|].
    split; [by intros ? [= <-]|].
    intros f. destruct start; intros [= <-]; by vm_compute.
Qed.

End engine_facts.

(** ** Examples: the further theorems at concrete runs *)

Section more_examples.
Import MusicService Scenario Events Cases.

(** At the run [two_jobs] the coroutine of job b waits and that of job a can
    finish. *)
Lemma some_coroutine_can_always_step_witness :
  (∃ t', in_flight (after two_jobs) t' ∧
     ∀ env, is_Some (step json_dumps_plain (Finish t' env) (after two_jobs))) ∨
  (_locked (gpu_lock (after two_jobs)) = false ∧
   ∃ t' r, _waiters (gpu_lock (after two_jobs)) = (t', true) :: r ∧
     ∀ env, is_Some (step json_dumps_plain (Resume t' env) (after two_jobs))).
Proof.
  apply (some_coroutine_can_always_step json_dumps_plain ∅ two_jobs
           (after two_jobs) 1).
  - vm_compute. reflexivity.
  - eexists. vm_compute. reflexivity.
  - intros (tk & Htk & Hf). vm_compute in Htk. injection Htk as <-.
    discriminate Hf.
Defined.

(** A bus with one subscriber, which then unsubscribes. *)
Lemma unsubscribed_channel_receives_nothing_witness :
  let em := (EventManager.subscribe EventManager.new).2 in
  EventManager.sound em ∧
  (0%nat ∉ EventManager.subscribers (EventManager.unsubscribe 0 em)) ∧
  ∀ evs,
    EventManager.queues
      (deliver json_dumps_plain evs (EventManager.unsubscribe 0 em)) !! 0%nat
    = Some EventManager.Queue_new.
Proof.
  cbv zeta.
  assert (EventManager.sound (EventManager.subscribe EventManager.new).2)
    as S by apply sound_subscribe, sound_new.
  split; [exact S|].
  destruct (unsubscribed_channel_receives_nothing json_dumps_plain
              (EventManager.subscribe EventManager.new).2 0 S)
    as (H1 & _ & _ & H2).
  split; [exact H1|]. intros evs. exact (H2 evs).
Defined.

(** On the fresh bus. *)
Lemma subscribe_unsubscribe_round_trip_witness :
  EventManager.subscribers
    (EventManager.unsubscribe (EventManager.subscribe EventManager.new).1
       (EventManager.subscribe EventManager.new).2) = [] ∧
  EventManager.unsubscribe 3 EventManager.new = EventManager.new.
Proof.
  destruct (subscribe_unsubscribe_round_trip EventManager.new sound_new)
    as (H1 & H2 & _).
  split; [exact H1|]. apply H2. apply not_elem_of_nil.
Defined.

(** One subscriber, then the two events of a start. *)
Lemma subscriber_reads_in_publish_order_witness :
  EventManager.queues
    (deliver json_dumps_plain (started "a")
       (EventManager.subscribe EventManager.new).2) !! 0%nat
  = Some (EventManager.MkQueue 0
            (format_all json_dumps_plain (started "a"))).
Proof.
  destruct (subscriber_reads_in_publish_order json_dumps_plain
              EventManager.new (started "a") sound_new) as (_ & _ & H & _).
  exact H.
Defined.

(** The submission of job a in front of an observer. *)
Lemma scheduler_events_reach_every_subscriber_witness :
  ∃ evs,
    published (after observed) = published (after subscribed) ++ evs ∧
    EventManager.subscribers (bus (after observed))
    = EventManager.subscribers (bus (after subscribed)) ∧
    ∀ q, q ∈ EventManager.subscribers (bus (after subscribed)) →
      ∃ Q, EventManager.queues (bus (after subscribed)) !! q = Some Q ∧
           EventManager.queues (bus (after observed)) !! q
           = Some (EventManager.MkQueue 0
                     (EventManager.items Q
                      ++ format_all json_dumps_plain evs)).
Proof.
  apply (scheduler_events_reach_every_subscriber json_dumps_plain ∅
           subscribed (after subscribed) (Submit "a" None env0)).
  - vm_compute. reflexivity.
  - vm_compute. reflexivity.
  - reflexivity.
Defined.


Lemma scheduler_keeps_the_set_of_rows_witness :
  same_rows (db (after observed)) (db (after subscribed)) ∧
  ∀ id, Some "a" ≠ Some id →
        db (after observed) !! id = db (after subscribed) !! id.
Proof.
  apply (scheduler_keeps_the_set_of_rows json_dumps_plain
           (Submit "a" None env0) (after subscribed) (after observed)).
  - vm_compute. reflexivity.
  - reflexivity.
Defined.

(** Job a is cancelled in flight; its event is still set after a has
    finished and b has started. *)
Lemma abort_signal_is_never_cleared_witness :
  events (after cancelled_in_flight) !! 0%nat = Some true ∧
  events (after (cancelled_in_flight ++ [Finish 0 returned; Resume 1 env0]))
    !! 0%nat = Some true.
Proof.
  assert (events (after cancelled_in_flight) !! 0%nat = Some true) as H0
    by (vm_compute; reflexivity).
  split; [exact H0|].
  apply (abort_signal_is_never_cleared json_dumps_plain
           [Finish 0 returned; Resume 1 env0] (after cancelled_in_flight)
           (after (cancelled_in_flight ++ [Finish 0 returned; Resume 1 env0]))
           0).
  - vm_compute. reflexivity.
  - exact H0.
Defined.

Lemma cancel_reaches_the_engine_witness :
  active_jobs (after two_jobs) !! "a" = Some 0%nat ∧
  events (cancel_job json_dumps_plain "a" (after two_jobs)).2 !! 0%nat
  = Some true.
Proof.
  destruct (cancel_reaches_the_engine json_dumps_plain ∅ two_jobs
              (after two_jobs) 0 "a" None 0 "Rain" 7)
    as (H1 & _ & H2 & _).
  - vm_compute. reflexivity.
  - vm_compute. reflexivity.
  - split; [exact H1|]. apply H2.
    apply (bool_decide_unpack _). vm_compute. exact I.
Defined.

Lemma shutdown_all_signals_the_job_in_flight_witness :
  events (shutdown_all (after two_jobs)) !! 0%nat = Some true ∧
  job_queue (shutdown_all (after two_jobs)) = ["b"].
Proof.
  destruct (shutdown_all_signals_the_job_in_flight json_dumps_plain ∅
              two_jobs (after two_jobs)) as (H1 & _ & _ & H2 & _).
  - vm_compute. reflexivity.
  - split.
    + apply (H1 0%nat "a" None 0%nat "Rain" 7). vm_compute. reflexivity.
    + rewrite H2. vm_compute. reflexivity.
Defined.

Lemma engine_failure_is_recorded_witness :
  ∃ w',
    step json_dumps_plain (Finish 0 raised) (after two_jobs) = Some w' ∧
    db w' !! "a"
    = Some (MkJob FAILED None None None (Some "CUDA out of memory")) ∧
    published w'
    = published (after two_jobs)
      ++ [("job_update",
           [("job_id", JStr "a"); ("status", JStr "failed");
            ("error", JStr "CUDA out of memory")])] ∧
    tasks w' !! 0%nat = Some (Task "a" None (Finished (Py.Ok ()))) ∧
    active_jobs w' !! "a" = None ∧
    _locked (gpu_lock w') = false.
Proof.
  apply (engine_failure_is_recorded json_dumps_plain 0 "a" None 0 "Rain" 7
           raised (after two_jobs)
           (Py.Exn "RuntimeError" "CUDA out of memory")
           (MkJob PROCESSING None None None None)).
  - vm_compute. reflexivity.
  - reflexivity.
  - split; reflexivity.
  - vm_compute. reflexivity.
Defined.

(** Job a is submitted with seed 42 and the engine returns. *)
Lemma completion_is_recorded_witness :
  ∃ w',
    step json_dumps_plain (Finish 0 returned) (after seeded) = Some w' ∧
    db w' !! "a"
    = Some (MkJob COMPLETED (Some "Rain") (Some 42)
                  (Some "/audio/song_a.mp3") None) ∧
    published w' = published (after seeded) ++ done "a" "Rain" ∧
    tasks w' !! 0%nat = Some (Task "a" (Some 42) (Finished (Py.Ok ()))).
Proof.
  apply (completion_is_recorded json_dumps_plain ∅ seeded (after seeded) 0
           "a" (Some 42) 0 "Rain" 42 returned
           (MkJob PROCESSING None None None None)).
  - vm_compute. reflexivity.
  - vm_compute. reflexivity.
  - reflexivity.
  - reflexivity.
  - reflexivity.
  - vm_compute. reflexivity.
Defined.

(** Two calls of [initialize], then the executor answers the first. *)
Lemma initialize_loads_once_witness :
  let s := loaded_after [Loader.Begin ckpt "3B"; Loader.Begin ckpt "3B";
                         Loader.End built] in
  Loader.is_loading s = false ∧ Loader.pending s = [] ∧
  is_Some (Loader.pipeline s) ∧
  Loader.initialize_begin ckpt "3B" s = (false, s).
Proof.
  cbv zeta.
  destruct (initialize_loads_once
              [Loader.Begin ckpt "3B"; Loader.Begin ckpt "3B"; Loader.End built]
              (loaded_after [Loader.Begin ckpt "3B"; Loader.Begin ckpt "3B";
                             Loader.End built]))
    as (_ & H2 & H3 & _).
  - vm_compute. reflexivity.
  - assert (is_Some (Loader.pipeline
              (loaded_after [Loader.Begin ckpt "3B"; Loader.Begin ckpt "3B";
                             Loader.End built]))) as Hs
      by (eexists; vm_compute; reflexivity).
    split; [exact (H2 Hs)|]. split; [vm_compute; reflexivity|].
    split; [exact Hs|]. apply H3. left. exact Hs.
Defined.

(** A load whose [from_pretrained] raises. *)
Lemma load_outcome_clears_the_flag_witness :
  ∃ r s',
    Loader.initialize_end unbuilt (loaded_after [Loader.Begin ckpt "3B"])
    = Some (r, s') ∧
    Loader.is_loading s' = false ∧ Loader.pending s' = [].
Proof.
  destruct (load_outcome_clears_the_flag [Loader.Begin ckpt "3B"]
              (loaded_after [Loader.Begin ckpt "3B"]) unbuilt)
    as (r & s' & H1 & H2 & H3 & _).
  - vm_compute. reflexivity.
  - vm_compute. reflexivity.
  - exists r, s'. split; [exact H1|]. split; [exact H2|exact H3].
Defined.

(** Two accelerators of 24 GiB: the model and the codec both go to
    [cuda:0]. *)
Lemma equal_accelerators_share_device_zero_witness :
  ∃ mula codec bm bc,
    Placement._load_pipeline_multi_gpu twin_gpus ckpt "3B" true
    = Some ("multi",
            Placement.FromPretrained ckpt (Placement.cuda_index mula)
              (Placement.cuda_index codec) "bfloat16" "3B" true None) ∧
    twin_gpus !! mula = Some bm ∧ twin_gpus !! codec = Some bc ∧
    (∀ k b, (k < mula)%nat → twin_gpus !! k = Some b → (b < bm)%Z) ∧
    (∀ k b, (k < codec)%nat → twin_gpus !! k = Some b → (bc < b)%Z) ∧
    (mula = codec ↔ ∀ k b, twin_gpus !! k = Some b → b = bm) ∧
    (mula = codec → mula = 0%nat).
Proof.
  apply (equal_accelerators_share_device_zero twin_gpus ckpt "3B" true).
  simpl. lia.
Defined.

Example twin_accelerators_both_on_zero :
  Placement._load_pipeline_multi_gpu twin_gpus ckpt "3B" true
  = Some ("multi",
          Placement.FromPretrained ckpt (Placement.cuda_index 0)
            (Placement.cuda_index 0) "bfloat16" "3B" true None).
Proof. vm_compute. reflexivity. Qed.

End more_examples.
